(** * The resilient data-access layer of [db/manager.py]

    A shallow embedding of the [DatabaseManager] singleton: the ClickHouse
    reconnect routine with exponential backoff, the per-thread SQLite
    connection cache, the TTL cache of the date range and shutdown.

    Modelling conventions.
    - Python objects (SQLite connections, ClickHouse clients, cursors) are
      identified by the number they were allocated with; a counter in the
      state hands out fresh identities, as object creation does.
    - Python floats ([time.time()], the retry delays) are modelled by exact
      rationals [Qc]; with the shipped constants (1.0 and 2.0) the float
      products are exact, so both agree on the default configuration.
    - What the code does to the outside world (queries, sleeps, lock
      operations, opening and closing handles) is recorded in a trace.
    - Everything the outside world decides (does the server answer, does the
      database file exist, what does the fetch function return) is an explicit
      environment argument.
    - [logger] calls are not modelled. Calls into [sqlite3] are taken to
      succeed, but for [conn.cursor()] on a closed connection, which raises
      [ProgrammingError]; besides it the only raise on the SQLite path is the
      explicit one of the source.
    - Two models of execution are given: calls that run one after the other
      (state passing), and threads that interleave the statements of
      [get_connection] (a step function over thread positions and the holder
      of [_ch_lock]); a thread running alone in the second behaves as the
      first prescribes.
    - The callers of the manager ([main.py], [dao/user_dao.py]) run on the
      same state. For the access control in front of the routes
      ([core/security.py], [api/middleware.py]) a string is a sequence of
      code points, the whitelist patterns are given as syntax trees, and
      [jwt.decode] is an environment argument. *)

From Stdlib Require Import ZArith QArith Qcanon Lia.
From stdpp Require Import base option list gmap numbers strings.

Local Open Scope Z_scope.

(** ** [core/config.py] *)

Record config := {
  CH_MAX_RETRIES : Z;
  CH_RETRY_BASE_DELAY : Qc;
  CH_RETRY_BACKOFF : Qc;
}.

Definition default_config : config :=
  {| CH_MAX_RETRIES := 3;
     CH_RETRY_BASE_DELAY := 1%Qc;
     CH_RETRY_BACKOFF := 2%Qc |}.

(** ** Data model *)

Abbreviation thread := nat (only parsing).
Abbreviation conn := nat (only parsing).
Abbreviation client := nat (only parsing).
Abbreviation cursor := nat (only parsing).

(** The values a fetch function may hand back: [None] or a tuple of strings. *)
Inductive pyval :=
  | PyNone
  | PyTuple (items : list string).

(** Python truthiness: [None] and the empty tuple are falsy. *)
Definition truthy (v : pyval) : bool :=
  match v with
  | PyNone => false
  | PyTuple [] => false
  | PyTuple (_ :: _) => true
  end.

Inductive backend := Clickhouse | Sqlite.

(** The first component of what [get_connection] returns. *)
Inductive connection :=
  | NoneObj
  | ClientObj (c : client)
  | ConnObj (c : conn).

Inductive exn :=
  | BackendUnavailable          (* Exception("SQLite 数据库文件不存在: ...") *)
  | FetchError (tag : nat)      (* whatever the fetch function raised *)
  | BodyError (tag : nat)       (* whatever the body of a [with] block raised *)
  | ProgrammingError.           (* sqlite3.ProgrammingError: closed connection *)

Inductive result (A : Type) :=
  | Ok (a : A)
  | Raise (e : exn).
Arguments Ok {A} a.
Arguments Raise {A} e.

(** How the body of a [with] block is left. *)
Inductive body_exit :=
  | BodyCompletes
  | BodyReturnsEarly
  | BodyRaises (tag : nat).

Inductive event :=
  | EvGetClient (attempt : Z)     (* clickhouse_connect.get_client(...) *)
  | EvQuery (c : client)          (* client.query("SELECT 1") *)
  | EvSleep (d : Qc)              (* time.sleep(d) *)
  | EvLockAcquire                 (* with self._ch_lock: entered by thread *)
  | EvLockRelease
  | EvSqliteConnect (c : conn)    (* sqlite3.connect(SQLITE_DB) and the PRAGMAs *)
  | EvSqliteClose (c : conn) (raised : bool)
  | EvClientClose (c : client)
  | EvClientDisconnect (c : client)
  | EvCursorOpen (c : conn) (k : cursor)
  | EvBody (k : cursor) (x : body_exit)
  | EvCursorClose (k : cursor)
  | EvFetch (db : connection) (is_sqlite : bool).   (* fetch_impl_func(db, is_sqlite) *)

(** The fields set by [DatabaseManager.__init__]. *)
Record DatabaseManager := {
  _initialized : bool;
  _thread_local : gmap nat nat;        (* thread |-> its [sqlite_conn] *)
  _sqlite_conns : list conn;
  _ch_client : option client;
  _ch_available : option bool;         (* None, True, False *)
  _backend_type : option backend;
  _date_range_cache : pyval;
  _date_range_ts : Qc;
  _date_range_ttl : Qc;
}.

Definition set_thread_local (f : gmap nat nat -> gmap nat nat) (m : DatabaseManager) :=
  {| _initialized := _initialized m; _thread_local := f (_thread_local m);
     _sqlite_conns := _sqlite_conns m; _ch_client := _ch_client m;
     _ch_available := _ch_available m; _backend_type := _backend_type m;
     _date_range_cache := _date_range_cache m; _date_range_ts := _date_range_ts m;
     _date_range_ttl := _date_range_ttl m |}.

Definition set_sqlite_conns (l : list conn) (m : DatabaseManager) :=
  {| _initialized := _initialized m; _thread_local := _thread_local m;
     _sqlite_conns := l; _ch_client := _ch_client m;
     _ch_available := _ch_available m; _backend_type := _backend_type m;
     _date_range_cache := _date_range_cache m; _date_range_ts := _date_range_ts m;
     _date_range_ttl := _date_range_ttl m |}.

Definition set_ch_client (c : option client) (m : DatabaseManager) :=
  {| _initialized := _initialized m; _thread_local := _thread_local m;
     _sqlite_conns := _sqlite_conns m; _ch_client := c;
     _ch_available := _ch_available m; _backend_type := _backend_type m;
     _date_range_cache := _date_range_cache m; _date_range_ts := _date_range_ts m;
     _date_range_ttl := _date_range_ttl m |}.

Definition set_ch_available (a : option bool) (m : DatabaseManager) :=
  {| _initialized := _initialized m; _thread_local := _thread_local m;
     _sqlite_conns := _sqlite_conns m; _ch_client := _ch_client m;
     _ch_available := a; _backend_type := _backend_type m;
     _date_range_cache := _date_range_cache m; _date_range_ts := _date_range_ts m;
     _date_range_ttl := _date_range_ttl m |}.

Definition set_backend_type (b : option backend) (m : DatabaseManager) :=
  {| _initialized := _initialized m; _thread_local := _thread_local m;
     _sqlite_conns := _sqlite_conns m; _ch_client := _ch_client m;
     _ch_available := _ch_available m; _backend_type := b;
     _date_range_cache := _date_range_cache m; _date_range_ts := _date_range_ts m;
     _date_range_ttl := _date_range_ttl m |}.

Definition set_date_range (v : pyval) (ts : Qc) (m : DatabaseManager) :=
  {| _initialized := _initialized m; _thread_local := _thread_local m;
     _sqlite_conns := _sqlite_conns m; _ch_client := _ch_client m;
     _ch_available := _ch_available m; _backend_type := _backend_type m;
     _date_range_cache := v; _date_range_ts := ts;
     _date_range_ttl := _date_range_ttl m |}.

Definition set_initialized (b : bool) (m : DatabaseManager) :=
  {| _initialized := b; _thread_local := _thread_local m;
     _sqlite_conns := _sqlite_conns m; _ch_client := _ch_client m;
     _ch_available := _ch_available m; _backend_type := _backend_type m;
     _date_range_cache := _date_range_cache m; _date_range_ts := _date_range_ts m;
     _date_range_ttl := _date_range_ttl m |}.

(** The manager as [__init__] leaves it (lines 56-69). *)
Definition fresh_manager : DatabaseManager :=
  {| _initialized := true; _thread_local := ∅; _sqlite_conns := [];
     _ch_client := None; _ch_available := None; _backend_type := None;
     _date_range_cache := PyNone; _date_range_ts := 0%Qc;
     _date_range_ttl := Q2Qc 60 |}.

(** [__init__]: a no-op on an initialised instance. *)
Definition __init__ (m : DatabaseManager) : DatabaseManager :=
  if _initialized m then m else fresh_manager.

(** The manager together with the outside world it acts on. *)
Record state := {
  self : DatabaseManager;
  next_obj : nat;            (* identity of the next object to be created *)
  trace : list event;        (* oldest event first *)
}.

Definition init_state : state :=
  {| self := fresh_manager; next_obj := 0%nat; trace := [] |}.

Definition update (f : DatabaseManager -> DatabaseManager) (s : state) : state :=
  {| self := f (self s); next_obj := next_obj s; trace := trace s |}.

Definition emit (e : event) (s : state) : state :=
  {| self := self s; next_obj := next_obj s; trace := trace s ++ [e] |}.

(** Object creation: the new identity and the state after it. *)
Definition alloc (s : state) : nat * state :=
  (next_obj s, {| self := self s; next_obj := S (next_obj s); trace := trace s |}).

(** ** [_try_clickhouse_with_retry] (lines 84-114) *)

(** What one pass through the [try] block meets. *)
Inductive attempt_outcome :=
  | GetClientRaises      (* the import or get_client(...) raised *)
  | QueryRaises          (* the client was built, its "SELECT 1" raised *)
  | Responds.            (* both calls went through *)

(** Python's [range(lo, hi)]. *)
Definition py_range (lo hi : Z) : list Z :=
  map (λ i : nat, lo + Z.of_nat i) (seq 0 (Z.to_nat (hi - lo))).

(** The [except] branch (lines 104-110): sleep and scale the delay unless this
    was the last attempt. *)
Definition on_failure (cfg : config) (attempt : Z) (delay : Qc) (s : state)
  : Qc * state :=
  if bool_decide (attempt < CH_MAX_RETRIES cfg)
  then ((delay * CH_RETRY_BACKOFF cfg)%Qc, emit (EvSleep delay) s)
  else (delay, s).

(** One iteration of the [for] loop. [inl s'] is [return True] in state [s'];
    [inr (delay', s')] goes on to the next iteration. *)
Definition retry_body (cfg : config) (o : attempt_outcome) (attempt : Z)
    (delay : Qc) (s : state) : state + Qc * state :=
  let s := emit (EvGetClient attempt) s in
  match o with
  | GetClientRaises => inr (on_failure cfg attempt delay s)
  | QueryRaises =>
      let '(c, s) := alloc s in
      let s := emit (EvQuery c) s in
      inr (on_failure cfg attempt delay s)
  | Responds =>
      let '(c, s) := alloc s in
      let s := emit (EvQuery c) s in
      let s := update (set_ch_client (Some c)) s in
      let s := update (set_ch_available (Some true)) s in
      let s := update (set_backend_type (Some Clickhouse)) s in
      inl s
  end.

Fixpoint retry_loop (cfg : config) (probe : Z -> attempt_outcome)
    (attempts : list Z) (delay : Qc) (s : state) : bool * state :=
  match attempts with
  | [] => (false, update (set_ch_available (Some false)) s)
  | attempt :: rest =>
      match retry_body cfg (probe attempt) attempt delay s with
      | inl s' => (true, s')
      | inr (delay', s') => retry_loop cfg probe rest delay' s'
      end
  end.

Definition _try_clickhouse_with_retry (cfg : config)
    (probe : Z -> attempt_outcome) (s : state) : bool * state :=
  retry_loop cfg probe (py_range 1 (CH_MAX_RETRIES cfg + 1))
    (CH_RETRY_BASE_DELAY cfg) s.

(** *** Reading a trace *)

(** The backoff schedule a trace shows: attempts ([inl]) and sleeps ([inr]),
    in order. *)
Definition backoff_view (e : event) : option (Z + Qc) :=
  match e with
  | EvGetClient k => Some (inl k)
  | EvSleep d => Some (inr d)
  | _ => None
  end.

Definition schedule (l : list event) : list (Z + Qc) := omap backoff_view l.

Definition attempts_of (l : list event) : list Z :=
  omap (λ e, match e with EvGetClient k => Some k | _ => None end) l.

Definition sleeps_of (l : list event) : list Qc :=
  omap (λ e, match e with EvSleep d => Some d | _ => None end) l.

Definition total (l : list Qc) : Qc := foldr Qcplus 0%Qc l.

(** The delay the backoff policy prescribes after attempt [k] (1-indexed). *)
Definition backoff_delay (cfg : config) (k : Z) : Qc :=
  (CH_RETRY_BASE_DELAY cfg * CH_RETRY_BACKOFF cfg ^ Z.to_nat (k - 1))%Qc.

(** The schedule of a run in which nothing answers: every attempt, each one
    but the last followed by its delay. *)
Definition exhausted_schedule (cfg : config) : list (Z + Qc) :=
  flat_map
    (λ k, inl k ::
          if bool_decide (k < CH_MAX_RETRIES cfg) then [inr (backoff_delay cfg k)] else [])
    (py_range 1 (CH_MAX_RETRIES cfg + 1)).

(** Attempt [1 + i], followed by the delay [d i] unless it is attempt [M]. *)
Definition slot (M : Z) (d : nat → Qc) (i : nat) : list (Z + Qc) :=
  inl (1 + Z.of_nat i) :: if bool_decide (1 + Z.of_nat i < M) then [inr (d i)] else [].

(** ** [_get_sqlite_conn] (lines 116-141) *)

(** [db_exists] is what [os.path.exists(SQLITE_DB)] answers. *)
Definition _get_sqlite_conn (db_exists : bool) (t : thread) (s : state)
  : result conn * state :=
  match _thread_local (self s) !! t with
  | Some c => (Ok c, s)
  | None =>
      if negb db_exists then (Raise BackendUnavailable, s)
      else
        let '(c, s) := alloc s in
        let s := emit (EvSqliteConnect c) s in
        let s := update (set_thread_local (insert t c)) s in
        let s := update (λ m, set_sqlite_conns (_sqlite_conns m ++ [c]) m) s in
        let s := match _backend_type (self s) with
                 | Some Sqlite => s
                 | _ => update (set_backend_type (Some Sqlite)) s
                 end in
        (Ok c, s)
  end.

(** ** [get_connection] (lines 143-170) *)

(** What the outside world answers during one call. *)
Record env := {
  heartbeat : bool;                 (* does the cached client answer "SELECT 1" *)
  probe : Z → attempt_outcome;      (* what reconnect attempt k meets *)
  db_exists : bool;                 (* os.path.exists(SQLITE_DB) *)
}.

(** [self._ch_client] as a returned object. *)
Definition obj_of (c : option client) : connection :=
  match c with
  | Some c => ClientObj c
  | None => NoneObj
  end.

(** Lines 149-160. [inl] is the [return] of line 153, [inr] falls through to
    line 163. *)
Definition check_cached (e : env) (s : state) : (connection * bool) * state + state :=
  match _ch_available (self s), _ch_client (self s) with
  | Some true, Some c =>
      let s := emit (EvQuery c) s in
      if heartbeat e then inl ((obj_of (_ch_client (self s)), false), s)
      else
        let s := emit EvLockAcquire s in
        let s := match _ch_available (self s) with
                 | Some true =>
                     let s := update (set_ch_client None) s in
                     update (set_ch_available None) s
                 | _ => s
                 end in
        inr (emit EvLockRelease s)
  | _, _ => inr s
  end.

(** Lines 163-167. [inl] is the [return] of line 167, [inr] falls through to
    line 170. *)
Definition reconnect (cfg : config) (e : env) (s : state)
  : (connection * bool) * state + state :=
  match _ch_available (self s) with
  | None =>
      let s := emit EvLockAcquire s in
      match _ch_available (self s) with
      | None =>
          let '(ok, s) := _try_clickhouse_with_retry cfg (probe e) s in
          if ok then inl ((obj_of (_ch_client (self s)), false), emit EvLockRelease s)
          else inr (emit EvLockRelease s)
      | Some _ => inr (emit EvLockRelease s)
      end
  | Some _ => inr s
  end.

Definition get_connection (cfg : config) (e : env) (t : thread) (s : state)
  : result (connection * bool) * state :=
  match check_cached e s with
  | inl (r, s) => (Ok r, s)
  | inr s =>
      match reconnect cfg e s with
      | inl (r, s) => (Ok r, s)
      | inr s =>
          match _get_sqlite_conn (db_exists e) t s with
          | (Ok c, s) => (Ok (ConnObj c, true), s)
          | (Raise x, s) => (Raise x, s)
          end
      end
  end.

(** The state line 160 leaves behind after a failed heartbeat on client [c]. *)
Definition invalidated (c : nat) (s : state) : state :=
  emit EvLockRelease
    (update (set_ch_available None)
       (update (set_ch_client None) (emit EvLockAcquire (emit (EvQuery c) s)))).

(** ** [get_sqlite_cursor] (lines 172-183) *)

(** Whether connection [c] is closed, as the trace tells: it is open from
    [sqlite3.connect] on and closed from a [close()] that did not raise on; a
    [close()] that raised (the thread check of [sqlite3], when another thread
    than the owner calls it) leaves it open. *)
Definition conn_closed (c : conn) (l : list event) : bool :=
  foldl (λ closed e,
           match e with
           | EvSqliteConnect c' => if bool_decide (c' = c) then false else closed
           | EvSqliteClose c' false => if bool_decide (c' = c) then true else closed
           | _ => closed
           end) false l.

(** The context manager together with the [with] block it guards: [body] is
    what the block does with the cursor it is given. [conn.cursor()] stands
    before the [try]: on a closed connection it raises, no cursor exists and
    the body does not run. *)
Definition get_sqlite_cursor (db_exists : bool) (t : thread)
    (body : cursor → body_exit) (s : state) : result body_exit * state :=
  match _get_sqlite_conn db_exists t s with
  | (Raise x, s) => (Raise x, s)
  | (Ok c, s) =>
      if conn_closed c (trace s) then (Raise ProgrammingError, s) else
      let '(k, s) := alloc s in
      let s := emit (EvCursorOpen c k) s in
      let x := body k in
      let s := emit (EvBody k x) s in
      let s := emit (EvCursorClose k) s in
      match x with
      | BodyRaises tag => (Raise (BodyError tag), s)
      | _ => (Ok x, s)
      end
  end.

(** ** [close_all] (lines 185-207) *)

(** Which of [close] and [disconnect] the client object has. *)
Inductive client_api := HasClose | HasDisconnect | HasNeither.

(** [close_raises c] tells whether [c.close()] raises; it is swallowed either
    way. *)
Definition close_all (close_raises : conn → bool) (api : client_api) (s : state) : state :=
  let s := foldl (λ s c, emit (EvSqliteClose c (close_raises c)) s) s
             (_sqlite_conns (self s)) in
  let s := update (set_sqlite_conns []) s in
  let s := match _ch_client (self s) with
           | Some c =>
               let s := match api with
                        | HasClose => emit (EvClientClose c) s
                        | HasDisconnect => emit (EvClientDisconnect c) s
                        | HasNeither => s
                        end in
               update (set_ch_client None) s
           | None => s
           end in
  let s := update (set_ch_available None) s in
  update (set_initialized false) s.

(** What [close_all] calls on a cached client (lines 198-201). *)
Definition client_shutdown (api : client_api) (c : option client) : list event :=
  match c, api with
  | Some c, HasClose => [EvClientClose c]
  | Some c, HasDisconnect => [EvClientDisconnect c]
  | _, _ => []
  end.

(** [DatabaseManager()] on the existing singleton: [__new__] hands back the
    instance and [__init__] runs on it. *)
Definition construct (s : state) : state := update __init__ s.

(** ** [get_date_range_cached] (lines 71-82) *)

Inductive fetch_outcome :=
  | Returns (v : pyval)
  | Raises (tag : nat).

(** [now] is what [time.time()] answers. *)
Definition get_date_range_cached (fetch_impl_func : connection → bool → fetch_outcome)
    (db : connection) (is_sqlite : bool) (now : Qc) (s : state) : result pyval * state :=
  if truthy (_date_range_cache (self s))
     && bool_decide (now - _date_range_ts (self s) < _date_range_ttl (self s))%Qc
  then (Ok (_date_range_cache (self s)), s)
  else
    let s := emit (EvFetch db is_sqlite) s in
    match fetch_impl_func db is_sqlite with
    | Raises tag => (Raise (FetchError tag), s)
    | Returns result =>
        let s := update (set_date_range result now) s in
        (Ok result, s)
    end.

(** How often the fetch function was invoked. *)
Definition fetches (l : list event) : nat :=
  length (omap (λ e, match e with EvFetch _ _ => Some e | _ => None end) l).

(** What the fetch function hands to the caller when it is invoked. *)
Definition fetched (o : fetch_outcome) : result pyval :=
  match o with
  | Returns v => Ok v
  | Raises tag => Raise (FetchError tag)
  end.

(** A call of [get_date_range_cached]: the fetch function, its two
    arguments and the time of the call. *)
Definition date_call : Type := (connection → bool → fetch_outcome) * connection * bool * Qc.

Fixpoint date_range_calls (calls : list date_call) (s : state) : state :=
  match calls with
  | [] => s
  | (f, db, sq, now) :: rest =>
      date_range_calls rest (snd (get_date_range_cached f db sq now s))
  end.

(** The fetch function of the call does not return a truthy value. *)
Definition fetch_falsy (c : date_call) : Prop :=
  let '(f, db, sq, _) := c in ∀ v, f db sq = Returns v → truthy v = false.

(** The cache-hit test of line 77. *)
Definition cache_valid (now : Qc) (s : state) : bool :=
  truthy (_date_range_cache (self s))
  && bool_decide (now - _date_range_ts (self s) < _date_range_ttl (self s))%Qc.

(** ** Sequences of calls *)

(** One call into the singleton, with what the outside world answers during
    it. These are the calls made between one construction of the manager and
    the next; each runs to its end before the next one starts (the concurrent
    model further down interleaves the statements of [get_connection]). *)
Inductive call :=
  | GetConnection (e : env)
  | GetSqliteConn (db_exists : bool)
  | GetSqliteCursor (db_exists : bool) (body : cursor → body_exit)
  | GetDateRange (fetch_impl_func : connection → bool → fetch_outcome)
      (db : connection) (is_sqlite : bool) (now : Qc)
  | CloseAll (close_raises : conn → bool) (api : client_api).

Definition is_close_all (c : call) : bool :=
  match c with
  | CloseAll _ _ => true
  | _ => false
  end.

(** The SQLite connection a call hands to (or, for a cursor, uses on behalf
    of) the calling thread, if any, and the state after the call. *)
Definition run_call (cfg : config) (t : thread) (c : call) (s : state)
  : option conn * state :=
  match c with
  | GetConnection e =>
      match get_connection cfg e t s with
      | (Ok (ConnObj k, _), s) => (Some k, s)
      | (_, s) => (None, s)
      end
  | GetSqliteConn b =>
      match _get_sqlite_conn b t s with
      | (Ok k, s) => (Some k, s)
      | (Raise _, s) => (None, s)
      end
  | GetSqliteCursor b body =>
      match _get_sqlite_conn b t s with
      | (Ok k, _) => (Some k, snd (get_sqlite_cursor b t body s))
      | (Raise _, _) => (None, snd (get_sqlite_cursor b t body s))
      end
  | GetDateRange f db sq now => (None, snd (get_date_range_cached f db sq now s))
  | CloseAll cr api => (None, close_all cr api s)
  end.

(** Runs the calls in order, each on behalf of the thread it is paired with;
    collects who was handed which SQLite connection. *)
Fixpoint run (cfg : config) (calls : list (thread * call)) (s : state)
  : list (thread * conn) * state :=
  match calls with
  | [] => ([], s)
  | (t, c) :: rest =>
      let '(g, s) := run_call cfg t c s in
      let '(gs, s) := run cfg rest s in
      (match g with Some k => (t, k) :: gs | None => gs end, s)
  end.

(** ** What a step touches *)

(** Events of the primary backend gate: the reconnect lock and anything sent
    to ClickHouse. *)
Definition gate_event (e : event) : bool :=
  match e with
  | EvGetClient _ | EvQuery _ | EvSleep _ | EvLockAcquire | EvLockRelease => true
  | _ => false
  end.

Definition closed_conns (l : list event) : list conn :=
  omap (λ e, match e with EvSqliteClose c _ => Some c | _ => None end) l.

(** Object identities in use were handed out by the allocator. *)
Record wf (s : state) : Prop := {
  wf_client : ∀ c, _ch_client (self s) = Some c → (c < next_obj s)%nat;
  wf_slots : ∀ t c, _thread_local (self s) !! t = Some c → (c < next_obj s)%nat;
  wf_slots_inj : ∀ t1 t2 c,
    _thread_local (self s) !! t1 = Some c →
    _thread_local (self s) !! t2 = Some c → t1 = t2;
}.

(** A step that only involves the primary backend gate: the fallback pool
    and the cache are as before, the trace grew by gate events, and a client
    cached afterwards is the old one or a newly created one. *)
Record gate_only (s s' : state) : Prop := {
  go_slots : _thread_local (self s') = _thread_local (self s);
  go_conns : _sqlite_conns (self s') = _sqlite_conns (self s);
  go_next : (next_obj s ≤ next_obj s')%nat;
  go_trace : ∃ evs, trace s' = trace s ++ evs ∧ Forall (λ e, gate_event e = true) evs;
  go_client : ∀ c, _ch_client (self s') = Some c →
    _ch_client (self s) = Some c ∨ (next_obj s ≤ c < next_obj s')%nat;
}.

(** A step that stays away from the primary backend gate: availability and
    the cached client are as before and the trace grew by events that are not
    gate events. *)
Record quiet (s s' : state) : Prop := {
  q_available : _ch_available (self s') = _ch_available (self s);
  q_client : _ch_client (self s') = _ch_client (self s);
  q_trace : ∃ evs, trace s' = trace s ++ evs ∧ Forall (λ e, gate_event e = false) evs;
}.

(** A slot of the fallback pool, once filled, keeps its connection. *)
Definition slots_kept (s s' : state) : Prop :=
  ∀ t c, _thread_local (self s) !! t = Some c → _thread_local (self s') !! t = Some c.

(** Every connection handed out sits in the slot of the thread it was handed
    to. *)
Definition granted_in_slots (gs : list (nat * nat)) (s : state) : Prop :=
  ∀ t c, (t, c) ∈ gs → _thread_local (self s) !! t = Some c.

(** ** [get_connection] under concurrent callers

    Threads run [get_connection] statement by statement; a step of one
    thread is atomic, and any thread that is not waiting for the lock may
    take the next step. One iteration of the retry loop (attempt, writes on
    success, sleep) counts as one step, and so does [_get_sqlite_conn], which
    only touches the caller's own slot and the tracked list under its own
    lock. *)

(** Where a thread is inside [get_connection]; the numbers are line numbers
    of [db/manager.py]. *)
Inductive pc :=
  | L149                                   (* if self._ch_available is True and ... *)
  | L152                                   (* self._ch_client.query("SELECT 1") *)
  | L153                                   (* return self._ch_client, False *)
  | L156                                   (* with self._ch_lock: *)
  | L158                                   (* if self._ch_available is True: *)
  | L159                                   (* self._ch_client = None *)
  | L160                                   (* self._ch_available = None *)
  | L160_exit                              (* leaving the with block of line 156 *)
  | L163                                   (* if self._ch_available is None: *)
  | L164                                   (* with self._ch_lock: *)
  | L165                                   (* if self._ch_available is None: *)
  | L90 (attempts : list Z) (delay : Qc)   (* for attempt in ...: inside the retry routine *)
  | L167                                   (* return self._ch_client, False *)
  | L167_exit                              (* leaving the with block of line 164 *)
  | L170                                   (* return self._get_sqlite_conn(), True *)
  | Returned (r : result (connection * bool)).

Record system := {
  shared : state;               (* the singleton and the outside world *)
  ch_lock : option nat;         (* the thread inside [with self._ch_lock], if any *)
  pcs : list pc;                (* thread [t] is at [pcs !! t] *)
  reconnects : list nat;        (* ghost: the threads that entered the retry routine *)
}.

Definition goto (t : nat) (p : pc) (y : system) : system :=
  {| shared := shared y; ch_lock := ch_lock y; pcs := <[t := p]> (pcs y);
     reconnects := reconnects y |}.

Definition with_shared (f : state → state) (y : system) : system :=
  {| shared := f (shared y); ch_lock := ch_lock y; pcs := pcs y;
     reconnects := reconnects y |}.

Definition acquire (t : nat) (y : system) : system :=
  {| shared := emit EvLockAcquire (shared y); ch_lock := Some t; pcs := pcs y;
     reconnects := reconnects y |}.

Definition release (y : system) : system :=
  {| shared := emit EvLockRelease (shared y); ch_lock := None; pcs := pcs y;
     reconnects := reconnects y |}.

Definition note_reconnect (t : nat) (y : system) : system :=
  {| shared := shared y; ch_lock := ch_lock y; pcs := pcs y;
     reconnects := reconnects y ++ [t] |}.

(** The next step of thread [t]; [None] when [t] has returned, does not
    exist, or waits for the lock. *)
Definition thread_step (cfg : config) (e : env) (t : nat) (y : system) : option system :=
  match pcs y !! t with
  | None => None
  | Some p =>
      let s := shared y in
      match p with
      | L149 =>
          match _ch_available (self s), _ch_client (self s) with
          | Some true, Some _ => Some (goto t L152 y)
          | _, _ => Some (goto t L163 y)
          end
      | L152 =>
          match _ch_client (self s) with
          | Some c =>
              Some (goto t (if heartbeat e then L153 else L156)
                      (with_shared (emit (EvQuery c)) y))
          | None => Some (goto t L156 y)        (* AttributeError, caught *)
          end
      | L153 => Some (goto t (Returned (Ok (obj_of (_ch_client (self s)), false))) y)
      | L156 =>
          match ch_lock y with
          | None => Some (goto t L158 (acquire t y))
          | Some _ => None
          end
      | L158 =>
          match _ch_available (self s) with
          | Some true => Some (goto t L159 y)
          | _ => Some (goto t L160_exit y)
          end
      | L159 => Some (goto t L160 (with_shared (update (set_ch_client None)) y))
      | L160 => Some (goto t L160_exit (with_shared (update (set_ch_available None)) y))
      | L160_exit => Some (goto t L163 (release y))
      | L163 =>
          match _ch_available (self s) with
          | None => Some (goto t L164 y)
          | Some _ => Some (goto t L170 y)
          end
      | L164 =>
          match ch_lock y with
          | None => Some (goto t L165 (acquire t y))
          | Some _ => None
          end
      | L165 =>
          match _ch_available (self s) with
          | None =>
              Some (goto t (L90 (py_range 1 (CH_MAX_RETRIES cfg + 1)) (CH_RETRY_BASE_DELAY cfg))
                      (note_reconnect t y))
          | Some _ => Some (goto t L167_exit y)
          end
      | L90 [] _ =>
          Some (goto t L167_exit (with_shared (update (set_ch_available (Some false))) y))
      | L90 (attempt :: rest) delay =>
          match retry_body cfg (probe e attempt) attempt delay s with
          | inl s' => Some (goto t L167 (with_shared (λ _, s') y))
          | inr (delay', s') => Some (goto t (L90 rest delay') (with_shared (λ _, s') y))
          end
      | L167 =>
          Some (goto t (Returned (Ok (obj_of (_ch_client (self s)), false))) (release y))
      | L167_exit => Some (goto t L170 (release y))
      | L170 =>
          match _get_sqlite_conn (db_exists e) t s with
          | (Ok c, s') => Some (goto t (Returned (Ok (ConnObj c, true))) (with_shared (λ _, s') y))
          | (Raise x, s') => Some (goto t (Returned (Raise x)) (with_shared (λ _, s') y))
          end
      | Returned _ => None
      end
  end.

(** Runs the steps of a schedule; [None] if some step is not possible. *)
Fixpoint run_schedule (cfg : config) (sched : list (nat * env)) (y : system)
  : option system :=
  match sched with
  | [] => Some y
  | (t, e) :: rest =>
      match thread_step cfg e t y with
      | Some y' => run_schedule cfg rest y'
      | None => None
      end
  end.

Inductive reachable (cfg : config) (y0 : system) : system → Prop :=
  | reachable_refl : reachable cfg y0 y0
  | reachable_step y t e y' :
      reachable cfg y0 y → thread_step cfg e t y = Some y' → reachable cfg y0 y'.

(** [n] callers that found the availability unknown at line 149 and are
    about to run line 163. *)
Definition arrivals (n : nat) (s : state) : system :=
  {| shared := s; ch_lock := None; pcs := replicate n L163; reconnects := [] |}.

(** A single caller about to enter [get_connection]. *)
Definition solo (s : state) : system :=
  {| shared := s; ch_lock := None; pcs := [L149]; reconnects := [] |}.

(** The thread can take no step, whatever the outside world answers. *)
Definition stuck (cfg : config) (t : nat) (y : system) : Prop :=
  ∀ e, thread_step cfg e t y = None.

Definition holds_lock (p : pc) : bool :=
  match p with
  | L158 | L159 | L160 | L160_exit | L165 | L90 _ _ | L167 | L167_exit => true
  | _ => false
  end.

(** What holds of thread [t] at [p], given the lock holder, the manager and
    the threads that reconnected, when every thread started at line 163. *)
Definition thread_inv (lk : option nat) (m : DatabaseManager) (recs : list nat)
    (t : nat) (p : pc) : Prop :=
  match p with
  | L163 | L164 => lk ≠ Some t
  | L165 => lk = Some t
  | L90 _ _ => lk = Some t ∧ recs = [t] ∧ _ch_available m = None
  | L167 => lk = Some t ∧ recs = [t] ∧ ∃ c, _ch_client m = Some c
  | L167_exit => lk = Some t ∧ recs ≠ []
  | L170 => lk ≠ Some t ∧ recs ≠ []
  | Returned r =>
      lk ≠ Some t ∧ recs ≠ [] ∧
      ((∃ c, r = Ok (ConnObj c, true)) ∨ r = Raise BackendUnavailable ∨
       (recs = [t] ∧ ∃ c, r = Ok (ClientObj c, false)))
  | _ => False
  end.

Record inv (y : system) : Prop := {
  inv_threads : ∀ t p, pcs y !! t = Some p →
    thread_inv (ch_lock y) (self (shared y)) (reconnects y) t p;
  inv_fresh : reconnects y = [] → _ch_available (self (shared y)) = None;
  inv_inflight : _ch_available (self (shared y)) = None →
    ∀ t, t ∈ reconnects y → ∃ a d, pcs y !! t = Some (L90 a d);
  inv_once : (length (reconnects y) ≤ 1)%nat;
  inv_holder : ∀ t, ch_lock y = Some t → ∃ p, pcs y !! t = Some p ∧ holds_lock p = true;
}.

(** *** How far a caller is from its result *)

(** The attempts the retry routine makes at most. *)
Definition max_attempts (cfg : config) : nat :=
  length (py_range 1 (CH_MAX_RETRIES cfg + 1)).

(** A bound on the steps a thread at [p] still takes, the retry routine
    making at most [m] attempts. *)
Definition steps_left (m : nat) (p : pc) : nat :=
  match p with
  | Returned _ => 0
  | L153 | L167 | L170 => 1
  | L167_exit => 2
  | L90 attempts _ => 3 + length attempts
  | L165 => 4 + m
  | L164 => 5 + m
  | L163 => 6 + m
  | L160_exit => 7 + m
  | L160 => 8 + m
  | L159 => 9 + m
  | L158 => 10 + m
  | L156 => 11 + m
  | L152 => 12 + m
  | L149 => 13 + m
  end.

Definition total_steps_left (cfg : config) (y : system) : nat :=
  sum_list_with (steps_left (max_attempts cfg)) (pcs y).

Definition returned (p : pc) : bool :=
  match p with
  | Returned _ => true
  | _ => false
  end.

(** * The callers of the manager *)

(** ** [main.py]: start-up and shutdown (lines 47-69) *)

(** [startup_event]: everything sits in a [try] whose handler swallows any
    exception. [body] is what the index statements and the commit do inside
    the [with] block; [db_exists'] is what [os.path.exists] answers at the
    second call into the pool. *)
Definition startup_event (cfg : config) (e : env) (db_exists' : bool) (t : thread)
    (body : cursor → body_exit) (s : state) : result unit * state :=
  match get_connection cfg e t s with
  | (Raise _, s) => (Ok (), s)
  | (Ok (_, is_sqlite), s) =>
      if is_sqlite
      then
        match get_sqlite_cursor db_exists' t body s with
        | (Raise _, s) => (Ok (), s)
        | (Ok _, s) => (Ok (), s)
        end
      else (Ok (), s)
  end.


(** *** Reading the pool off a trace *)

Definition opened_conns (l : list event) : list conn :=
  omap (λ e, match e with EvSqliteConnect c => Some c | _ => None end) l.

Definition opened_cursors (l : list event) : list cursor :=
  omap (λ e, match e with EvCursorOpen _ k => Some k | _ => None end) l.

Definition closed_cursors (l : list event) : list cursor :=
  omap (λ e, match e with EvCursorClose k => Some k | _ => None end) l.

(** What one call other than [close_all], made by thread [t], does to the
    fallback pool: nothing, or it opens one connection, which goes into the
    thread's empty slot and onto the tracked list. Nothing is closed, and
    [_initialized] stays as it is. *)
Inductive pool_effect (t : nat) (s s' : state) : Prop :=
  | pool_untouched :
      _thread_local (self s') = _thread_local (self s) →
      _sqlite_conns (self s') = _sqlite_conns (self s) →
      opened_conns (trace s') = opened_conns (trace s) →
      closed_conns (trace s') = closed_conns (trace s) →
      (next_obj s ≤ next_obj s')%nat →
      _initialized (self s') = _initialized (self s) →
      pool_effect t s s'
  | pool_opened (c : nat) :
      (next_obj s ≤ c < next_obj s')%nat →
      _thread_local (self s) !! t = None →
      _thread_local (self s') = <[t := c]> (_thread_local (self s)) →
      _sqlite_conns (self s') = _sqlite_conns (self s) ++ [c] →
      opened_conns (trace s') = opened_conns (trace s) ++ [c] →
      closed_conns (trace s') = closed_conns (trace s) →
      _initialized (self s') = _initialized (self s) →
      pool_effect t s s'.

(** The books of the fallback pool: every connection ever opened is a
    distinct object made by the allocator and is either closed or still on
    the tracked list, never both, and the slots hold opened connections. *)
Record pool_inv (s : state) : Prop := {
  pi_fresh : ∀ c, c ∈ opened_conns (trace s) → (c < next_obj s)%nat;
  pi_nodup : NoDup (opened_conns (trace s));
  pi_books : opened_conns (trace s) ≡ₚ closed_conns (trace s) ++ _sqlite_conns (self s);
  pi_slots : ∀ t c, _thread_local (self s) !! t = Some c → c ∈ opened_conns (trace s);
}.

(** A step that leaves the fallback pool alone. *)
Record untouched (s s' : state) : Prop := {
  un_slots : _thread_local (self s') = _thread_local (self s);
  un_conns : _sqlite_conns (self s') = _sqlite_conns (self s);
  un_opened : opened_conns (trace s') = opened_conns (trace s);
  un_closed : closed_conns (trace s') = closed_conns (trace s);
  un_next : (next_obj s ≤ next_obj s')%nat;
  un_init : _initialized (self s') = _initialized (self s);
}.

(** A manager that was never shut down: it is initialised, nothing was
    closed, and every slot holds a tracked connection. *)
Record live (s : state) : Prop := {
  live_init : _initialized (self s) = true;
  live_closed : closed_conns (trace s) = [];
  live_slots : ∀ t c, _thread_local (self s) !! t = Some c → c ∈ _sqlite_conns (self s);
}.

(** ** [dao/user_dao.py]: the date range (lines 13-43) *)

(** What a query gives: its rows, or an exception of the driver. Queries
    other than the heartbeat leave no event in the trace. *)
Inductive query_result (A : Type) :=
  | Rows (a : A)
  | QueryFails (tag : nat).
Arguments Rows {A} a.
Arguments QueryFails {A} tag.

(** A value of the [date] column as ClickHouse hands it over. *)
Inductive cell :=
  | Null
  | Text (s : string)
  | Date (iso : string).     (* a [datetime.date]; [iso] is its [str()] *)

(** What the outside world answers while [fetch_date_range_impl] runs. The
    [date] column is text in SQLite, so a SQLite value is [None] or a
    string; [fetchone] gives [None] or a row of the two aggregates. *)
Record date_source := {
  today_str : string;                                         (* str(datetime.date.today()) *)
  db_file : bool;                                             (* os.path.exists(SQLITE_DB) *)
  fetchone : query_result (option (option string * option string));
  result_rows : connection → query_result (list (cell * cell));
}.

(** [v if v else today_str] on a SQLite value. *)
Definition or_today (today : string) (v : option string) : string :=
  match v with
  | None => today
  | Some EmptyString => today
  | Some s => s
  end.

(** [str(v) if v else today_str] on a ClickHouse value. *)
Definition str_or_today (today : string) (v : cell) : string :=
  match v with
  | Null => today
  | Text EmptyString => today
  | Text s => s
  | Date iso => iso
  end.

(** [fetch_date_range_impl], run by thread [t]. *)
Definition fetch_date_range_impl (t : thread) (w : date_source)
    (db : connection) (is_sqlite : bool) (s : state) : result pyval * state :=
  if is_sqlite
  then
    let body := λ _ : cursor,
      match fetchone w with
      | Rows _ => BodyCompletes
      | QueryFails tag => BodyRaises tag
      end in
    match get_sqlite_cursor (db_file w) t body s with
    | (Raise x, s) => (Raise x, s)
    | (Ok _, s) =>
        match fetchone w with
        | Rows (Some (min_d, max_d)) =>
            (Ok (PyTuple [or_today (today_str w) min_d; or_today (today_str w) max_d]), s)
        | _ => (Ok (PyTuple [today_str w; today_str w]), s)
        end
    end
  else
    match result_rows w db with
    | QueryFails tag => (Raise (FetchError tag), s)
    | Rows [] => (Ok (PyTuple [today_str w; today_str w]), s)
    | Rows ((min_d, max_d) :: _) =>
        (Ok (PyTuple [str_or_today (today_str w) min_d;
                      str_or_today (today_str w) max_d]), s)
    end.

(** [get_date_range_cached] for a fetch function that itself calls into the
    manager, as [fetch_date_range_impl] does: the fetch function runs on the
    state and its exceptions pass through. *)
Definition get_date_range_cached_st
    (fetch_impl_func : connection → bool → state → result pyval * state)
    (db : connection) (is_sqlite : bool) (now : Qc) (s : state) : result pyval * state :=
  if truthy (_date_range_cache (self s))
     && bool_decide (now - _date_range_ts (self s) < _date_range_ttl (self s))%Qc
  then (Ok (_date_range_cache (self s)), s)
  else
    let s := emit (EvFetch db is_sqlite) s in
    match fetch_impl_func db is_sqlite s with
    | (Raise x, s) => (Raise x, s)
    | (Ok result, s) =>
        let s := update (set_date_range result now) s in
        (Ok result, s)
    end.

(** [fetch_date_range], called by thread [t] at time [now]. *)
Definition fetch_date_range (t : thread) (w : date_source) (now : Qc)
    (db : connection) (is_sqlite : bool) (s : state) : result pyval * state :=
  get_date_range_cached_st (fetch_date_range_impl t w) db is_sqlite now s.

(** The state [get_sqlite_cursor] leaves when it got connection [c] in state
    [s]: a new cursor was opened, the body ran, the cursor was closed. *)
Definition after_cursor (c : conn) (body : cursor → body_exit) (s : state) : state :=
  emit (EvCursorClose (next_obj s))
    (emit (EvBody (next_obj s) (body (next_obj s)))
       (emit (EvCursorOpen c (next_obj s)) (snd (alloc s)))).

(** The cursors a step opened are the cursors it closed. *)
Definition cursors_settled (s s' : state) : Prop :=
  ∃ ks, opened_cursors (trace s') = opened_cursors (trace s) ++ ks ∧
        closed_cursors (trace s') = closed_cursors (trace s) ++ ks.

(** * Access control *)

(** ** Strings and the regular expressions of [core/config.py] (lines 52-57) *)

(** A Python [str] is a sequence of code points. *)
Abbreviation str := (list N).

Definition codes (s : string) : str :=
  map Ascii.N_of_ascii (String.list_ascii_of_string s).

Definition newline : N := 10%N.
Definition space : N := 32%N.

(** [s.startswith(l)], with what follows the prefix. *)
Fixpoint strip_prefix (l s : str) : option str :=
  match l, s with
  | [], _ => Some s
  | a :: l, b :: s => if bool_decide (a = b) then strip_prefix l s else None
  | _ :: _, [] => None
  end.

Definition startswith (s l : str) : bool :=
  match strip_prefix l s with Some _ => true | None => false end.

(** The part of the syntax of Python's [re] the whitelist uses. *)
Inductive regex : Type :=
  | Bol                     (* ^ *)
  | Eol                     (* $ *)
  | Lit (l : str)           (* literal characters, an escaped [\.] included *)
  | Dot                     (* . *)
  | Cat (r1 r2 : regex)     (* r1 r2 *)
  | Opt (r : regex)         (* (r)? *)
  | Star (r : regex).       (* r* *)

(** The iterations of [r*]: after at most [n] rounds of [step], or at once,
    go on with [k]. *)
Fixpoint star_loop (step : nat → str → (nat → str → bool) → bool)
    (k : nat → str → bool) (n : nat) (i : nat) (s : str) : bool :=
  match n with
  | O => k i s
  | S n => step i s (λ j s', star_loop step k n j s') || k i s
  end.

(** Backtracking matcher: [re_at r i s k] tries [r] at position [i], where
    [s] is the rest of the subject, and hands the position and the rest after
    each way to match to [k], until [k] accepts. Without flags [$] holds at
    the end of the subject and just before a newline that ends it, and [.] is
    any character but a newline. A round of [r*] that consumes nothing adds
    nothing, so as many rounds as characters are left are enough. *)
Fixpoint re_at (r : regex) (i : nat) (s : str) (k : nat → str → bool) : bool :=
  match r with
  | Bol => bool_decide (i = 0%nat) && k i s
  | Eol => bool_decide (s = [] ∨ s = [newline]) && k i s
  | Lit l =>
      match strip_prefix l s with
      | Some s' => k (i + length l)%nat s'
      | None => false
      end
  | Dot =>
      match s with
      | c :: s' => negb (bool_decide (c = newline)) && k (S i) s'
      | [] => false
      end
  | Cat r1 r2 => re_at r1 i s (λ j s', re_at r2 j s' k)
  | Opt r => re_at r i s k || k i s
  | Star r => star_loop (re_at r) k (length s) i s
  end.

(** [pattern.match(s) is not None]: a match that starts at the beginning of
    [s] and may end anywhere. *)
Definition re_match (pattern : regex) (s : str) : bool :=
  re_at pattern 0 s (λ _ _, true).

(** The four patterns, in the order of the list: [/docs] and [/redoc], each
    with an optional group of [/] and any number of [.]; [/openapi.json] with
    its dot escaped; [/api/auth/login]. Each stands between [^] and [$]. *)
Definition JWT_WHITELIST_PATTERNS : list regex :=
  [ Cat Bol (Cat (Lit (codes "/docs")) (Cat (Opt (Cat (Lit (codes "/")) (Star Dot))) Eol));
    Cat Bol (Cat (Lit (codes "/redoc")) (Cat (Opt (Cat (Lit (codes "/")) (Star Dot))) Eol));
    Cat Bol (Cat (Lit (codes "/openapi.json")) Eol);
    Cat Bol (Cat (Lit (codes "/api/auth/login")) Eol) ].

(** ** [core/security.py]: [is_jwt_whitelisted] (lines 30-32) *)

(** A path and the same path with a newline at its end. *)
Definition up_to_newline (p q : str) : Prop := p = q ∨ p = q ++ [newline].

Definition is_jwt_whitelisted (path : str) : bool :=
  existsb (λ pattern, re_match pattern path) JWT_WHITELIST_PATTERNS.

(** ** [api/middleware.py]: [verify_jwt_token] (lines 15-49) *)

(** [s.split(sep)] for a separator of one character: the pieces between the
    separators, empty ones included. *)
Fixpoint split_on (sep : N) (s : str) : list str :=
  match s with
  | [] => [[]]
  | c :: s' =>
      if bool_decide (c = sep) then [] :: split_on sep s'
      else match split_on sep s' with
           | w :: ws => (c :: w) :: ws
           | [] => [[c]]
           end
  end.

(** What the middleware reads of a request: the method, [request.url.path]
    and the [Authorization] header. *)
Record request : Type := {
  method : str;
  url_path : str;
  authorization : option str;
}.

(** The ways [jwt.decode] ends that the middleware provides for: the payload,
    [ExpiredSignatureError], or another [InvalidTokenError]. *)
Inductive jwt_outcome (P : Type) : Type :=
  | Decoded (payload : P)
  | ExpiredSignatureError
  | InvalidTokenError.
Arguments Decoded {P} payload.
Arguments ExpiredSignatureError {P}.
Arguments InvalidTokenError {P}.

(** The three 401 bodies: token missing or malformed (line 29), expired
    (line 41), invalid (line 46). *)
Inductive rejection : Type := MissingToken | TokenExpired | TokenInvalid.

(** How the middleware ends: the request goes on to [call_next], with
    [request.state.user] set by the middleware or not; a 401 response; or the
    [IndexError] of [split(...)[1]]. *)
Inductive response (P : Type) : Type :=
  | CallNext (user : option P)
  | Unauthorized (message : rejection)
  | IndexError.
Arguments CallNext {P} user.
Arguments Unauthorized {P} message.
Arguments IndexError {P}.

Definition verify_jwt_token {P : Type} (jwt_decode : str → jwt_outcome P)
    (req : request) : response P :=
  if bool_decide (method req = codes "OPTIONS") then CallNext None
  else if is_jwt_whitelisted (url_path req) then CallNext None
  else
    match authorization req with
    | None => Unauthorized MissingToken
    | Some auth_header =>
        if bool_decide (auth_header = []) || negb (startswith auth_header (codes "Bearer "))
        then Unauthorized MissingToken
        else
          match split_on space auth_header !! 1%nat with
          | None => IndexError
          | Some token =>
              match jwt_decode token with
              | Decoded payload => CallNext (Some payload)
              | ExpiredSignatureError => Unauthorized TokenExpired
              | InvalidTokenError => Unauthorized TokenInvalid
              end
          end
    end.

(** * Theorems *)

(** ** Backoff *)

(** Closes [trace s' = trace s ++ evs] once [s'] is a chain of [emit]s. *)
Ltac trace_eq := simpl; rewrite <- ?app_assoc; simpl; reflexivity.

Lemma trace_emit e s : trace (emit e s) = trace s ++ [e].
Proof. reflexivity. Qed.

Lemma schedule_app l1 l2 : schedule (l1 ++ l2) = schedule l1 ++ schedule l2.
Proof. apply omap_app. Qed.

Lemma attempts_of_schedule l :
  attempts_of l =
  omap (λ x : Z + Qc, match x with inl k => Some k | inr _ => None end) (schedule l).
Proof.
  induction l as [|e l IH]; [done|].
  destruct e; simpl; rewrite ?IH; done.
Qed.

Lemma sleeps_of_schedule l :
  sleeps_of l =
  omap (λ x : Z + Qc, match x with inl _ => None | inr d => Some d end) (schedule l).
Proof.
  induction l as [|e l IH]; [done|].
  destruct e; simpl; rewrite ?IH; done.
Qed.

Lemma flat_map_ext_elem {A B} (f g : A → list B) (l : list A) :
  (∀ x, x ∈ l → f x = g x) → flat_map f l = flat_map g l.
Proof.
  induction l as [|x l IH]; intros H; [done|]. simpl.
  rewrite (H x) by left. rewrite IH; [done|].
  intros y Hy. apply H. by right.
Qed.

(** A failed iteration: what it adds to the trace and what it leaves alone. *)
Lemma retry_body_fails cfg o k delay s :
  o ≠ Responds →
  ∃ s' evs,
    retry_body cfg o k delay s =
      inr (if bool_decide (k < CH_MAX_RETRIES cfg)
           then (delay * CH_RETRY_BACKOFF cfg)%Qc else delay, s') ∧
    trace s' = trace s ++ evs ∧
    schedule evs =
      inl k :: (if bool_decide (k < CH_MAX_RETRIES cfg) then [inr delay] else []) ∧
    self s' = self s.
Proof.
  intros Ho. unfold retry_body, on_failure.
  destruct o; [| |done]; simpl; case_bool_decide; simpl.
  - eexists _, [_; _]. split_and!; [done | trace_eq | done | done].
  - eexists _, [_]. split_and!; done.
  - eexists _, [_; _; _]. split_and!; [done | trace_eq | done | done].
  - eexists _, [_; _]. split_and!; [done | trace_eq | done | done].
Qed.

(** The loop from attempt [1 + j] on, with [n] attempts left, none of which
    is answered. *)
Lemma retry_loop_exhausted cfg probe (n : nat) :
  (∀ k, probe k ≠ Responds) →
  ∀ (j : nat) delay s,
  ∃ s' evs,
    retry_loop cfg probe (map (λ i : nat, 1 + Z.of_nat i) (seq j n)) delay s = (false, s') ∧
    trace s' = trace s ++ evs ∧
    schedule evs =
      flat_map (slot (CH_MAX_RETRIES cfg)
                  (λ i, (delay * CH_RETRY_BACKOFF cfg ^ (i - j)%nat)%Qc)) (seq j n) ∧
    self s' = set_ch_available (Some false) (self s).
Proof.
  intros Hp. unfold slot. induction n as [|n IH]; intros j delay s.
  - exists (update (set_ch_available (Some false)) s), [].
    split_and!; try done. simpl. by rewrite app_nil_r.
  - simpl.
    destruct (retry_body_fails cfg (probe (1 + Z.of_nat j)) (1 + Z.of_nat j) delay s (Hp _))
      as (s1 & evs1 & -> & Ht1 & Hs1 & Hm1).
    destruct (IH (S j)
                (if bool_decide (1 + Z.of_nat j < CH_MAX_RETRIES cfg)
                 then (delay * CH_RETRY_BACKOFF cfg)%Qc else delay) s1)
      as (s2 & evs2 & -> & Ht2 & Hs2 & Hm2).
    exists s2, (evs1 ++ evs2). split_and!.
    + done.
    + by rewrite Ht2, Ht1, app_assoc.
    + rewrite schedule_app, Hs1, Hs2, Nat.sub_diag. simpl.
      rewrite Qcmult_1_r. f_equal. f_equal.
      apply flat_map_ext_elem. intros i Hi%elem_of_seq. f_equal.
      destruct (bool_decide_reflect (1 + Z.of_nat i < CH_MAX_RETRIES cfg)) as [Hi'|]; [|done].
      rewrite bool_decide_true by lia.
      replace (i - j)%nat with (S (i - S j)) by lia. simpl.
      by rewrite Qcmult_assoc.
    + by rewrite Hm2, Hm1.
Qed.

Lemma slots_attempts M d j m :
  omap (λ x : Z + Qc, match x with inl k => Some k | inr _ => None end)
    (flat_map (slot M d) (seq j m)) = map (λ i : nat, 1 + Z.of_nat i) (seq j m).
Proof.
  revert j. induction m as [|m IH]; intros j; [done|].
  simpl. rewrite omap_app, IH. by destruct (bool_decide _).
Qed.

Lemma slots_sleeps M d j m :
  Z.of_nat (j + m) = M →
  omap (λ x : Z + Qc, match x with inl _ => None | inr x => Some x end)
    (flat_map (slot M d) (seq j m)) = map d (seq j (m - 1)).
Proof.
  revert j. induction m as [|m IH]; intros j Hjm; [done|].
  simpl. rewrite omap_app, IH by lia.
  destruct m as [|m].
  - rewrite bool_decide_false by lia. done.
  - rewrite bool_decide_true by lia. simpl. by rewrite Nat.sub_0_r.
Qed.

Lemma slots_last M d j m :
  Z.of_nat (j + m) = M → (0 < m)%nat →
  last (flat_map (slot M d) (seq j m)) = Some (inl M).
Proof.
  revert j. induction m as [|m IH]; intros j Hjm Hm; [lia|].
  simpl. destruct m as [|m].
  - rewrite bool_decide_false by lia. simpl. f_equal. f_equal. lia.
  - rewrite bool_decide_true by lia.
    specialize (IH (S j) ltac:(lia) ltac:(lia)).
    simpl in IH |- *. exact IH.
Qed.

Lemma py_range_1 (n : Z) :
  py_range 1 (n + 1) = map (λ i : nat, 1 + Z.of_nat i) (seq 0 (Z.to_nat n)).
Proof. unfold py_range. by replace (n + 1 - 1) with n by lia. Qed.

Lemma flat_map_map {A B C} (f : B → list C) (g : A → B) (l : list A) :
  flat_map f (map g l) = flat_map (λ x, f (g x)) l.
Proof. induction l as [|x l IH]; [done|]. simpl. by rewrite IH. Qed.

Lemma exhausted_schedule_slots cfg :
  exhausted_schedule cfg =
  flat_map (slot (CH_MAX_RETRIES cfg)
              (λ i, (CH_RETRY_BASE_DELAY cfg * CH_RETRY_BACKOFF cfg ^ (i - 0)%nat)%Qc))
    (seq 0 (Z.to_nat (CH_MAX_RETRIES cfg))).
Proof.
  unfold exhausted_schedule, slot. rewrite py_range_1, flat_map_map.
  apply flat_map_ext_elem. intros i _. unfold backoff_delay.
  by replace (Z.to_nat (1 + Z.of_nat i - 1)) with (i - 0)%nat by lia.
Qed.

(** C1. For every [CH_MAX_RETRIES >= 1], when no attempt is answered the
    reconnect routine makes exactly [CH_MAX_RETRIES] attempts (numbered from
    1), sleeps [base * backoff^(k-1)] after the k-th one for every
    [k < CH_MAX_RETRIES] and not after the last, leaves [_ch_available] at
    [False] and returns [False]; with the shipped constants the sleeps are 1
    and 2, three seconds in all. *)
Theorem retry_exhausted_backoff (cfg : config) (probe : Z → attempt_outcome) (s : state) :
  1 ≤ CH_MAX_RETRIES cfg →
  (∀ k, probe k ≠ Responds) →
  ∃ s' evs,
    _try_clickhouse_with_retry cfg probe s = (false, s') ∧
    trace s' = trace s ++ evs ∧
    schedule evs = exhausted_schedule cfg ∧
    attempts_of evs = py_range 1 (CH_MAX_RETRIES cfg + 1) ∧
    length (attempts_of evs) = Z.to_nat (CH_MAX_RETRIES cfg) ∧
    sleeps_of evs = map (backoff_delay cfg) (py_range 1 (CH_MAX_RETRIES cfg)) ∧
    last (schedule evs) = Some (inl (CH_MAX_RETRIES cfg)) ∧
    _ch_available (self s') = Some false ∧
    (cfg = default_config →
     sleeps_of evs = [1; 2]%Qc ∧ total (sleeps_of evs) = Q2Qc 3).
Proof.
  intros Hmax Hprobe. unfold _try_clickhouse_with_retry. rewrite py_range_1.
  destruct (retry_loop_exhausted cfg probe (Z.to_nat (CH_MAX_RETRIES cfg)) Hprobe
              0%nat (CH_RETRY_BASE_DELAY cfg) s) as (s' & evs & Hrun & Htr & Hsch & Hself).
  assert (Hsl : sleeps_of evs = map (backoff_delay cfg) (py_range 1 (CH_MAX_RETRIES cfg))).
  { rewrite sleeps_of_schedule, Hsch, slots_sleeps by lia.
    unfold py_range. rewrite map_map.
    replace (Z.to_nat (CH_MAX_RETRIES cfg - 1)) with (Z.to_nat (CH_MAX_RETRIES cfg) - 1)%nat by lia.
    apply map_ext. intros i. unfold backoff_delay. do 2 f_equal. lia. }
  assert (Hat : attempts_of evs = map (λ i : nat, 1 + Z.of_nat i) (seq 0 (Z.to_nat (CH_MAX_RETRIES cfg)))).
  { by rewrite attempts_of_schedule, Hsch, slots_attempts. }
  exists s', evs. split_and!; try done.
  - by rewrite exhausted_schedule_slots.
  - by rewrite Hat, length_map, length_seq.
  - rewrite Hsch. apply slots_last; lia.
  - by rewrite Hself.
  - intros ->. rewrite Hsl. split; [|apply Qc_is_canon]; reflexivity.
Qed.

Lemma retry_exhausted_backoff_witness :
  ∃ s' evs,
    _try_clickhouse_with_retry default_config (λ _, GetClientRaises) init_state = (false, s') ∧
    trace s' = trace init_state ++ evs ∧
    schedule evs = exhausted_schedule default_config ∧
    attempts_of evs = py_range 1 (CH_MAX_RETRIES default_config + 1) ∧
    length (attempts_of evs) = Z.to_nat (CH_MAX_RETRIES default_config) ∧
    sleeps_of evs = map (backoff_delay default_config) (py_range 1 (CH_MAX_RETRIES default_config)) ∧
    last (schedule evs) = Some (inl (CH_MAX_RETRIES default_config)) ∧
    _ch_available (self s') = Some false ∧
    (default_config = default_config →
     sleeps_of evs = [1; 2]%Qc ∧ total (sleeps_of evs) = Q2Qc 3).
Proof.
  apply (retry_exhausted_backoff default_config (λ _, GetClientRaises) init_state).
  - simpl. lia.
  - intros k. discriminate.
Defined.

Example retry_default_trace :
  trace (snd (_try_clickhouse_with_retry default_config (λ _, QueryRaises) init_state)) =
  [EvGetClient 1; EvQuery 0; EvSleep 1%Qc;
   EvGetClient 2; EvQuery 1; EvSleep (1 * 2)%Qc;
   EvGetClient 3; EvQuery 2].
Proof. reflexivity. Qed.

(** ** The fallback pool *)

Lemma get_sqlite_conn_cached b t s c :
  _thread_local (self s) !! t = Some c → _get_sqlite_conn b t s = (Ok c, s).
Proof. intros H. unfold _get_sqlite_conn. by rewrite H. Qed.

Lemma get_sqlite_conn_missing t s :
  _thread_local (self s) !! t = None →
  _get_sqlite_conn false t s = (Raise BackendUnavailable, s).
Proof. intros H. unfold _get_sqlite_conn. by rewrite H. Qed.

Lemma get_sqlite_conn_opens t s :
  _thread_local (self s) !! t = None →
  ∃ s', _get_sqlite_conn true t s = (Ok (next_obj s), s') ∧
    trace s' = trace s ++ [EvSqliteConnect (next_obj s)] ∧
    next_obj s' = S (next_obj s) ∧
    _thread_local (self s') = <[t := next_obj s]> (_thread_local (self s)) ∧
    _sqlite_conns (self s') = _sqlite_conns (self s) ++ [next_obj s] ∧
    _backend_type (self s') = Some Sqlite ∧
    _ch_client (self s') = _ch_client (self s) ∧
    _ch_available (self s') = _ch_available (self s) ∧
    _initialized (self s') = _initialized (self s) ∧
    _date_range_cache (self s') = _date_range_cache (self s) ∧
    _date_range_ts (self s') = _date_range_ts (self s) ∧
    _date_range_ttl (self s') = _date_range_ttl (self s).
Proof.
  intros H. unfold _get_sqlite_conn. rewrite H. simpl.
  destruct (_backend_type (self s)) as [[]|] eqn:Hb; eexists; split_and!; done.
Qed.

(** C8. For a thread with no cached fallback connection, acquiring one raises
    (and then it is the missing-file error) exactly when the database file
    does not exist; when it raises, nothing changed: neither the thread's slot
    nor the tracked list. *)
Theorem sqlite_conn_raises_iff_missing (db_exists : bool) (t : nat) (s : state) :
  _thread_local (self s) !! t = None →
  (fst (_get_sqlite_conn db_exists t s) = Raise BackendUnavailable ↔ db_exists = false) ∧
  ((∃ x, fst (_get_sqlite_conn db_exists t s) = Raise x) ↔ db_exists = false) ∧
  (∀ x, fst (_get_sqlite_conn db_exists t s) = Raise x →
        snd (_get_sqlite_conn db_exists t s) = s ∧
        _thread_local (self (snd (_get_sqlite_conn db_exists t s))) !! t = None ∧
        _sqlite_conns (self (snd (_get_sqlite_conn db_exists t s))) = _sqlite_conns (self s)).
Proof.
  intros Hslot. destruct db_exists.
  - destruct (get_sqlite_conn_opens t s Hslot) as (s' & -> & _). simpl.
    split_and!.
    + split; discriminate.
    + split; [intros [x Hx]|]; discriminate.
    + intros x Hx. discriminate.
  - rewrite (get_sqlite_conn_missing t s Hslot). simpl.
    split_and!; [done | split; eauto | done].
Qed.

Lemma sqlite_conn_raises_iff_missing_witness :
  (fst (_get_sqlite_conn false 0%nat init_state) = Raise BackendUnavailable ↔ false = false) ∧
  ((∃ x, fst (_get_sqlite_conn false 0%nat init_state) = Raise x) ↔ false = false) ∧
  (∀ x, fst (_get_sqlite_conn false 0%nat init_state) = Raise x →
        snd (_get_sqlite_conn false 0%nat init_state) = init_state ∧
        _thread_local (self (snd (_get_sqlite_conn false 0%nat init_state))) !! 0%nat = None ∧
        _sqlite_conns (self (snd (_get_sqlite_conn false 0%nat init_state))) =
          _sqlite_conns (self init_state)).
Proof.
  apply (sqlite_conn_raises_iff_missing false 0%nat init_state). reflexivity.
Defined.

(** ** The date-range cache *)

Lemma fetches_snoc l db sq : fetches (l ++ [EvFetch db sq]) = S (fetches l).
Proof. unfold fetches. rewrite omap_app, length_app. simpl. lia. Qed.

(** A call that finds a falsy value in the cache invokes the fetch function,
    whatever the time. *)
Lemma date_range_miss_falsy f db sq now s :
  truthy (_date_range_cache (self s)) = false →
  get_date_range_cached f db sq now s =
    (fetched (f db sq),
     match f db sq with
     | Returns v => update (set_date_range v now) (emit (EvFetch db sq) s)
     | Raises _ => emit (EvFetch db sq) s
     end).
Proof.
  intros H. unfold get_date_range_cached. rewrite H. simpl.
  by destruct (f db sq).
Qed.

Lemma date_range_calls_falsy calls : ∀ s,
  truthy (_date_range_cache (self s)) = false →
  Forall fetch_falsy calls →
  fetches (trace (date_range_calls calls s)) = (fetches (trace s) + length calls)%nat ∧
  truthy (_date_range_cache (self (date_range_calls calls s))) = false.
Proof.
  induction calls as [|[[[f db] sq] now] calls IH]; intros s Hs Hall.
  - simpl. split; [lia|done].
  - apply Forall_cons in Hall as [Hf Hall]. simpl.
    rewrite date_range_miss_falsy by done. simpl.
    destruct (f db sq) as [v|tag] eqn:Hfd.
    + destruct (IH (update (set_date_range v now) (emit (EvFetch db sq) s))) as [-> ->];
        [by apply Hf | done |].
      simpl. rewrite fetches_snoc. split; [lia|done].
    + destruct (IH (emit (EvFetch db sq) s)) as [-> ->]; [done | done |].
      simpl. rewrite fetches_snoc. split; [lia|done].
Qed.

(** C10. A falsy value returned by the fetch function is stored, with the
    time of the call, but never served: the next call invokes the fetch
    function whatever its time, and so does every later call for as long as
    the fetch function keeps returning falsy values. *)
Theorem falsy_value_never_served
    (f : connection → bool → fetch_outcome) (db : connection) (sq : bool)
    (now : Qc) (s s1 : state) (v : pyval) :
  get_date_range_cached f db sq now s = (Ok v, s1) →
  truthy v = false →
  f db sq = Returns v ∧
  _date_range_cache (self s1) = v ∧
  _date_range_ts (self s1) = now ∧
  trace s1 = trace s ++ [EvFetch db sq] ∧
  (∀ f' db' sq' now',
     fst (get_date_range_cached f' db' sq' now' s1) = fetched (f' db' sq') ∧
     trace (snd (get_date_range_cached f' db' sq' now' s1)) = trace s1 ++ [EvFetch db' sq']) ∧
  (∀ calls, Forall fetch_falsy calls →
     fetches (trace (date_range_calls calls s1)) = (fetches (trace s1) + length calls)%nat).
Proof.
  intros Hcall Hv. unfold get_date_range_cached in Hcall.
  destruct (truthy (_date_range_cache (self s)) && _) eqn:Hhit.
  - apply andb_true_iff in Hhit as [Hhit _]. congruence.
  - destruct (f db sq) as [v'|tag] eqn:Hf; [|done].
    injection Hcall as -> <-. simpl.
    split_and!; try done.
    + intros f' db' sq' now'. rewrite date_range_miss_falsy by done.
      by destruct (f' db' sq').
    + intros calls Hcalls. by apply date_range_calls_falsy.
Qed.

Lemma falsy_value_never_served_witness :
  let f : connection → bool → fetch_outcome := λ _ _, Returns (PyTuple []) in
  let s1 := snd (get_date_range_cached f NoneObj true (Q2Qc 100) init_state) in
  f NoneObj true = Returns (PyTuple []) ∧
  _date_range_cache (self s1) = PyTuple [] ∧
  _date_range_ts (self s1) = Q2Qc 100 ∧
  trace s1 = trace init_state ++ [EvFetch NoneObj true] ∧
  (∀ f' db' sq' now',
     fst (get_date_range_cached f' db' sq' now' s1) = fetched (f' db' sq') ∧
     trace (snd (get_date_range_cached f' db' sq' now' s1)) = trace s1 ++ [EvFetch db' sq']) ∧
  (∀ calls, Forall fetch_falsy calls →
     fetches (trace (date_range_calls calls s1)) = (fetches (trace s1) + length calls)%nat).
Proof.
  intros f s1.
  apply (falsy_value_never_served f NoneObj true (Q2Qc 100) init_state s1 (PyTuple []));
    reflexivity.
Defined.

Lemma date_range_hit f db sq now s :
  cache_valid now s = true →
  get_date_range_cached f db sq now s = (Ok (_date_range_cache (self s)), s).
Proof. unfold cache_valid, get_date_range_cached. by intros ->. Qed.

Lemma date_range_miss f db sq now s :
  cache_valid now s = false →
  get_date_range_cached f db sq now s =
    (fetched (f db sq),
     match f db sq with
     | Returns v => update (set_date_range v now) (emit (EvFetch db sq) s)
     | Raises _ => emit (EvFetch db sq) s
     end).
Proof.
  unfold cache_valid, get_date_range_cached. intros ->. by destruct (f db sq).
Qed.

(** C5 as stated fails: a fetch function that returns [None] is invoked by
    both of two calls ten seconds apart. *)
Lemma date_range_cache_ttl_counterexample :
  let f : connection → bool → fetch_outcome := λ _ _, Returns PyNone in
  let s1 := snd (get_date_range_cached f NoneObj true (Q2Qc 100) init_state) in
  let s2 := snd (get_date_range_cached f NoneObj true (Q2Qc 110) s1) in
  (Q2Qc 110 - Q2Qc 100 < _date_range_ttl (self init_state))%Qc ∧
  _date_range_ttl (self init_state) = Q2Qc 60 ∧
  fetches (trace init_state) = 0%nat ∧
  fetches (trace s2) = 2%nat.
Proof. split_and!; reflexivity. Qed.

(** C5, amended. Of two calls less than the TTL apart, the first of which
    returns a truthy value, at most one invokes the fetch function, and when
    it was the first call that fetched, the value it stored is what the second
    returns, without fetching. A call made when at least the TTL has passed
    since the stored timestamp invokes the fetch function. When the fetch
    function raises, the exception reaches the caller and the cache entry is
    left as it was. *)
Theorem date_range_cache_ttl
    (f1 f2 : connection → bool → fetch_outcome) (db1 db2 : connection)
    (sq1 sq2 : bool) (now1 now2 : Qc) (s s1 s2 : state) (r1 r2 : result pyval) :
  get_date_range_cached f1 db1 sq1 now1 s = (r1, s1) →
  get_date_range_cached f2 db2 sq2 now2 s1 = (r2, s2) →
  (∀ v, r1 = Ok v → truthy v = true →
        (now2 - now1 < _date_range_ttl (self s))%Qc →
        (fetches (trace s2) ≤ S (fetches (trace s)))%nat ∧
        (trace s1 = trace s ++ [EvFetch db1 sq1] →
           _date_range_cache (self s1) = v ∧ _date_range_ts (self s1) = now1 ∧
           r2 = Ok v ∧ s2 = s1)) ∧
  ((_date_range_ttl (self s1) ≤ now2 - _date_range_ts (self s1))%Qc →
     r2 = fetched (f2 db2 sq2) ∧ trace s2 = trace s1 ++ [EvFetch db2 sq2]) ∧
  (∀ tag, f1 db1 sq1 = Raises tag → trace s1 = trace s ++ [EvFetch db1 sq1] →
     r1 = Raise (FetchError tag) ∧ self s1 = self s) ∧
  (∀ x, r1 = Raise x → self s1 = self s ∧ ∃ tag, x = FetchError tag ∧ f1 db1 sq1 = Raises tag).
Proof.
  intros H1 H2. split_and!.
  - intros v -> Hv Hnear.
    destruct (cache_valid now1 s) eqn:Hc1.
    + (* the first call was served from the cache *)
      rewrite date_range_hit in H1 by done. injection H1 as Hv1 <-.
      split.
      * destruct (cache_valid now2 s) eqn:Hc2.
        -- rewrite date_range_hit in H2 by done. injection H2 as _ <-. lia.
        -- rewrite date_range_miss in H2 by done. injection H2 as _ <-.
           destruct (f2 db2 sq2); simpl; rewrite fetches_snoc; lia.
      * intros Htr. exfalso.
        apply (f_equal length) in Htr. rewrite length_app in Htr. simpl in Htr. lia.
    + (* the first call fetched *)
      rewrite date_range_miss in H1 by done.
      destruct (f1 db1 sq1) as [v1|tag] eqn:Hf1; [|done].
      injection H1 as -> <-.
      assert (Hc2 : cache_valid now2 (update (set_date_range v now1) (emit (EvFetch db1 sq1) s)) = true).
      { unfold cache_valid. simpl. rewrite Hv. simpl. by apply bool_decide_eq_true. }
      rewrite date_range_hit in H2 by done. injection H2 as <- <-.
      simpl. rewrite fetches_snoc. split; [lia|done].
  - intros Hold.
    assert (Hc2 : cache_valid now2 s1 = false).
    { unfold cache_valid. apply andb_false_iff. right.
      apply bool_decide_eq_false. by apply Qcle_not_lt. }
    rewrite date_range_miss in H2 by done. injection H2 as <- <-.
    by destruct (f2 db2 sq2).
  - intros tag Hf Htr.
    destruct (cache_valid now1 s) eqn:Hc1.
    + rewrite date_range_hit in H1 by done. injection H1 as _ <-.
      apply (f_equal length) in Htr. rewrite length_app in Htr. simpl in Htr. lia.
    + rewrite date_range_miss, Hf in H1 by done. by injection H1 as <- <-.
  - intros x ->.
    destruct (cache_valid now1 s) eqn:Hc1.
    + by rewrite date_range_hit in H1.
    + rewrite date_range_miss in H1 by done.
      destruct (f1 db1 sq1) as [v1|tag]; [done|].
      injection H1 as <- <-. eauto.
Qed.

Lemma date_range_cache_ttl_witness :
  let f : connection → bool → fetch_outcome :=
    λ _ _, Returns (PyTuple ["2017-11-01"; "2017-12-10"]%string) in
  let v := PyTuple ["2017-11-01"; "2017-12-10"]%string in
  let s1 := snd (get_date_range_cached f NoneObj true 0%Qc init_state) in
  (∀ v', Ok v = Ok v' → truthy v' = true →
        (Q2Qc 30 - 0 < _date_range_ttl (self init_state))%Qc →
        (fetches (trace s1) ≤ S (fetches (trace init_state)))%nat ∧
        (trace s1 = trace init_state ++ [EvFetch NoneObj true] →
           _date_range_cache (self s1) = v' ∧ _date_range_ts (self s1) = 0%Qc ∧
           Ok v = Ok v' ∧ s1 = s1)) ∧
  ((_date_range_ttl (self s1) ≤ Q2Qc 30 - _date_range_ts (self s1))%Qc →
     Ok v = fetched (f NoneObj true) ∧ trace s1 = trace s1 ++ [EvFetch NoneObj true]) ∧
  (∀ tag, f NoneObj true = Raises tag → trace s1 = trace init_state ++ [EvFetch NoneObj true] →
     Ok v = Raise (FetchError tag) ∧ self s1 = self init_state) ∧
  (∀ x, Ok v = Raise x →
     self s1 = self init_state ∧ ∃ tag, x = FetchError tag ∧ f NoneObj true = Raises tag).
Proof.
  intros f v s1.
  apply (date_range_cache_ttl f f NoneObj NoneObj true true 0%Qc (Q2Qc 30)
           init_state s1 s1 (Ok v) (Ok v)); reflexivity.
Defined.

(** Scenario C of the specification: stored at 0, served at 30, fetched again
    at 61. *)
Example date_range_scenario :
  let f : connection → bool → fetch_outcome :=
    λ _ _, Returns (PyTuple ["2017-11-01"; "2017-12-10"]%string) in
  let s1 := snd (get_date_range_cached f NoneObj true 0%Qc init_state) in
  let s2 := snd (get_date_range_cached f NoneObj true (Q2Qc 30) s1) in
  let s3 := snd (get_date_range_cached f NoneObj true (Q2Qc 61) s2) in
  (fetches (trace s1), fetches (trace s2), fetches (trace s3)) = (1, 1, 2)%nat.
Proof. reflexivity. Qed.

(** ** Cursors *)

(** Whether [c] is closed, event by event. *)
Lemma conn_closed_snoc c l e :
  conn_closed c (l ++ [e]) =
    match e with
    | EvSqliteConnect c' => if bool_decide (c' = c) then false else conn_closed c l
    | EvSqliteClose c' false => if bool_decide (c' = c) then true else conn_closed c l
    | _ => conn_closed c l
    end.
Proof. unfold conn_closed. by rewrite foldl_app. Qed.

(** Events that are not about [c]'s connection leave it as it is. *)
Lemma conn_closed_other c evs : ∀ l,
  Forall (λ e, match e with
               | EvSqliteConnect c' | EvSqliteClose c' _ => c' ≠ c
               | _ => True
               end) evs →
  conn_closed c (l ++ evs) = conn_closed c l.
Proof.
  induction evs as [|e evs IH] using rev_ind; intros l Hall.
  - by rewrite app_nil_r.
  - apply Forall_app in Hall as [Hevs He]. rewrite Forall_singleton in He.
    rewrite (assoc (++)), conn_closed_snoc, (IH l Hevs).
    destruct e as [| | | | |c'|c' []| | | | | |]; try done;
      by rewrite bool_decide_eq_false_2.
Qed.

(** A connection [close()] was never called on is not closed. *)
Lemma conn_closed_never c l : c ∉ closed_conns l → conn_closed c l = false.
Proof.
  induction l as [|e l IH] using rev_ind; [done|].
  unfold closed_conns. rewrite omap_app. fold (closed_conns l).
  intros Hnot. rewrite conn_closed_snoc.
  assert (Hl : c ∉ closed_conns l) by (intros Hin; apply Hnot, elem_of_app; by left).
  destruct e as [| | | | |c'|c' r| | | | | |]; simpl in *; try by apply IH.
  - case_bool_decide; [done | by apply IH].
  - destruct r; [by apply IH|]. case_bool_decide as Hc; [|by apply IH].
    subst c'. destruct Hnot. apply elem_of_app. right. by apply list_elem_of_singleton.
Qed.

(** The connection [_get_sqlite_conn] opens is open; the one it finds in the
    slot is as it was. *)
Lemma get_sqlite_conn_closed b t s s1 c :
  _get_sqlite_conn b t s = (Ok c, s1) →
  conn_closed c (trace s1) =
    match _thread_local (self s) !! t with
    | Some _ => conn_closed c (trace s)
    | None => false
    end.
Proof.
  intros Hconn. destruct (_thread_local (self s) !! t) as [c0|] eqn:Hs.
  - rewrite (get_sqlite_conn_cached _ _ _ _ Hs) in Hconn. by injection Hconn as <- <-.
  - destruct b.
    + destruct (get_sqlite_conn_opens t s Hs) as (s0 & Hs0 & Htr & _).
      rewrite Hs0 in Hconn. injection Hconn as <- <-.
      by rewrite Htr, conn_closed_snoc, bool_decide_eq_true_2.
    + by rewrite (get_sqlite_conn_missing t s Hs) in Hconn.
Qed.

(** Opening and closing a cursor does not close the connection. *)
Lemma conn_closed_after_cursor c c' body s :
  conn_closed c (trace (after_cursor c' body s)) = conn_closed c (trace s).
Proof.
  unfold after_cursor. simpl. rewrite <- !app_assoc. simpl.
  apply conn_closed_other. by repeat constructor.
Qed.

(** [get_sqlite_cursor] once the connection is known. *)
Lemma get_sqlite_cursor_with b t body s s1 c :
  _get_sqlite_conn b t s = (Ok c, s1) →
  get_sqlite_cursor b t body s =
    if conn_closed c (trace s1) then (Raise ProgrammingError, s1)
    else (match body (next_obj s1) with
          | BodyRaises tag => Raise (BodyError tag)
          | x => Ok x
          end, after_cursor c body s1).
Proof.
  intros Hconn. unfold get_sqlite_cursor, after_cursor. rewrite Hconn.
  destruct (conn_closed c (trace s1)); [done|]. simpl. by destruct (body (next_obj s1)).
Qed.

(** C9. Whenever [get_sqlite_cursor] yields a cursor, that cursor is closed
    as the last thing the call does, however the body is left (it completes,
    returns early or raises); the call closes no connection, the thread's
    connection stays in its slot, and later calls of the thread get that same
    connection. A cursor is yielded unless the thread's connection is closed:
    then [conn.cursor()] raises before the [try], no cursor exists, nothing
    is closed and the state is as [_get_sqlite_conn] left it. *)
Theorem cursor_closed_on_every_exit
    (db_exists : bool) (t : nat) (body : nat → body_exit) (s s1 : state) (c : nat) :
  _get_sqlite_conn db_exists t s = (Ok c, s1) →
  (conn_closed c (trace s1) = false →
   ∃ s',
    let k := next_obj s1 in
    get_sqlite_cursor db_exists t body s =
      (match body k with
       | BodyRaises tag => Raise (BodyError tag)
       | x => Ok x
       end, s') ∧
    trace s' = trace s1 ++ [EvCursorOpen c k; EvBody k (body k); EvCursorClose k] ∧
    last (trace s') = Some (EvCursorClose k) ∧
    closed_conns (trace s') = closed_conns (trace s) ∧
    self s' = self s1 ∧
    _thread_local (self s') !! t = Some c ∧
    (∀ b, _get_sqlite_conn b t s' = (Ok c, s')) ∧
    (∀ b body', ∃ s'',
       snd (get_sqlite_cursor b t body' s') = s'' ∧
       trace s'' = trace s' ++ [EvCursorOpen c (next_obj s');
                                EvBody (next_obj s') (body' (next_obj s'));
                                EvCursorClose (next_obj s')])) ∧
  (conn_closed c (trace s1) = true →
   get_sqlite_cursor db_exists t body s = (Raise ProgrammingError, s1) ∧
   closed_conns (trace s1) = closed_conns (trace s) ∧
   opened_cursors (trace s1) = opened_cursors (trace s) ∧
   _thread_local (self s1) !! t = Some c).
Proof.
  intros Hconn.
  assert (Hslot : _thread_local (self s1) !! t = Some c
                  ∧ closed_conns (trace s1) = closed_conns (trace s)
                  ∧ opened_cursors (trace s1) = opened_cursors (trace s)).
  { destruct (_thread_local (self s) !! t) as [c0|] eqn:Hs.
    - rewrite (get_sqlite_conn_cached _ _ _ _ Hs) in Hconn. by injection Hconn as <- <-.
    - destruct db_exists.
      + destruct (get_sqlite_conn_opens t s Hs) as (s0 & Hs0 & Htr & _ & Htl & _).
        rewrite Hs0 in Hconn. injection Hconn as <- <-.
        rewrite Htl, lookup_insert_eq, Htr. split_and!; [done | |].
        * unfold closed_conns. rewrite omap_app. simpl. by rewrite app_nil_r.
        * unfold opened_cursors. rewrite omap_app. simpl. by rewrite app_nil_r.
      + by rewrite (get_sqlite_conn_missing t s Hs) in Hconn. }
  destruct Hslot as (Hslot & Hclosed & Hcursors).
  rewrite (get_sqlite_cursor_with _ _ body _ _ _ Hconn). split.
  2: { by intros ->. }
  intros Hopen. rewrite Hopen.
  set (s' := after_cursor c body s1).
  assert (Hcached : ∀ b, _get_sqlite_conn b t s' = (Ok c, s')).
  { intros b. by apply get_sqlite_conn_cached. }
  exists s'. simpl. split_and!.
  - done.
  - subst s'. unfold after_cursor. trace_eq.
  - subst s'. simpl. by rewrite last_snoc.
  - subst s'. simpl. unfold closed_conns in *. rewrite !omap_app. simpl.
    by rewrite !app_nil_r.
  - done.
  - done.
  - done.
  - intros b body'. eexists. split; [done|].
    rewrite (get_sqlite_cursor_with _ _ body' _ _ _ (Hcached b)).
    subst s'. rewrite conn_closed_after_cursor, Hopen. simpl. trace_eq.
Qed.

Lemma cursor_closed_on_every_exit_witness :
  ∃ s',
    let s1 := snd (_get_sqlite_conn true 0%nat init_state) in
    let body : nat → body_exit := λ _, BodyRaises 7 in
    let k := next_obj s1 in
    get_sqlite_cursor true 0%nat body init_state =
      (match body k with
       | BodyRaises tag => Raise (BodyError tag)
       | x => Ok x
       end, s') ∧
    trace s' = trace s1 ++ [EvCursorOpen 0%nat k; EvBody k (body k); EvCursorClose k] ∧
    last (trace s') = Some (EvCursorClose k) ∧
    closed_conns (trace s') = closed_conns (trace init_state) ∧
    self s' = self s1 ∧
    _thread_local (self s') !! 0%nat = Some 0%nat ∧
    (∀ b, _get_sqlite_conn b 0%nat s' = (Ok 0%nat, s')) ∧
    (∀ b body', ∃ s'',
       snd (get_sqlite_cursor b 0%nat body' s') = s'' ∧
       trace s'' = trace s' ++ [EvCursorOpen 0%nat (next_obj s');
                                EvBody (next_obj s') (body' (next_obj s'));
                                EvCursorClose (next_obj s')]).
Proof.
  apply (proj1 (cursor_closed_on_every_exit true 0%nat (λ _, BodyRaises 7) init_state
                  (snd (_get_sqlite_conn true 0%nat init_state)) 0%nat eq_refl)).
  reflexivity.
Defined.

(** ** Shutdown *)

Lemma close_loop_trace cr l : ∀ s,
  trace (foldl (λ s c, emit (EvSqliteClose c (cr c)) s) s l) =
    trace s ++ map (λ c, EvSqliteClose c (cr c)) l ∧
  self (foldl (λ s c, emit (EvSqliteClose c (cr c)) s) s l) = self s ∧
  next_obj (foldl (λ s c, emit (EvSqliteClose c (cr c)) s) s l) = next_obj s.
Proof.
  induction l as [|c l IH]; intros s; simpl.
  - by rewrite app_nil_r.
  - destruct (IH (emit (EvSqliteClose c (cr c)) s)) as (-> & -> & ->).
    simpl. by rewrite <- app_assoc.
Qed.

Lemma close_all_trace cr api s :
  trace (close_all cr api s) =
    trace s ++ map (λ c, EvSqliteClose c (cr c)) (_sqlite_conns (self s))
            ++ client_shutdown api (_ch_client (self s)).
Proof.
  unfold close_all.
  destruct (close_loop_trace cr (_sqlite_conns (self s)) s) as (Ht & Hs & _).
  simpl. rewrite Hs.
  destruct (_ch_client (self s)) as [c|], api; simpl; rewrite Ht;
    by rewrite ?app_nil_r, <- ?app_assoc.
Qed.

Lemma close_all_self cr api s :
  self (close_all cr api s) =
    set_initialized false
      (set_ch_available None (set_ch_client None (set_sqlite_conns [] (self s)))).
Proof.
  unfold close_all.
  destruct (close_loop_trace cr (_sqlite_conns (self s)) s) as (_ & Hs & _).
  simpl. rewrite Hs.
  destruct (_ch_client (self s)) as [c|] eqn:Hc, api; simpl; rewrite ?Hs; try done.
  all: unfold set_initialized, set_ch_available, set_ch_client, set_sqlite_conns;
    simpl; by rewrite ?Hc.
Qed.

Lemma close_all_next_obj cr api s : next_obj (close_all cr api s) = next_obj s.
Proof.
  unfold close_all.
  destruct (close_loop_trace cr (_sqlite_conns (self s)) s) as (_ & Hs & Hn).
  simpl. rewrite Hs. by destruct (_ch_client (self s)) as [c|], api.
Qed.

Lemma state_eq (s1 s2 : state) :
  self s1 = self s2 → next_obj s1 = next_obj s2 → trace s1 = trace s2 → s1 = s2.
Proof. destruct s1, s2. simpl. by intros -> -> ->. Qed.

(** C7 as stated fails: after a thread has opened its fallback connection,
    [close_all] leaves the backend type and the thread's slot (which now
    holds a closed connection) as they were, so the manager is not back in
    its initial state. *)
Lemma close_all_counterexample :
  let s := snd (_get_sqlite_conn true 0%nat init_state) in
  let s' := close_all (λ _, false) HasClose s in
  self init_state = fresh_manager ∧
  trace s' = [EvSqliteConnect 0%nat; EvSqliteClose 0%nat false] ∧
  _backend_type (self s') = Some Sqlite ∧
  _thread_local (self s') !! 0%nat = Some 0%nat ∧
  _get_sqlite_conn true 0%nat s' = (Ok 0%nat, s') ∧
  self s' ≠ fresh_manager.
Proof.
  split_and!; try reflexivity.
  intros H. apply (f_equal _backend_type) in H. discriminate H.
Qed.

(** C7, amended. [close_all] calls [close] on every tracked connection, in
    order and whether or not a call raises, empties the tracked list, calls
    [close] (or else [disconnect]) on the cached client if there is one that
    has it, and sets [_ch_client] and [_ch_available] to [None] and
    [_initialized] to [False]. The thread slots, the backend type and the
    date-range cache are untouched; constructing the manager again resets
    them. A second [close_all] changes nothing and closes nothing. *)
Theorem close_all_effect
    (cr cr' : nat → bool) (api api' : client_api) (s : state) :
  trace (close_all cr api s) =
    trace s ++ map (λ c, EvSqliteClose c (cr c)) (_sqlite_conns (self s))
            ++ client_shutdown api (_ch_client (self s)) ∧
  _sqlite_conns (self (close_all cr api s)) = [] ∧
  _ch_client (self (close_all cr api s)) = None ∧
  _ch_available (self (close_all cr api s)) = None ∧
  _initialized (self (close_all cr api s)) = false ∧
  _thread_local (self (close_all cr api s)) = _thread_local (self s) ∧
  _backend_type (self (close_all cr api s)) = _backend_type (self s) ∧
  _date_range_cache (self (close_all cr api s)) = _date_range_cache (self s) ∧
  _date_range_ts (self (close_all cr api s)) = _date_range_ts (self s) ∧
  _date_range_ttl (self (close_all cr api s)) = _date_range_ttl (self s) ∧
  self (construct (close_all cr api s)) = fresh_manager ∧
  close_all cr' api' (close_all cr api s) = close_all cr api s.
Proof.
  split_and!; try (rewrite close_all_self; reflexivity).
  - apply close_all_trace.
  - change (self (construct (close_all cr api s)))
      with (__init__ (self (close_all cr api s))).
    by rewrite close_all_self.
  - apply state_eq.
    + by rewrite !close_all_self.
    + by rewrite !close_all_next_obj.
    + rewrite close_all_trace, close_all_self. simpl. by rewrite app_nil_r.
Qed.

(** ** The primary backend gate *)

Lemma gate_only_refl s : gate_only s s.
Proof.
  split; try done; [by exists []; rewrite app_nil_r | by left].
Qed.

Lemma gate_only_trans s1 s2 s3 : gate_only s1 s2 → gate_only s2 s3 → gate_only s1 s3.
Proof.
  intros [Hs1 Hc1 Hn1 (e1 & Ht1 & He1) Hk1] [Hs2 Hc2 Hn2 (e2 & Ht2 & He2) Hk2].
  split.
  - congruence.
  - congruence.
  - lia.
  - exists (e1 ++ e2). split; [by rewrite Ht2, Ht1, app_assoc | by apply Forall_app].
  - intros c Hc. destruct (Hk2 c Hc) as [Hold|Hnew]; [|right; lia].
    destruct (Hk1 c Hold) as [?|?]; [by left | right; lia].
Qed.

Lemma gate_only_emit e s : gate_event e = true → gate_only s (emit e s).
Proof.
  intros He. split; try done; [|by left].
  exists [e]. split; [done|]. by apply Forall_singleton.
Qed.

(** Proves [gate_only s s'] when [s'] is [s] after a chain of gate events,
    allocations and writes to the client and availability fields. *)
Ltac gate_chain :=
  split;
  [ reflexivity
  | reflexivity
  | simpl; lia
  | eexists; split; [trace_eq | simpl; repeat constructor]
  | simpl; intros ? ?; first [left; assumption | right; simplify_eq; simpl; lia | discriminate] ].

Lemma retry_body_gate cfg o k delay s :
  match retry_body cfg o k delay s with
  | inl s' =>
      o = Responds ∧ gate_only s s' ∧ _ch_available (self s') = Some true ∧
      _ch_client (self s') = Some (next_obj s) ∧ (next_obj s < next_obj s')%nat
  | inr (_, s') => o ≠ Responds ∧ gate_only s s' ∧ self s' = self s
  end.
Proof.
  unfold retry_body, on_failure.
  destruct o; simpl; try case_bool_decide; simpl.
  - split_and!; [done | gate_chain | done].
  - split_and!; [done | gate_chain | done].
  - split_and!; [done | gate_chain | done].
  - split_and!; [done | gate_chain | done].
  - split_and!; [done | gate_chain | done | done | lia].
Qed.

(** The loop hands back [True] with a newly created client cached and the
    backend marked available, or [False] with the client as it was and the
    backend marked unavailable. *)
Lemma retry_loop_gate cfg probe attempts : ∀ delay s,
  match retry_loop cfg probe attempts delay s with
  | (true, s') =>
      gate_only s s' ∧ _ch_available (self s') = Some true ∧
      (∃ c, _ch_client (self s') = Some c ∧ (next_obj s ≤ c < next_obj s')%nat) ∧
      (∃ k, k ∈ attempts ∧ probe k = Responds)
  | (false, s') =>
      gate_only s s' ∧ _ch_available (self s') = Some false ∧
      _ch_client (self s') = _ch_client (self s) ∧
      (∀ k, k ∈ attempts → probe k ≠ Responds)
  end.
Proof.
  induction attempts as [|k rest IH]; intros delay s; simpl.
  - split_and!; try done; [|by intros k Hk%elem_of_nil].
    split; try done; [by exists []; rewrite app_nil_r | by left].
  - pose proof (retry_body_gate cfg (probe k) k delay s) as Hbody.
    destruct (retry_body cfg (probe k) k delay s) as [s1|[delay1 s1]].
    + destruct Hbody as (Hk & Hg & Ha & Hc & Hn). split_and!; try done.
      * exists (next_obj s). split; [done|lia].
      * exists k. split; [by left|done].
    + destruct Hbody as (Hk & Hg & Hself).
      specialize (IH delay1 s1).
      destruct (retry_loop cfg probe rest delay1 s1) as [[] s2].
      * destruct IH as (Hg2 & Ha & (c & Hc & Hn) & (k' & Hk' & Hr)).
        split_and!; try done.
        -- by eapply gate_only_trans.
        -- exists c. split; [done|]. destruct Hg as [_ _ ? _ _]. lia.
        -- exists k'. split; [by right|done].
      * destruct IH as (Hg2 & Ha & Hc & Hnone). split_and!; try done.
        -- by eapply gate_only_trans.
        -- by rewrite Hc, Hself.
        -- intros k' [->|Hk']%elem_of_cons; [done | by apply Hnone].
Qed.

(** *** Once unavailable *)

Lemma quiet_refl s : quiet s s.
Proof. split; [done | done | by exists []; rewrite app_nil_r]. Qed.

Lemma quiet_trans s1 s2 s3 : quiet s1 s2 → quiet s2 s3 → quiet s1 s3.
Proof.
  intros [Ha1 Hc1 (e1 & Ht1 & He1)] [Ha2 Hc2 (e2 & Ht2 & He2)]. split.
  - congruence.
  - congruence.
  - exists (e1 ++ e2). split; [by rewrite Ht2, Ht1, app_assoc | by apply Forall_app].
Qed.

Lemma sqlite_conn_quiet b t s : quiet s (snd (_get_sqlite_conn b t s)).
Proof.
  destruct (_thread_local (self s) !! t) as [c|] eqn:Hslot.
  - rewrite (get_sqlite_conn_cached b t s c Hslot). apply quiet_refl.
  - destruct b.
    + destruct (get_sqlite_conn_opens t s Hslot)
        as (s' & -> & Htr & _ & _ & _ & _ & Hc & Ha & _).
      split; [done | done |]. eexists. split; [exact Htr|]. by repeat constructor.
    + rewrite (get_sqlite_conn_missing t s Hslot). apply quiet_refl.
Qed.

Lemma sqlite_cursor_quiet b t body s : quiet s (snd (get_sqlite_cursor b t body s)).
Proof.
  unfold get_sqlite_cursor.
  pose proof (sqlite_conn_quiet b t s) as Hq.
  destruct (_get_sqlite_conn b t s) as [[c|x] s1]; simpl in *; [|done].
  destruct (conn_closed c (trace s1)); [done|].
  eapply quiet_trans; [exact Hq|].
  assert (Hq' : quiet s1 (emit (EvCursorClose (next_obj s1))
                  (emit (EvBody (next_obj s1) (body (next_obj s1)))
                     (emit (EvCursorOpen c (next_obj s1)) (snd (alloc s1)))))).
  { split; [done | done |]. eexists. split; [trace_eq | simpl; by repeat constructor]. }
  by destruct (body (next_obj s1)).
Qed.

Lemma date_range_quiet f db sq now s : quiet s (snd (get_date_range_cached f db sq now s)).
Proof.
  destruct (cache_valid now s) eqn:Hc.
  - rewrite date_range_hit by done. apply quiet_refl.
  - rewrite date_range_miss by done. simpl.
    destruct (f db sq); (split; [done | done |]);
      (eexists; split; [trace_eq | simpl; by repeat constructor]).
Qed.

(** With the backend marked unavailable, [get_connection] is
    [_get_sqlite_conn]. *)
Lemma get_connection_unavailable cfg e t s :
  _ch_available (self s) = Some false →
  get_connection cfg e t s =
    match _get_sqlite_conn (db_exists e) t s with
    | (Ok c, s') => (Ok (ConnObj c, true), s')
    | (Raise x, s') => (Raise x, s')
    end.
Proof.
  intros Ha. unfold get_connection, check_cached, reconnect. rewrite Ha. simpl.
  rewrite Ha.
  by destruct (_get_sqlite_conn (db_exists e) t s) as [[c|x] s'].
Qed.

Lemma run_call_unavailable cfg t c s :
  is_close_all c = false →
  _ch_available (self s) = Some false →
  quiet s (snd (run_call cfg t c s)).
Proof.
  intros Hc Ha. destruct c as [e|b|b body|f db sq now|cr api]; simpl; [| | | |done].
  - rewrite get_connection_unavailable by done.
    pose proof (sqlite_conn_quiet (db_exists e) t s) as Hq.
    by destruct (_get_sqlite_conn (db_exists e) t s) as [[k|x] s1].
  - pose proof (sqlite_conn_quiet b t s) as Hq.
    by destruct (_get_sqlite_conn b t s) as [[k|x] s1].
  - pose proof (sqlite_cursor_quiet b t body s) as Hq.
    by destruct (_get_sqlite_conn b t s) as [[k|x] s1].
  - apply date_range_quiet.
Qed.

Lemma run_unavailable cfg calls : ∀ s,
  Forall (λ tc : nat * call, is_close_all tc.2 = false) calls →
  _ch_available (self s) = Some false →
  quiet s (snd (run cfg calls s)).
Proof.
  induction calls as [|[t c] calls IH]; intros s Hall Ha; simpl.
  - apply quiet_refl.
  - apply Forall_cons in Hall as [Hc Hall]. simpl in Hc.
    pose proof (run_call_unavailable cfg t c s Hc Ha) as Hq.
    destruct (run_call cfg t c s) as [g s1]. simpl in Hq.
    specialize (IH s1 Hall ltac:(by rewrite (q_available _ _ Hq))).
    destruct (run cfg calls s1) as [gs s2]. simpl in *.
    by eapply quiet_trans.
Qed.

(** C2 as stated fails: with the backend marked unavailable and the database
    file missing, a thread that has no connection yet gets an exception, not
    a fallback connection. *)
Lemma unavailable_counterexample :
  let e := {| heartbeat := false; probe := λ _, GetClientRaises; db_exists := false |} in
  let s := snd (_try_clickhouse_with_retry default_config (probe e) init_state) in
  _ch_available (self s) = Some false ∧
  get_connection default_config e 0%nat s = (Raise BackendUnavailable, s).
Proof. split; reflexivity. Qed.

(** C2, amended. With the backend marked unavailable, [get_connection]
    takes no lock and sends nothing to the primary backend; it hands back the
    calling thread's fallback connection (the cached one, or a new one when
    the database file exists), or raises when the thread has none and the
    file is missing. Availability stays [False] over any sequence of calls
    other than [close_all], which resets it to [None]. *)
Theorem unavailable_is_terminal (cfg : config) (e : env) (t : nat) (s : state) :
  _ch_available (self s) = Some false →
  (∃ r s' evs,
     get_connection cfg e t s = (r, s') ∧
     trace s' = trace s ++ evs ∧
     Forall (λ ev, gate_event ev = false) evs ∧
     _ch_available (self s') = Some false ∧
     _ch_client (self s') = _ch_client (self s) ∧
     match _thread_local (self s) !! t with
     | Some c => r = Ok (ConnObj c, true) ∧ s' = s
     | None =>
         if db_exists e
         then r = Ok (ConnObj (next_obj s), true) ∧
              evs = [EvSqliteConnect (next_obj s)] ∧
              _thread_local (self s') !! t = Some (next_obj s)
         else r = Raise BackendUnavailable ∧ s' = s
     end) ∧
  (∀ calls, Forall (λ tc : nat * call, is_close_all tc.2 = false) calls →
     quiet s (snd (run cfg calls s)) ∧
     _ch_available (self (snd (run cfg calls s))) = Some false) ∧
  (∀ cr api, _ch_available (self (close_all cr api s)) = None).
Proof.
  intros Ha. split_and!.
  - rewrite get_connection_unavailable by done.
    destruct (_thread_local (self s) !! t) as [c|] eqn:Hslot.
    + rewrite (get_sqlite_conn_cached _ t s c Hslot).
      exists (Ok (ConnObj c, true)), s, []. rewrite app_nil_r. by split_and!.
    + destruct (db_exists e).
      * destruct (get_sqlite_conn_opens t s Hslot)
          as (s' & -> & Htr & _ & Htl & _ & _ & Hc & Ha' & _).
        exists (Ok (ConnObj (next_obj s), true)), s', [EvSqliteConnect (next_obj s)].
        split_and!; try done; [by repeat constructor | congruence |].
        by rewrite Htl, lookup_insert_eq.
      * rewrite (get_sqlite_conn_missing t s Hslot).
        exists (Raise BackendUnavailable), s, []. rewrite app_nil_r. by split_and!.
  - intros calls Hcalls. pose proof (run_unavailable cfg calls s Hcalls Ha) as Hq.
    split; [done|]. by rewrite (q_available _ _ Hq).
  - intros cr api. by rewrite close_all_self.
Qed.

Lemma unavailable_is_terminal_witness :
  let e := {| heartbeat := false; probe := λ _, GetClientRaises; db_exists := true |} in
  let s := snd (_try_clickhouse_with_retry default_config (probe e) init_state) in
  (∃ r s' evs,
     get_connection default_config e 0%nat s = (r, s') ∧
     trace s' = trace s ++ evs ∧
     Forall (λ ev, gate_event ev = false) evs ∧
     _ch_available (self s') = Some false ∧
     _ch_client (self s') = _ch_client (self s) ∧
     match _thread_local (self s) !! 0%nat with
     | Some c => r = Ok (ConnObj c, true) ∧ s' = s
     | None =>
         if db_exists e
         then r = Ok (ConnObj (next_obj s), true) ∧
              evs = [EvSqliteConnect (next_obj s)] ∧
              _thread_local (self s') !! 0%nat = Some (next_obj s)
         else r = Raise BackendUnavailable ∧ s' = s
     end) ∧
  (∀ calls, Forall (λ tc : nat * call, is_close_all tc.2 = false) calls →
     quiet s (snd (run default_config calls s)) ∧
     _ch_available (self (snd (run default_config calls s))) = Some false) ∧
  (∀ cr api, _ch_available (self (close_all cr api s)) = None).
Proof.
  intros e s. apply (unavailable_is_terminal default_config e 0%nat s). reflexivity.
Defined.

(** *** A dead cached handle *)

Lemma check_cached_alive e s c :
  _ch_available (self s) = Some true → _ch_client (self s) = Some c →
  heartbeat e = true →
  check_cached e s = inl ((ClientObj c, false), emit (EvQuery c) s).
Proof.
  intros Ha Hc Hb. unfold check_cached. rewrite Ha, Hc, Hb. simpl. by rewrite Hc.
Qed.

Lemma check_cached_dead e s c :
  _ch_available (self s) = Some true → _ch_client (self s) = Some c →
  heartbeat e = false →
  check_cached e s = inr (invalidated c s).
Proof.
  intros Ha Hc Hb. unfold check_cached. rewrite Ha, Hc, Hb. simpl. by rewrite Ha.
Qed.

Lemma reconnect_unknown cfg e s :
  _ch_available (self s) = None →
  reconnect cfg e s =
    match _try_clickhouse_with_retry cfg (probe e) (emit EvLockAcquire s) with
    | (true, s') => inl ((obj_of (_ch_client (self s')), false), emit EvLockRelease s')
    | (false, s') => inr (emit EvLockRelease s')
    end.
Proof.
  intros Ha. unfold reconnect. rewrite Ha. simpl. rewrite Ha.
  by destruct (_try_clickhouse_with_retry _ _ _) as [[] s'].
Qed.

(** C3 as stated fails: the heartbeat on the cached client fails, no
    reconnect attempt is answered, the database file is missing and the
    thread has no connection yet; the call raises, handing back neither a
    new client nor a fallback connection. *)
Lemma dead_handle_counterexample :
  let up := {| heartbeat := true; probe := λ _, Responds; db_exists := false |} in
  let down := {| heartbeat := false; probe := λ _, GetClientRaises; db_exists := false |} in
  let s := snd (get_connection default_config up 0%nat init_state) in
  _ch_available (self s) = Some true ∧
  _ch_client (self s) = Some 0%nat ∧
  fst (get_connection default_config down 0%nat s) = Raise BackendUnavailable.
Proof. split_and!; reflexivity. Qed.

(** C3, amended. When the backend is marked available and the heartbeat on
    the cached client fails, the same call never hands back that client and
    does not leave it cached: it hands back a client created by a reconnect
    attempt that was answered, which is then the cached one, or the thread's
    fallback connection, or it raises because the thread has no fallback
    connection and the database file is missing. With a heartbeat that
    succeeds the cached client is handed back. *)
Theorem dead_handle_never_returned
    (cfg : config) (e : env) (t : nat) (s : state) (c : nat) :
  wf s →
  _ch_available (self s) = Some true →
  _ch_client (self s) = Some c →
  heartbeat e = false →
  (∃ r s',
     get_connection cfg e t s = (r, s') ∧
     (∀ b, r ≠ Ok (ClientObj c, b)) ∧
     _ch_client (self s') ≠ Some c ∧
     ((∃ c', r = Ok (ClientObj c', false) ∧ c' ≠ c ∧
             _ch_client (self s') = Some c' ∧
             _ch_available (self s') = Some true ∧
             ∃ k, k ∈ py_range 1 (CH_MAX_RETRIES cfg + 1) ∧ probe e k = Responds)
      ∨ (∃ k, r = Ok (ConnObj k, true) ∧
              _thread_local (self s') !! t = Some k ∧
              _ch_available (self s') = Some false)
      ∨ (r = Raise BackendUnavailable ∧
         _thread_local (self s) !! t = None ∧ db_exists e = false ∧
         _ch_available (self s') = Some false))) ∧
  (∀ e', heartbeat e' = true →
     get_connection cfg e' t s = (Ok (ClientObj c, false), emit (EvQuery c) s)).
Proof.
  intros Hwf Ha Hc Hb. split.
  2:{ intros e' He'. unfold get_connection. by rewrite (check_cached_alive e' s c). }
  assert (Hold : (c < next_obj s)%nat) by by apply (wf_client s Hwf).
  unfold get_connection. rewrite (check_cached_dead e s c) by done.
  rewrite reconnect_unknown by done.
  unfold _try_clickhouse_with_retry.
  pose proof (retry_loop_gate cfg (probe e) (py_range 1 (CH_MAX_RETRIES cfg + 1))
                (CH_RETRY_BASE_DELAY cfg) (emit EvLockAcquire (invalidated c s))) as Hloop.
  destruct (retry_loop _ _ _ _ _) as [[] s1].
  - (* an attempt was answered *)
    destruct Hloop as (Hg & Ha1 & (c' & Hc' & Hn) & Hk). simpl in Hn.
    eexists _, _. split; [done|]. simpl. rewrite Hc'. simpl.
    split_and!.
    + intros b [= ->]. lia.
    + intros [= ->]. lia.
    + left. exists c'. split_and!; try done. lia.
  - (* no attempt was answered: the fallback pool decides *)
    destruct Hloop as (Hg & Ha1 & Hc1 & _).
    pose proof (go_slots _ _ Hg) as Hslots. simpl in Hslots, Hc1.
    set (s2 := emit EvLockRelease s1).
    assert (Hs2 : _thread_local (self s2) = _thread_local (self s)) by done.
    destruct (_thread_local (self s) !! t) as [k|] eqn:Hslot.
    + rewrite (get_sqlite_conn_cached _ t s2 k) by by rewrite Hs2.
      eexists _, _. split; [done|]. split_and!; try done.
      * simpl. by rewrite Hc1.
      * right. left. exists k. split_and!; try done. by rewrite Hs2.
    + destruct (db_exists e) eqn:Hdb.
      * destruct (get_sqlite_conn_opens t s2 ltac:(by rewrite Hs2))
          as (s3 & -> & _ & _ & Htl & _ & _ & Hc3 & Ha3 & _).
        eexists _, _. split; [done|]. split_and!; try done.
        -- rewrite Hc3. simpl. by rewrite Hc1.
        -- right. left. eexists. split_and!; try done.
           ++ by rewrite Htl, lookup_insert_eq.
           ++ by rewrite Ha3.
      * rewrite (get_sqlite_conn_missing t s2) by by rewrite Hs2.
        eexists _, _. split; [done|]. split_and!; try done.
        -- simpl. by rewrite Hc1.
        -- right. right. by split_and!.
Qed.

(** ** Well-formedness and the fallback pool over sequences of calls *)

Lemma wf_init : wf init_state.
Proof. split; simpl; [done | intros t c | intros t1 t2 c]; by rewrite lookup_empty. Qed.

Lemma wf_gate_only s s' : gate_only s s' → wf s → wf s'.
Proof.
  intros [Hs _ Hn _ Hk] [Hc Hsl Hinj]. split.
  - intros c Hc'. destruct (Hk c Hc') as [Hold|Hnew]; [|lia].
    specialize (Hc c Hold). lia.
  - intros t c. rewrite Hs. intros H. specialize (Hsl t c H). lia.
  - intros t1 t2 c. rewrite Hs. apply Hinj.
Qed.

Lemma check_cached_gate e s :
  match check_cached e s with
  | inl (r, s') => gate_only s s' ∧ ∃ o, r = (obj_of o, false)
  | inr s' => gate_only s s'
  end.
Proof.
  unfold check_cached.
  destruct (_ch_available (self s)) as [[]|] eqn:Ha; try apply gate_only_refl.
  destruct (_ch_client (self s)) as [c|] eqn:Hc; try apply gate_only_refl.
  destruct (heartbeat e); simpl; rewrite ?Ha; [split; [|by eexists]|]; gate_chain.
Qed.

Lemma reconnect_gate cfg e s :
  match reconnect cfg e s with
  | inl (r, s') => gate_only s s' ∧ ∃ o, r = (obj_of o, false)
  | inr s' => gate_only s s'
  end.
Proof.
  destruct (_ch_available (self s)) as [b|] eqn:Ha.
  - unfold reconnect. rewrite Ha. apply gate_only_refl.
  - rewrite reconnect_unknown by done. unfold _try_clickhouse_with_retry.
    pose proof (retry_loop_gate cfg (probe e) (py_range 1 (CH_MAX_RETRIES cfg + 1))
                  (CH_RETRY_BASE_DELAY cfg) (emit EvLockAcquire s)) as Hloop.
    destruct (retry_loop _ _ _ _ _) as [[] s1]; destruct Hloop as (Hg & _).
    + split; [|by eexists].
      eapply gate_only_trans; [by apply (gate_only_emit EvLockAcquire)|].
      eapply gate_only_trans; [exact Hg|]. by apply gate_only_emit.
    + eapply gate_only_trans; [by apply (gate_only_emit EvLockAcquire)|].
      eapply gate_only_trans; [exact Hg|]. by apply gate_only_emit.
Qed.

Lemma slots_kept_refl s : slots_kept s s.
Proof. by intros t c. Qed.

Lemma slots_kept_trans s1 s2 s3 : slots_kept s1 s2 → slots_kept s2 s3 → slots_kept s1 s3.
Proof. intros H1 H2 t c H. by apply H2, H1. Qed.

Lemma slots_kept_eq s s' :
  _thread_local (self s') = _thread_local (self s) → slots_kept s s'.
Proof. intros H t c. by rewrite H. Qed.

(** What [_get_sqlite_conn] does to a well-formed state. *)
Lemma sqlite_conn_pool b t s :
  wf s →
  match _get_sqlite_conn b t s with
  | (Ok c, s') => wf s' ∧ slots_kept s s' ∧ _thread_local (self s') !! t = Some c
  | (Raise _, s') => s' = s
  end.
Proof.
  intros Hwf. destruct (_thread_local (self s) !! t) as [c|] eqn:Hslot.
  - rewrite (get_sqlite_conn_cached b t s c Hslot).
    split_and!; [done | apply slots_kept_refl | done].
  - destruct b; [|by rewrite (get_sqlite_conn_missing t s Hslot)].
    destruct (get_sqlite_conn_opens t s Hslot)
      as (s' & -> & _ & Hn & Htl & _ & _ & Hc & _).
    destruct Hwf as [Hwc Hws Hwi]. split_and!.
    + split.
      * intros c. rewrite Hc, Hn. intros H. specialize (Hwc c H). lia.
      * intros t' c. rewrite Htl, Hn, lookup_insert.
        case_decide; [intros [= <-]; lia|]. intros Hl. specialize (Hws t' c Hl). lia.
      * intros t1 t2 c. rewrite Htl, !lookup_insert.
        repeat case_decide; subst; try done.
        -- intros [= <-] Hl. specialize (Hws t2 _ Hl). lia.
        -- intros Hl [= <-]. specialize (Hws t1 _ Hl). lia.
        -- apply Hwi.
    + intros t' c H. rewrite Htl, lookup_insert_ne; [done|]. congruence.
    + by rewrite Htl, lookup_insert_eq.
Qed.

Lemma wf_same_pool s s' :
  _thread_local (self s') = _thread_local (self s) →
  _ch_client (self s') = _ch_client (self s) ∨ _ch_client (self s') = None →
  (next_obj s ≤ next_obj s')%nat →
  wf s → wf s'.
Proof.
  intros Htl Hc Hn [Hwc Hws Hwi]. split.
  - intros c H. destruct Hc as [Hc|Hc]; rewrite Hc in H; [|done].
    specialize (Hwc c H). lia.
  - intros t c. rewrite Htl. intros H. specialize (Hws t c H). lia.
  - intros t1 t2 c. rewrite Htl. apply Hwi.
Qed.


Lemma get_connection_pool cfg e t s :
  wf s →
  match get_connection cfg e t s with
  | (Ok (ConnObj k, _), s') =>
      wf s' ∧ slots_kept s s' ∧ _thread_local (self s') !! t = Some k
  | (_, s') => wf s' ∧ slots_kept s s'
  end.
Proof.
  intros Hwf. unfold get_connection.
  pose proof (check_cached_gate e s) as H1.
  destruct (check_cached e s) as [[r s1]|s1].
  { destruct H1 as (Hg & o & ->).
    destruct o; simpl; (split; [by eapply wf_gate_only | by apply slots_kept_eq, go_slots]). }
  pose proof (reconnect_gate cfg e s1) as H2.
  destruct (reconnect cfg e s1) as [[r s2]|s2].
  { destruct H2 as (Hg & o & ->).
    assert (gate_only s s2) as Hg' by by eapply gate_only_trans.
    destruct o; simpl; (split; [by eapply wf_gate_only | by apply slots_kept_eq, go_slots]). }
  assert (gate_only s s2) as Hg by by eapply gate_only_trans.
  pose proof (sqlite_conn_pool (db_exists e) t s2 (wf_gate_only _ _ Hg Hwf)) as H3.
  destruct (_get_sqlite_conn (db_exists e) t s2) as [[k|x] s3].
  - destruct H3 as (Hwf3 & Hk & Hslot). split_and!; try done.
    eapply slots_kept_trans; [by apply slots_kept_eq, go_slots | done].
  - subst s3. split; [by eapply wf_gate_only | by apply slots_kept_eq, go_slots].
Qed.

Lemma sqlite_cursor_after b t body s :
  ∃ s1, snd (_get_sqlite_conn b t s) = s1 ∧
    self (snd (get_sqlite_cursor b t body s)) = self s1 ∧
    (next_obj s1 ≤ next_obj (snd (get_sqlite_cursor b t body s)))%nat.
Proof.
  unfold get_sqlite_cursor.
  destruct (_get_sqlite_conn b t s) as [[c|x] s1]; simpl; eexists; split; try done.
  destruct (conn_closed c (trace s1)); [done|].
  destruct (body (next_obj s1)); simpl; split; (done || lia).
Qed.

Lemma date_range_self f db sq now s :
  _thread_local (self (snd (get_date_range_cached f db sq now s))) = _thread_local (self s) ∧
  _ch_client (self (snd (get_date_range_cached f db sq now s))) = _ch_client (self s) ∧
  next_obj (snd (get_date_range_cached f db sq now s)) = next_obj s.
Proof.
  destruct (cache_valid now s) eqn:Hc.
  - by rewrite date_range_hit.
  - rewrite date_range_miss by done. by destruct (f db sq).
Qed.

Lemma run_call_pool cfg t c s :
  wf s →
  wf (snd (run_call cfg t c s)) ∧
  slots_kept s (snd (run_call cfg t c s)) ∧
  (∀ k, fst (run_call cfg t c s) = Some k →
        _thread_local (self (snd (run_call cfg t c s))) !! t = Some k).
Proof.
  intros Hwf. destruct c as [e|b|b body|f db sq now|cr api]; simpl.
  - pose proof (get_connection_pool cfg e t s Hwf) as H.
    destruct (get_connection cfg e t s) as [[[[| |k] sq]|x] s']; simpl;
      try (destruct H as [? ?]; by split_and!).
    destruct H as (? & ? & ?). split_and!; try done. by intros k' [= <-].
  - pose proof (sqlite_conn_pool b t s Hwf) as H.
    destruct (_get_sqlite_conn b t s) as [[k|x] s']; simpl.
    + destruct H as (? & ? & ?). split_and!; try done. by intros k' [= <-].
    + subst s'. split_and!; [done | apply slots_kept_refl | done].
  - pose proof (sqlite_conn_pool b t s Hwf) as H.
    destruct (sqlite_cursor_after b t body s) as (s1 & Hs1 & Hself & Hn).
    destruct (_get_sqlite_conn b t s) as [[k|x] s']; simpl in *; subst s1.
    + destruct H as (Hwf' & Hk & Hslot). split_and!.
      * eapply wf_same_pool; [by rewrite Hself | left; by rewrite Hself | exact Hn | done].
      * eapply slots_kept_trans; [exact Hk|]. apply slots_kept_eq. by rewrite Hself.
      * intros k' [= <-]. by rewrite Hself.
    + subst s'. split_and!; [|by apply slots_kept_eq; rewrite Hself | done].
      eapply wf_same_pool; [by rewrite Hself | left; by rewrite Hself | exact Hn | done].
  - destruct (date_range_self f db sq now s) as (Htl & Hc & Hn). split_and!; [| |done].
    + eapply wf_same_pool; [done | by left | lia | done].
    + by apply slots_kept_eq.
  - split_and!; [| |done].
    + eapply wf_same_pool; [| right | | done].
      * by rewrite close_all_self.
      * by rewrite close_all_self.
      * by rewrite close_all_next_obj.
    + apply slots_kept_eq. by rewrite close_all_self.
Qed.

Lemma run_pool cfg calls : ∀ s,
  wf s →
  wf (snd (run cfg calls s)) ∧
  slots_kept s (snd (run cfg calls s)) ∧
  granted_in_slots (fst (run cfg calls s)) (snd (run cfg calls s)).
Proof.
  induction calls as [|[t c] calls IH]; intros s Hwf; simpl.
  - split_and!; [done | apply slots_kept_refl | by intros t c H%elem_of_nil].
  - destruct (run_call_pool cfg t c s Hwf) as (Hwf1 & Hk1 & Hg1).
    destruct (run_call cfg t c s) as [g s1]. simpl in *.
    destruct (IH s1 Hwf1) as (Hwf2 & Hk2 & Hg2).
    destruct (run cfg calls s1) as [gs s2]. simpl in *.
    split_and!; [done | by eapply slots_kept_trans |].
    destruct g as [k|]; [|done].
    intros t' c' [[= -> ->]|Hin]%elem_of_cons; [|by apply Hg2].
    by apply Hk2, Hg1.
Qed.

(** C6. Over any sequence of calls into the manager by any threads, starting
    from the initial state: a fallback connection handed to one thread is
    never handed to another, every fallback connection handed to a thread is
    the same one, and from then on [_get_sqlite_conn] hands that thread this
    connection whatever the state of the file, and [get_connection] hands it
    this connection whenever it hands it a fallback connection. *)
Theorem fallback_connection_per_thread (cfg : config) (calls : list (nat * call)) :
  let gs := fst (run cfg calls init_state) in
  let s := snd (run cfg calls init_state) in
  (∀ t1 t2 c, (t1, c) ∈ gs → (t2, c) ∈ gs → t1 = t2) ∧
  (∀ t c1 c2, (t, c1) ∈ gs → (t, c2) ∈ gs → c1 = c2) ∧
  (∀ t c, (t, c) ∈ gs →
     (∀ b, _get_sqlite_conn b t s = (Ok c, s)) ∧
     (∀ e, ∃ r s', get_connection cfg e t s = (Ok r, s') ∧
                   (r.2 = true → r.1 = ConnObj c) ∧
                   (∀ k, r.1 = ConnObj k → k = c))).
Proof.
  intros gs s.
  destruct (run_pool cfg calls init_state wf_init) as (Hwf & _ & Hg).
  fold gs s in Hwf, Hg. split_and!.
  - intros t1 t2 c H1 H2. eapply (wf_slots_inj s Hwf); by apply Hg.
  - intros t c1 c2 H1 H2. apply Hg in H1, H2. congruence.
  - intros t c Hin. apply Hg in Hin. split.
    + intros b. by apply get_sqlite_conn_cached.
    + intros e. unfold get_connection.
      pose proof (check_cached_gate e s) as H1.
      destruct (check_cached e s) as [[r s1]|s1].
      { destruct H1 as (_ & o & ->). eexists _, _. split; [done|].
        split; [done|]. by destruct o. }
      pose proof (reconnect_gate cfg e s1) as H2.
      destruct (reconnect cfg e s1) as [[r s2]|s2].
      { destruct H2 as (_ & o & ->). eexists _, _. split; [done|].
        split; [done|]. by destruct o. }
      rewrite (get_sqlite_conn_cached _ t s2 c).
      * eexists _, _. split; [done|]. split; [done|]. by intros k [= <-].
      * by rewrite (go_slots _ _ H2), (go_slots _ _ H1).
Qed.

Example two_threads_two_connections :
  let e := {| heartbeat := false; probe := λ _, GetClientRaises; db_exists := true |} in
  fst (run default_config
         [(0%nat, GetConnection e); (1%nat, GetConnection e); (0%nat, GetSqliteConn false);
          (0%nat, CloseAll (λ _, false) HasClose); (1%nat, GetSqliteConn true)]
         init_state)
  = [(0, 0); (1, 1); (0, 0); (1, 1)]%nat.
Proof. reflexivity. Qed.

Lemma dead_handle_never_returned_witness :
  let up := {| heartbeat := true; probe := λ _, Responds; db_exists := true |} in
  let down := {| heartbeat := false;
                 probe := λ k, if bool_decide (k = 2) then Responds else QueryRaises;
                 db_exists := true |} in
  let s := snd (run default_config [(0%nat, GetConnection up)] init_state) in
  (∃ r s',
     get_connection default_config down 0%nat s = (r, s') ∧
     (∀ b, r ≠ Ok (ClientObj 0%nat, b)) ∧
     _ch_client (self s') ≠ Some 0%nat ∧
     ((∃ c', r = Ok (ClientObj c', false) ∧ c' ≠ 0%nat ∧
             _ch_client (self s') = Some c' ∧
             _ch_available (self s') = Some true ∧
             ∃ k, k ∈ py_range 1 (CH_MAX_RETRIES default_config + 1) ∧ probe down k = Responds)
      ∨ (∃ k, r = Ok (ConnObj k, true) ∧
              _thread_local (self s') !! 0%nat = Some k ∧
              _ch_available (self s') = Some false)
      ∨ (r = Raise BackendUnavailable ∧
         _thread_local (self s) !! 0%nat = None ∧ db_exists down = false ∧
         _ch_available (self s') = Some false))) ∧
  (∀ e', heartbeat e' = true →
     get_connection default_config e' 0%nat s = (Ok (ClientObj 0%nat, false), emit (EvQuery 0%nat) s)).
Proof.
  intros up down s.
  apply (dead_handle_never_returned default_config down 0%nat s 0%nat).
  - exact (proj1 (run_pool default_config [(0%nat, GetConnection up)] init_state wf_init)).
  - reflexivity.
  - reflexivity.
  - reflexivity.
Defined.

(** Scenario B of the specification: the second attempt is answered; the
    client is cached and later calls only send the heartbeat. *)
Example reconnect_on_second_attempt :
  let e := {| heartbeat := true;
              probe := λ k, if bool_decide (k = 2) then Responds else GetClientRaises;
              db_exists := true |} in
  let '(r1, s1) := get_connection default_config e 0%nat init_state in
  let '(r2, s2) := get_connection default_config e 1%nat s1 in
  r1 = Ok (ClientObj 0%nat, false) ∧ r2 = Ok (ClientObj 0%nat, false) ∧
  trace s1 = [EvLockAcquire; EvGetClient 1; EvSleep 1%Qc; EvGetClient 2; EvQuery 0%nat;
              EvLockRelease] ∧
  trace s2 = trace s1 ++ [EvQuery 0%nat].
Proof. split_and!; reflexivity. Qed.

(** ** Concurrent callers *)

Lemma run_schedule_reachable cfg sched : ∀ y0 y y',
  reachable cfg y0 y → run_schedule cfg sched y = Some y' → reachable cfg y0 y'.
Proof.
  induction sched as [|[t e] sched IH]; intros y0 y y' Hr Hrun; simpl in Hrun.
  - by injection Hrun as <-.
  - destruct (thread_step cfg e t y) as [y1|] eqn:Hstep; [|done].
    eapply IH; [|exact Hrun]. by eapply reachable_step.
Qed.

(** C4 as stated fails: while thread 0 sleeps inside the retry routine,
    holding the lock, thread 1, which also found the availability unknown, is
    at line 164 and cannot take a step; it waits for the lock instead of
    being handed a fallback connection. *)
Lemma concurrent_callers_counterexample :
  let e := {| heartbeat := false; probe := λ _, GetClientRaises; db_exists := true |} in
  ∃ y,
    run_schedule default_config [(0, e); (0, e); (0, e); (0, e); (1, e)]%nat
      (arrivals 2 init_state) = Some y ∧
    pcs y = [L90 [2; 3] (1 * 2)%Qc; L164] ∧
    ch_lock y = Some 0%nat ∧
    reconnects y = [0%nat] ∧
    trace (shared y) = [EvLockAcquire; EvGetClient 1; EvSleep 1%Qc] ∧
    stuck default_config 1%nat y.
Proof.
  intros e. eexists. split; [reflexivity|].
  split_and!; try reflexivity. intros e'. reflexivity.
Qed.

Lemma thread_inv_frame_holder lk m recs lk' m' recs' t t' p :
  t ≠ t' →
  lk = Some t ∨ lk = None →
  lk' = Some t ∨ lk' = None →
  (recs ≠ [] → recs' = recs) →
  thread_inv lk m recs t' p → thread_inv lk' m' recs' t' p.
Proof.
  intros Hne Hlk Hlk' Hrecs.
  assert (Hno : lk ≠ Some t') by (destruct Hlk as [->| ->]; congruence).
  assert (Hno' : lk' ≠ Some t') by (destruct Hlk' as [->| ->]; congruence).
  destruct p; simpl; try done; try (by intros [? _]).
  - intros (_ & Hr). split; [done|]. by rewrite Hrecs.
  - intros (_ & Hr & Hres). rewrite Hrecs by done. by split_and!.
Qed.

Lemma thread_inv_frame_same lk m m' recs t' p :
  _ch_available m' = _ch_available m →
  _ch_client m' = _ch_client m →
  thread_inv lk m recs t' p → thread_inv lk m' recs t' p.
Proof. intros Ha Hc. destruct p; simpl; rewrite ?Ha, ?Hc; done. Qed.

Lemma pcs_goto_lookup y t pold pnew t' p' :
  pcs y !! t = Some pold →
  <[t := pnew]> (pcs y) !! t' = Some p' →
  (t' = t ∧ p' = pnew) ∨ (t' ≠ t ∧ pcs y !! t' = Some p').
Proof.
  intros Hp. destruct (decide (t' = t)) as [->|Hne].
  - rewrite list_lookup_insert_eq by by eapply lookup_lt_Some.
    intros [= <-]. by left.
  - rewrite list_lookup_insert_ne by done. by right.
Qed.

Section StepInvariant.
Context (y : system) (t : nat) (pold : pc).
Hypothesis Hinv : inv y.
Hypothesis Hpold : pcs y !! t = Some pold.

(** The threads after [t] moved to [pnew]: [t] itself, and the others by a
    frame argument. *)
Lemma threads_after pnew lk' m' recs' :
  thread_inv lk' m' recs' t pnew →
  (∀ t' p', t' ≠ t →
     thread_inv (ch_lock y) (self (shared y)) (reconnects y) t' p' →
     thread_inv lk' m' recs' t' p') →
  ∀ t' p', <[t := pnew]> (pcs y) !! t' = Some p' → thread_inv lk' m' recs' t' p'.
Proof.
  intros Hnew Hframe t' p' Hl.
  destruct (pcs_goto_lookup y t pold pnew t' p' Hpold Hl) as [[-> ->]|[Hne Hold]]; [done|].
  apply Hframe; [done|]. by apply (inv_threads y Hinv).
Qed.

(** Nobody is inside the retry routine but possibly [t]. *)
Lemma inflight_after pnew (avail' : option bool) (recs' : list nat) :
  (avail' = None → _ch_available (self (shared y)) = None) →
  (∀ t0, t0 ∈ recs' → t0 ≠ t → t0 ∈ reconnects y) →
  (avail' = None → t ∈ recs' → ∃ a d, pnew = L90 a d) →
  avail' = None → ∀ t0, t0 ∈ recs' → ∃ a d, <[t := pnew]> (pcs y) !! t0 = Some (L90 a d).
Proof.
  intros Ha Hrecs Hself Hnone t0 Hin.
  destruct (decide (t0 = t)) as [->|Hne].
  - destruct (Hself Hnone Hin) as (a & d & ->). exists a, d.
    apply list_lookup_insert_eq. by eapply lookup_lt_Some.
  - rewrite list_lookup_insert_ne by done.
    apply (inv_inflight y Hinv); [by apply Ha | by apply Hrecs].
Qed.

Lemma holder_after pnew (lk' : option nat) :
  (∀ t0, lk' = Some t0 → (t0 = t ∧ holds_lock pnew = true) ∨ (t0 ≠ t ∧ ch_lock y = Some t0)) →
  ∀ t0, lk' = Some t0 → ∃ p, <[t := pnew]> (pcs y) !! t0 = Some p ∧ holds_lock p = true.
Proof.
  intros H t0 Hl. destruct (H t0 Hl) as [[-> Hh]|[Hne Hold]].
  - exists pnew. split; [|done]. apply list_lookup_insert_eq. by eapply lookup_lt_Some.
  - rewrite list_lookup_insert_ne by done. by apply (inv_holder y Hinv).
Qed.

(** Before anyone reconnected the availability is unknown; so whoever has
    left line 163 or 165 by the other branch knows that someone did. *)
Lemma reconnected_if_known b :
  _ch_available (self (shared y)) = Some b → reconnects y ≠ [].
Proof. intros Ha Hr. apply (inv_fresh y Hinv) in Hr. congruence. Qed.

(** At line 165, holding the lock and finding the availability still
    unknown, [t] is the first to reconnect. *)
Lemma first_to_reconnect :
  pold = L165 → _ch_available (self (shared y)) = None → reconnects y = [].
Proof.
  intros -> Ha.
  pose proof (inv_once y Hinv) as Hlen.
  destruct (reconnects y) as [|t0 [|t1 l]] eqn:Hr; [done| |simpl in Hlen; lia].
  exfalso.
  destruct (inv_inflight y Hinv Ha t0) as (a & d & Ht0); [rewrite Hr; by left|].
  pose proof (inv_threads y Hinv t0 _ Ht0) as (Hlk0 & _).
  pose proof (inv_threads y Hinv t _ Hpold) as Hlk. simpl in Hlk.
  assert (t0 = t) as -> by congruence. congruence.
Qed.
End StepInvariant.

Lemma inv_arrivals n s : _ch_available (self s) = None → inv (arrivals n s).
Proof.
  intros Ha. split; simpl; try done.
  - intros t p [-> _]%lookup_replicate. done.
  - intros _ t Hin. by apply elem_of_nil in Hin.
  - lia.
Qed.

Lemma sqlite_conn_result b t s :
  (∃ c, fst (_get_sqlite_conn b t s) = Ok c) ∨
  fst (_get_sqlite_conn b t s) = Raise BackendUnavailable.
Proof.
  destruct (_thread_local (self s) !! t) as [c|] eqn:Hslot.
  - rewrite (get_sqlite_conn_cached b t s c Hslot). left. by eexists.
  - destruct b.
    + destruct (get_sqlite_conn_opens t s Hslot) as (s' & -> & _). left. by eexists.
    + rewrite (get_sqlite_conn_missing t s Hslot). by right.
Qed.

(** The other threads, when the one that steps holds, takes or gives up the
    lock. *)
Ltac frame_holder t :=
  apply (thread_inv_frame_holder _ _ _ _ _ _ t);
  [ congruence
  | first [by left | by right | auto]
  | first [by left | by right | auto]
  | first [done | intros H; exfalso; by apply H | auto] ].

(** Every step keeps the invariant. *)
Lemma step_inv cfg e t y y' : inv y → thread_step cfg e t y = Some y' → inv y'.
Proof.
  intros Hinv Hstep. unfold thread_step in Hstep.
  destruct (pcs y !! t) as [p|] eqn:Hp; [|done].
  pose proof (inv_threads y Hinv t p Hp) as Ht.
  destruct p; simpl in Ht; try done.
  - (* line 163 *)
    destruct (_ch_available (self (shared y))) as [b|] eqn:Ha;
      injection Hstep as <-; split; simpl.
    + apply (threads_after y t L163 Hinv Hp); [|done]. simpl.
      split; [done | by eapply reconnected_if_known].
    + by apply (inv_fresh y Hinv).
    + rewrite Ha. done.
    + by apply (inv_once y Hinv).
    + apply (holder_after y t L163 Hinv Hp). intros t0 Hl. right. split; congruence.
    + by apply (threads_after y t L163 Hinv Hp).
    + by apply (inv_fresh y Hinv).
    + intros _. apply (inflight_after y t L163 Hinv Hp L164 None); try done.
      intros _ Hin. destruct (inv_inflight y Hinv Ha t Hin) as (a & d & ?). congruence.
    + by apply (inv_once y Hinv).
    + apply (holder_after y t L163 Hinv Hp). intros t0 Hl. right. split; congruence.
  - (* line 164 *)
    destruct (ch_lock y) as [t1|] eqn:Hlk; [done|].
    injection Hstep as <-. split; simpl.
    + apply (threads_after y t L164 Hinv Hp); [done|].
      intros t' p' Hne. rewrite Hlk.
      frame_holder t.
    + by apply (inv_fresh y Hinv).
    + intros Ha. apply (inflight_after y t L164 Hinv Hp L165 None); try done.
      intros _ Hin. destruct (inv_inflight y Hinv Ha t Hin) as (a & d & ?). congruence.
    + by apply (inv_once y Hinv).
    + apply (holder_after y t L164 Hinv Hp). intros t0 [= <-]. by left.
  - (* line 165 *)
    destruct (_ch_available (self (shared y))) as [b|] eqn:Ha;
      injection Hstep as <-; split; simpl.
    + apply (threads_after y t L165 Hinv Hp); [|done]. simpl.
      split; [done | by eapply reconnected_if_known].
    + by apply (inv_fresh y Hinv).
    + rewrite Ha. done.
    + by apply (inv_once y Hinv).
    + apply (holder_after y t L165 Hinv Hp). intros t0 Hl. left.
      split; [congruence | done].
    + rewrite (first_to_reconnect y t L165 Hinv Hp eq_refl Ha).
      apply (threads_after y t L165 Hinv Hp); [done|].
      intros t' p' Hne. rewrite (first_to_reconnect y t L165 Hinv Hp eq_refl Ha).
      frame_holder t.
    + rewrite (first_to_reconnect y t L165 Hinv Hp eq_refl Ha). done.
    + intros _. rewrite (first_to_reconnect y t L165 Hinv Hp eq_refl Ha).
      apply (inflight_after y t L165 Hinv Hp _ None); try done.
      * intros t0 [->|Hin%elem_of_nil]%elem_of_cons; done.
      * intros _ _. by eexists _, _.
    + rewrite (first_to_reconnect y t L165 Hinv Hp eq_refl Ha). simpl. lia.
    + apply (holder_after y t L165 Hinv Hp). intros t0 Hl. left.
      split; [congruence | done].
  - (* inside the retry routine *)
    destruct Ht as (Hlk & Hrecs & Ha).
    destruct attempts as [|a rest].
    + injection Hstep as <-. split; simpl.
      * apply (threads_after y t _ Hinv Hp); [simpl; by rewrite Hrecs|].
        intros t' p' Hne. frame_holder t.
      * by rewrite Hrecs.
      * done.
      * by apply (inv_once y Hinv).
      * apply (holder_after y t _ Hinv Hp). intros t0 Hl. left.
        split; [congruence | done].
    + pose proof (retry_body_gate cfg (probe e a) a delay (shared y)) as Hbody.
      destruct (retry_body cfg (probe e a) a delay (shared y)) as [s'|[delay' s']];
        injection Hstep as <-; split; simpl.
      * destruct Hbody as (_ & _ & _ & Hc & _).
        apply (threads_after y t _ Hinv Hp); [simpl; split_and!; by eauto|].
        intros t' p' Hne. frame_holder t.
      * by rewrite Hrecs.
      * destruct Hbody as (_ & _ & Ha' & _). by rewrite Ha'.
      * by apply (inv_once y Hinv).
      * apply (holder_after y t _ Hinv Hp). intros t0 Hl. left.
        split; [congruence | done].
      * destruct Hbody as (_ & _ & Hself).
        apply (threads_after y t _ Hinv Hp); [simpl; by rewrite Hself|].
        intros t' p' Hne. frame_holder t.
      * by rewrite Hrecs.
      * intros _. apply (inflight_after y t _ Hinv Hp _ None); try done.
        intros _ _. by eexists _, _.
      * by apply (inv_once y Hinv).
      * apply (holder_after y t _ Hinv Hp). intros t0 Hl. left.
        split; [congruence | done].
  - (* line 167 *)
    destruct Ht as (Hlk & Hrecs & c & Hc).
    injection Hstep as <-. split; simpl.
    + apply (threads_after y t _ Hinv Hp).
      * simpl. rewrite Hc. split_and!; [done | by rewrite Hrecs |].
        right. right. split; [done | by eexists].
      * intros t' p' Hne. frame_holder t.
    + by rewrite Hrecs.
    + intros Ha. apply (inflight_after y t _ Hinv Hp _ None); try done.
      intros _ Hin. destruct (inv_inflight y Hinv Ha t Hin) as (a & d & ?). congruence.
    + by apply (inv_once y Hinv).
    + by apply (holder_after y t _ Hinv Hp).
  - (* leaving the with block *)
    destruct Ht as (Hlk & Hrecs).
    injection Hstep as <-. split; simpl.
    + apply (threads_after y t _ Hinv Hp); [done|].
      intros t' p' Hne. frame_holder t.
    + by apply (inv_fresh y Hinv).
    + intros Ha. apply (inflight_after y t _ Hinv Hp _ None); try done.
      intros _ Hin. destruct (inv_inflight y Hinv Ha t Hin) as (a & d & ?). congruence.
    + by apply (inv_once y Hinv).
    + by apply (holder_after y t _ Hinv Hp).
  - (* line 170 *)
    destruct Ht as (Hlk & Hrecs).
    pose proof (sqlite_conn_quiet (db_exists e) t (shared y)) as [Ha Hc _].
    pose proof (sqlite_conn_result (db_exists e) t (shared y)) as Hres.
    destruct (_get_sqlite_conn (db_exists e) t (shared y)) as [[k|x] s'];
      injection Hstep as <-; simpl in *; split; simpl.
    + apply (threads_after y t _ Hinv Hp).
      * simpl. split_and!; [done | done | left; by eexists].
      * intros t' p' Hne. by apply thread_inv_frame_same.
    + rewrite Ha. by apply (inv_fresh y Hinv).
    + rewrite Ha. intros Ha'. apply (inflight_after y t _ Hinv Hp _ None); try done.
      intros _ Hin. destruct (inv_inflight y Hinv Ha' t Hin) as (a & d & ?). congruence.
    + by apply (inv_once y Hinv).
    + apply (holder_after y t _ Hinv Hp). intros t0 Hl. right. split; congruence.
    + apply (threads_after y t _ Hinv Hp).
      * simpl. split_and!; [done | done |]. right. left.
        destruct Hres as [[c Hk]|Hx]; [done | by injection Hx as ->].
      * intros t' p' Hne. by apply thread_inv_frame_same.
    + rewrite Ha. by apply (inv_fresh y Hinv).
    + rewrite Ha. intros Ha'. apply (inflight_after y t _ Hinv Hp _ None); try done.
      intros _ Hin. destruct (inv_inflight y Hinv Ha' t Hin) as (a & d & ?). congruence.
    + by apply (inv_once y Hinv).
    + apply (holder_after y t _ Hinv Hp). intros t0 Hl. right. split; congruence.
Qed.

Lemma thread_step_length cfg e t y y' :
  thread_step cfg e t y = Some y' → length (pcs y') = length (pcs y).
Proof.
  unfold thread_step. intros H.
  repeat case_match; simplify_eq; simpl; by rewrite length_insert.
Qed.

Lemma reachable_inv cfg n s y :
  _ch_available (self s) = None →
  reachable cfg (arrivals n s) y → inv y ∧ length (pcs y) = n.
Proof.
  intros Ha Hr. induction Hr as [|y t e y' _ [IHi IHl] Hstep].
  - split; [by apply inv_arrivals | apply length_replicate].
  - split; [by eapply step_inv|]. by rewrite (thread_step_length _ _ _ _ _ Hstep).
Qed.

(** A thread that cannot move has returned, or waits at line 164 for a lock
    whose holder can move. *)
Lemma stuck_waits cfg t y p :
  inv y → pcs y !! t = Some p → stuck cfg t y →
  (∃ r, p = Returned r) ∨
  (p = L164 ∧ ∃ t', t' ≠ t ∧ ch_lock y = Some t' ∧ ∀ e, thread_step cfg e t' y ≠ None).
Proof.
  intros Hinv Hp Hstuck.
  pose proof (inv_threads y Hinv t p Hp) as Ht.
  specialize (Hstuck {| heartbeat := false; probe := λ _, GetClientRaises; db_exists := false |}).
  unfold thread_step in Hstuck. rewrite Hp in Hstuck.
  destruct p; simpl in Ht; try done; try (by repeat case_match); [|by left; eexists].
  right. split; [done|].
  destruct (ch_lock y) as [t'|] eqn:Hlk; [|done].
  exists t'. split_and!; [congruence | done |].
  destruct (inv_holder y Hinv t' Hlk) as (p' & Hp' & Hh).
  pose proof (inv_threads y Hinv t' p' Hp') as Ht'.
  intros e. unfold thread_step. rewrite Hp'.
  destruct p'; simpl in Hh, Ht'; try done; by repeat case_match.
Qed.

Lemma sum_list_with_insert (f : pc → nat) (l : list pc) (t : nat) (p p' : pc) :
  l !! t = Some p →
  (sum_list_with f (<[t:=p']> l) + f p = sum_list_with f l + f p')%nat.
Proof.
  revert t. induction l as [|q l IH]; intros [|t] Hl; simpl in *; simplify_eq; [lia|].
  specialize (IH t Hl). lia.
Qed.

(** Every step brings the thread that takes it closer to its result and
    leaves the other threads where they are. *)
Lemma thread_step_pc cfg e t y y' :
  thread_step cfg e t y = Some y' →
  ∃ p p', pcs y !! t = Some p ∧ pcs y' = <[t:=p']> (pcs y) ∧
          (steps_left (max_attempts cfg) p' < steps_left (max_attempts cfg) p)%nat.
Proof.
  unfold thread_step, max_attempts. intros H.
  destruct (pcs y !! t) as [p|] eqn:Hp; [|done].
  destruct p; repeat case_match; simplify_eq; eexists _, _;
    (split_and!; [done | reflexivity | simpl; lia]).
Qed.

Lemma thread_step_total cfg e t y y' :
  thread_step cfg e t y = Some y' →
  (total_steps_left cfg y' < total_steps_left cfg y)%nat.
Proof.
  intros (p & p' & Hp & Hpcs & Hlt)%thread_step_pc. unfold total_steps_left.
  pose proof (sum_list_with_insert (steps_left (max_attempts cfg)) (pcs y) t p p' Hp).
  rewrite Hpcs. lia.
Qed.

Lemma run_schedule_total cfg sched : ∀ y y',
  run_schedule cfg sched y = Some y' →
  (length sched + total_steps_left cfg y' ≤ total_steps_left cfg y)%nat.
Proof.
  induction sched as [|[t e] sched IH]; intros y y' Hrun; simpl in *.
  - injection Hrun as <-. lia.
  - destruct (thread_step cfg e t y) as [y1|] eqn:Hstep; [|done].
    apply thread_step_total in Hstep. specialize (IH _ _ Hrun). lia.
Qed.

Lemma reachable_total cfg n s y :
  reachable cfg (arrivals n s) y →
  (total_steps_left cfg y ≤ n * (6 + max_attempts cfg))%nat.
Proof.
  induction 1 as [|y t e y' _ IH Hstep].
  - unfold total_steps_left. simpl. induction n as [|n IHn]; simpl in *; lia.
  - apply thread_step_total in Hstep. lia.
Qed.

(** The thread inside the [with] block can always move. *)
Lemma holder_moves cfg y t' :
  inv y → ch_lock y = Some t' → ∀ e, thread_step cfg e t' y ≠ None.
Proof.
  intros Hinv Hlk e.
  destruct (inv_holder y Hinv t' Hlk) as (p' & Hp' & Hh).
  pose proof (inv_threads y Hinv t' p' Hp') as Ht'.
  unfold thread_step. rewrite Hp'.
  destruct p'; simpl in Hh, Ht'; try done; by repeat case_match.
Qed.

(** Only the lock makes a caller wait. *)
Lemma stuck_iff cfg t y p :
  inv y → pcs y !! t = Some p →
  stuck cfg t y ↔
  (∃ r, p = Returned r) ∨ (p = L164 ∧ ∃ t', t' ≠ t ∧ ch_lock y = Some t').
Proof.
  intros Hinv Hp. split.
  - intros Hstuck.
    destruct (stuck_waits cfg t y p Hinv Hp Hstuck) as [?|(-> & t' & ? & ? & _)];
      [by left | right; split; [done | by exists t']].
  - intros [[r ->]|(-> & t' & _ & Hlk)] e; unfold thread_step; rewrite Hp; [done|].
    by rewrite Hlk.
Qed.

(** While a caller has not returned, some thread can move: there is no
    deadlock. *)
Lemma some_thread_moves cfg y t p :
  inv y → pcs y !! t = Some p → returned p = false →
  ∃ t', ∀ e, thread_step cfg e t' y ≠ None.
Proof.
  intros Hinv Hp Hret.
  pose proof (inv_threads y Hinv t p Hp) as Ht.
  assert (Hcases : p = L164 ∨ ∀ e, thread_step cfg e t y ≠ None).
  { destruct p; simpl in Ht, Hret; try done; try (by left);
      right; intros e; unfold thread_step; rewrite Hp; by repeat case_match. }
  destruct Hcases as [->|Hmove]; [|by exists t].
  destruct (ch_lock y) as [t'|] eqn:Hlk.
  - exists t'. by apply holder_moves.
  - exists t. intros e. unfold thread_step. by rewrite Hp, Hlk.
Qed.

Lemma all_returned_dec (l : list pc) :
  (∀ t p, l !! t = Some p → ∃ r, p = Returned r) ∨
  (∃ t p, l !! t = Some p ∧ returned p = false).
Proof.
  induction l as [|q l [IH|(t & p & Hp & Hr)]].
  - left. by intros t p.
  - destruct (returned q) eqn:Hq.
    + left. intros [|t] p Hp; simpl in Hp; [|by eapply IH].
      injection Hp as <-. destruct q; try done. by eexists.
    + right. by exists 0%nat, q.
  - right. by exists (S t), p.
Qed.

(** From any state the callers can be run to their results, and by steps
    under any one environment. *)
Lemma run_to_completion cfg e : ∀ k y,
  inv y → (total_steps_left cfg y ≤ k)%nat →
  ∃ sched y',
    run_schedule cfg sched y = Some y' ∧
    Forall (λ te : nat * env, te.2 = e) sched ∧
    ∀ t p, pcs y' !! t = Some p → ∃ r, p = Returned r.
Proof.
  induction k as [|k IH]; intros y Hinv Hk.
  - destruct (all_returned_dec (pcs y)) as [Hall|(t & p & Hp & Hr)].
    + by exists [], y.
    + destruct (some_thread_moves cfg y t p Hinv Hp Hr) as (t' & Hmove).
      destruct (thread_step cfg e t' y) as [y1|] eqn:Hstep; [|by destruct (Hmove e)].
      apply thread_step_total in Hstep. lia.
  - destruct (all_returned_dec (pcs y)) as [Hall|(t & p & Hp & Hr)].
    + by exists [], y.
    + destruct (some_thread_moves cfg y t p Hinv Hp Hr) as (t' & Hmove).
      destruct (thread_step cfg e t' y) as [y1|] eqn:Hstep; [|by destruct (Hmove e)].
      destruct (IH y1) as (sched & y' & Hrun & Hsched & Hall).
      * by eapply step_inv.
      * apply thread_step_total in Hstep. lia.
      * exists ((t', e) :: sched), y'. simpl. rewrite Hstep.
        split_and!; [done | by constructor | done].
Qed.

(** A caller that reads the availability at line 163 once it is known goes
    on to [_get_sqlite_conn] and returns what it gives, in two steps and
    without touching the lock. *)
Lemma late_caller_skips_lock cfg e t y :
  pcs y !! t = Some L163 → _ch_available (self (shared y)) ≠ None →
  ∃ y1 y2,
    thread_step cfg e t y = Some y1 ∧ thread_step cfg e t y1 = Some y2 ∧
    ch_lock y2 = ch_lock y ∧
    shared y2 = snd (_get_sqlite_conn (db_exists e) t (shared y)) ∧
    pcs y2 !! t =
      Some (Returned match fst (_get_sqlite_conn (db_exists e) t (shared y)) with
                     | Ok c => Ok (ConnObj c, true)
                     | Raise x => Raise x
                     end).
Proof.
  intros Hp Ha.
  assert (Hlt : (t < length (pcs y))%nat) by by eapply lookup_lt_Some.
  destruct (_ch_available (self (shared y))) as [b|] eqn:Hb; [|done].
  exists (goto t L170 y).
  assert (Hstep1 : thread_step cfg e t y = Some (goto t L170 y)).
  { unfold thread_step. by rewrite Hp, Hb. }
  destruct (_get_sqlite_conn (db_exists e) t (shared y)) as [[c|x] s'] eqn:Hconn;
    eexists;
    (split_and!;
     [ exact Hstep1
     | unfold thread_step; simpl; rewrite list_lookup_insert_eq by done;
       rewrite Hconn; reflexivity
     | done
     | done
     | simpl; rewrite list_lookup_insert_eq; [done | by rewrite length_insert] ]).
Qed.

(** C4, amended. Of [n] concurrent callers that found the availability
    unknown, at most one runs the reconnect routine, and exactly one once all
    have returned. A caller that did not run it gets a fallback connection or
    the missing-file error; the one that ran it may get the new client. The
    reconnect lock is held by at most the one thread inside its [with] block.
    A caller that reads the availability at line 163 while it is unknown goes
    to the lock, and there it waits: the callers that cannot move are exactly
    those that have returned and those at line 164 while another thread holds
    the lock. A caller that reads it once it is known takes the fallback at
    once, without touching the lock. Every caller gets its result: the
    thread that holds the lock can always move, no run from the arrival has
    more than [n * (6 + attempts)] steps, a state in which nobody can move is
    one in which all have returned, and from every state some schedule leads
    there. *)
Theorem single_reconnect_under_contention (cfg : config) (n : nat) (s0 : state) (y : system) :
  _ch_available (self s0) = None →
  reachable cfg (arrivals n s0) y →
  length (pcs y) = n ∧
  (length (reconnects y) ≤ 1)%nat ∧
  (∀ t r, pcs y !! t = Some (Returned r) →
     reconnects y ≠ [] ∧
     ((∃ c, r = Ok (ConnObj c, true)) ∨ r = Raise BackendUnavailable ∨
      (reconnects y = [t] ∧ ∃ c, r = Ok (ClientObj c, false)))) ∧
  ((0 < n)%nat → (∀ t p, pcs y !! t = Some p → ∃ r, p = Returned r) →
   length (reconnects y) = 1%nat) ∧
  (∀ t p, pcs y !! t = Some p → holds_lock p = true → ch_lock y = Some t) ∧
  (∀ t p, pcs y !! t = Some p →
     (stuck cfg t y ↔
      (∃ r, p = Returned r) ∨ (p = L164 ∧ ∃ t', t' ≠ t ∧ ch_lock y = Some t'))) ∧
  (∀ t', ch_lock y = Some t' → ∀ e, thread_step cfg e t' y ≠ None) ∧
  (∀ t e, pcs y !! t = Some L163 → _ch_available (self (shared y)) = None →
     ∃ y1, thread_step cfg e t y = Some y1 ∧ pcs y1 !! t = Some L164) ∧
  (∀ t e, pcs y !! t = Some L163 → _ch_available (self (shared y)) ≠ None →
     ∃ y1 y2,
       thread_step cfg e t y = Some y1 ∧ thread_step cfg e t y1 = Some y2 ∧
       ch_lock y2 = ch_lock y ∧
       shared y2 = snd (_get_sqlite_conn (db_exists e) t (shared y)) ∧
       pcs y2 !! t =
         Some (Returned match fst (_get_sqlite_conn (db_exists e) t (shared y)) with
                        | Ok c => Ok (ConnObj c, true)
                        | Raise x => Raise x
                        end)) ∧
  (total_steps_left cfg y ≤ n * (6 + max_attempts cfg))%nat ∧
  (∀ sched y', run_schedule cfg sched y = Some y' →
     (length sched + total_steps_left cfg y' ≤ total_steps_left cfg y)%nat) ∧
  ((∀ t, stuck cfg t y) → ∀ t p, pcs y !! t = Some p → ∃ r, p = Returned r) ∧
  (∀ e, ∃ sched y',
     run_schedule cfg sched y = Some y' ∧
     Forall (λ te : nat * env, te.2 = e) sched ∧
     ∀ t p, pcs y' !! t = Some p → ∃ r, p = Returned r).
Proof.
  intros Ha Hr. destruct (reachable_inv cfg n s0 y Ha Hr) as [Hinv Hlen].
  split_and!.
  - done.
  - by apply (inv_once y Hinv).
  - intros t r Hp. pose proof (inv_threads y Hinv t _ Hp) as (_ & Hrecs & Hres). done.
  - intros Hn Hall.
    destruct (lookup_lt_is_Some_2 (pcs y) 0%nat ltac:(lia)) as [p Hp].
    destruct (Hall _ _ Hp) as [r ->].
    pose proof (inv_threads y Hinv _ _ Hp) as (_ & Hrecs & _).
    pose proof (inv_once y Hinv) as Hone.
    destruct (reconnects y) as [|? []]; simpl in *; [done | done | lia].
  - intros t p Hp Hh. pose proof (inv_threads y Hinv t p Hp) as Ht.
    destruct p; simpl in Hh, Ht; try done; by destruct Ht.
  - intros t p Hp. by apply stuck_iff.
  - intros t' Hlk. by apply holder_moves.
  - intros t e Hp Hnone. exists (goto t L164 y). split.
    + unfold thread_step. by rewrite Hp, Hnone.
    + simpl. rewrite list_lookup_insert_eq; [done|]. by eapply lookup_lt_Some.
  - intros t e. apply late_caller_skips_lock.
  - by eapply reachable_total.
  - intros sched y'. apply run_schedule_total.
  - intros Hstuck.
    destruct (all_returned_dec (pcs y)) as [Hall|(t & p & Hp & Hret)]; [done|].
    destruct (some_thread_moves cfg y t p Hinv Hp Hret) as (t' & Hmove).
    destruct (Hmove {| heartbeat := false; probe := λ _, GetClientRaises;
                       db_exists := false |}).
    apply Hstuck.
  - intros e. by apply (run_to_completion cfg e (total_steps_left cfg y)).
Qed.

Lemma single_reconnect_under_contention_witness :
  let e := {| heartbeat := false; probe := λ _, GetClientRaises; db_exists := true |} in
  ∃ y,
    run_schedule default_config
      [(0, e); (1, e); (1, e); (1, e); (1, e); (1, e); (1, e); (1, e); (1, e); (1, e);
       (0, e); (0, e); (0, e); (0, e)]%nat
      (arrivals 2 init_state) = Some y ∧
    length (pcs y) = 2%nat ∧
    (length (reconnects y) ≤ 1)%nat ∧
    (∀ t r, pcs y !! t = Some (Returned r) →
       reconnects y ≠ [] ∧
       ((∃ c, r = Ok (ConnObj c, true)) ∨ r = Raise BackendUnavailable ∨
        (reconnects y = [t] ∧ ∃ c, r = Ok (ClientObj c, false)))) ∧
    ((0 < 2%nat)%nat → (∀ t p, pcs y !! t = Some p → ∃ r, p = Returned r) →
     length (reconnects y) = 1%nat) ∧
    (∀ t p, pcs y !! t = Some p → holds_lock p = true → ch_lock y = Some t) ∧
    (∀ t p, pcs y !! t = Some p →
       (stuck default_config t y ↔
        (∃ r, p = Returned r) ∨ (p = L164 ∧ ∃ t', t' ≠ t ∧ ch_lock y = Some t'))) ∧
    (∀ t', ch_lock y = Some t' → ∀ e, thread_step default_config e t' y ≠ None) ∧
    (∀ t e, pcs y !! t = Some L163 → _ch_available (self (shared y)) = None →
       ∃ y1, thread_step default_config e t y = Some y1 ∧ pcs y1 !! t = Some L164) ∧
    (∀ t e, pcs y !! t = Some L163 → _ch_available (self (shared y)) ≠ None →
       ∃ y1 y2,
         thread_step default_config e t y = Some y1 ∧ thread_step default_config e t y1 = Some y2 ∧
         ch_lock y2 = ch_lock y ∧
         shared y2 = snd (_get_sqlite_conn (db_exists e) t (shared y)) ∧
         pcs y2 !! t =
           Some (Returned match fst (_get_sqlite_conn (db_exists e) t (shared y)) with
                          | Ok c => Ok (ConnObj c, true)
                          | Raise x => Raise x
                          end)) ∧
    (total_steps_left default_config y ≤ 2%nat * (6 + max_attempts default_config))%nat ∧
    (∀ sched y', run_schedule default_config sched y = Some y' →
       (length sched + total_steps_left default_config y' ≤ total_steps_left default_config y)%nat) ∧
    ((∀ t, stuck default_config t y) → ∀ t p, pcs y !! t = Some p → ∃ r, p = Returned r) ∧
    (∀ e, ∃ sched y',
       run_schedule default_config sched y = Some y' ∧
       Forall (λ te : nat * env, te.2 = e) sched ∧
       ∀ t p, pcs y' !! t = Some p → ∃ r, p = Returned r).
Proof.
  intros e.
  set (sched := [(0, e); (1, e); (1, e); (1, e); (1, e); (1, e); (1, e); (1, e); (1, e);
                 (1, e); (0, e); (0, e); (0, e); (0, e)]%nat).
  eexists. split; [vm_compute; reflexivity|].
  apply (single_reconnect_under_contention default_config 2 init_state).
  - reflexivity.
  - apply (run_schedule_reachable default_config sched (arrivals 2 init_state)
             (arrivals 2 init_state)); [apply reachable_refl | vm_compute; reflexivity].
Defined.

(** A caller that reads the availability after the attempts are over: thread
    0 runs the routine to its end and leaves the [with] block (eight steps);
    thread 1 then goes from line 163 to line 170 and returns with its
    fallback connection, without ever standing at line 164. *)
Example contention_late_caller :
  let e := {| heartbeat := false; probe := λ _, GetClientRaises; db_exists := true |} in
  let first := replicate 8 (0%nat, e) in
  (option_map pcs (run_schedule default_config first (arrivals 2 init_state)),
   option_map pcs (run_schedule default_config (first ++ [(1%nat, e)])
                     (arrivals 2 init_state)),
   option_map (λ y, (pcs y, ch_lock y))
     (run_schedule default_config (first ++ [(1%nat, e); (1%nat, e)])
        (arrivals 2 init_state)))
  = (Some [L170; L163], Some [L170; L170],
     Some ([L170; Returned (Ok (ConnObj 0%nat, true))], None)).
Proof. reflexivity. Qed.

(** Two callers, the server down: thread 1 runs the three attempts, thread 0
    waits for the lock, and both end up with their own fallback connection. *)
Example contention_server_down :
  let e := {| heartbeat := false; probe := λ _, GetClientRaises; db_exists := true |} in
  option_map (λ y, (pcs y, reconnects y, ch_lock y))
    (run_schedule default_config
       [(0, e); (1, e); (1, e); (1, e); (1, e); (1, e); (1, e); (1, e); (1, e); (1, e);
        (0, e); (0, e); (0, e); (0, e)]%nat
       (arrivals 2 init_state))
  = Some ([Returned (Ok (ConnObj 1%nat, true)); Returned (Ok (ConnObj 0%nat, true))],
          [1%nat], None).
Proof. reflexivity. Qed.

(** Two callers, the server up: thread 1 reconnects and gets the client;
    thread 0, which had already passed line 163, still gets a fallback
    connection. *)
Example contention_server_up :
  let e := {| heartbeat := true; probe := λ _, Responds; db_exists := true |} in
  option_map (λ y, (pcs y, reconnects y, ch_lock y))
    (run_schedule default_config
       [(0, e); (1, e); (1, e); (1, e); (1, e); (1, e);
        (0, e); (0, e); (0, e); (0, e)]%nat
       (arrivals 2 init_state))
  = Some ([Returned (Ok (ConnObj 1%nat, true)); Returned (Ok (ClientObj 0%nat, false))],
          [1%nat], None).
Proof. reflexivity. Qed.

(** *** A caller running alone behaves as [get_connection] *)

Lemma run_schedule_app cfg l1 l2 y y1 :
  run_schedule cfg l1 y = Some y1 →
  run_schedule cfg (l1 ++ l2) y = run_schedule cfg l2 y1.
Proof.
  revert y. induction l1 as [|[t e] l1 IH]; intros y H; simpl in *.
  - by injection H as ->.
  - destruct (thread_step cfg e t y) as [y'|]; [by apply IH | done].
Qed.

Lemma run_replicate_add cfg e k1 k2 y y1 :
  run_schedule cfg (replicate k1 (0%nat, e)) y = Some y1 →
  run_schedule cfg (replicate (k1 + k2) (0%nat, e)) y =
  run_schedule cfg (replicate k2 (0%nat, e)) y1.
Proof. intros H. rewrite replicate_add. by apply run_schedule_app. Qed.

Lemma run_schedule_cons cfg e t l y y' :
  thread_step cfg e t y = Some y' →
  run_schedule cfg ((t, e) :: l) y = run_schedule cfg l y'.
Proof. intros H. simpl. by rewrite H. Qed.

(** Takes the next step of the only thread; [tac] rewrites with what is
    known of the shared state. *)
Ltac solo_step tac :=
  cbn [replicate Nat.add];
  erewrite run_schedule_cons;
  [| unfold thread_step; cbn [pcs lookup list_lookup shared]; simpl; tac; reflexivity ].

(** The retry loop, step by step. *)
Lemma solo_retry_loop cfg e lk recs attempts : ∀ delay s,
  ∃ k,
    run_schedule cfg (replicate k (0%nat, e))
      {| shared := s; ch_lock := lk; pcs := [L90 attempts delay]; reconnects := recs |} =
    Some {| shared := snd (retry_loop cfg (probe e) attempts delay s);
            ch_lock := lk;
            pcs := [if fst (retry_loop cfg (probe e) attempts delay s)
                    then L167 else L167_exit];
            reconnects := recs |}.
Proof.
  induction attempts as [|a rest IH]; intros delay s.
  - by exists 1%nat.
  - simpl. destruct (retry_body cfg (probe e a) a delay s) as [s1|[d1 s1]] eqn:Hb.
    + exists 1%nat. solo_step ltac:(rewrite Hb). done.
    + destruct (IH d1 s1) as (k & Hk). exists (S k).
      solo_step ltac:(rewrite Hb). exact Hk.
Qed.

(** From line 163 on. *)
Lemma solo_from_163 cfg e s :
  ∃ k y,
    run_schedule cfg (replicate k (0%nat, e))
      {| shared := s; ch_lock := None; pcs := [L163]; reconnects := [] |} = Some y ∧
    ch_lock y = None ∧
    (pcs y, shared y) =
      match reconnect cfg e s with
      | inl (r, s') => ([Returned (Ok r)], s')
      | inr s' =>
          match _get_sqlite_conn (db_exists e) 0%nat s' with
          | (Ok c, s'') => ([Returned (Ok (ConnObj c, true))], s'')
          | (Raise x, s'') => ([Returned (Raise x)], s'')
          end
      end.
Proof.
  destruct (_ch_available (self s)) as [b|] eqn:Ha.
  - unfold reconnect. rewrite Ha.
    destruct (_get_sqlite_conn (db_exists e) 0%nat s) as [[c|x] s'] eqn:Hconn;
      exists 2%nat; eexists;
      (split;
       [ solo_step ltac:(rewrite Ha); solo_step ltac:(rewrite Hconn); reflexivity
       | split; reflexivity ]).
  - rewrite reconnect_unknown by done. unfold _try_clickhouse_with_retry.
    destruct (solo_retry_loop cfg e (Some 0%nat) [0%nat]
                (py_range 1 (CH_MAX_RETRIES cfg + 1)) (CH_RETRY_BASE_DELAY cfg)
                (emit EvLockAcquire s)) as (k & Hk).
    destruct (retry_loop cfg (probe e) _ _ _) as [[] s1]; simpl in Hk.
    + exists (3 + (k + 1))%nat. eexists.
      split;
        [ solo_step ltac:(rewrite Ha); solo_step idtac; solo_step ltac:(rewrite Ha);
          rewrite (run_replicate_add _ _ _ _ _ _ Hk); solo_step idtac; reflexivity
        | split; reflexivity ].
    + destruct (_get_sqlite_conn (db_exists e) 0%nat (emit EvLockRelease s1))
        as [[c|x] s2] eqn:Hconn;
        exists (3 + (k + 2))%nat; eexists;
        (split;
         [ solo_step ltac:(rewrite Ha); solo_step idtac; solo_step ltac:(rewrite Ha);
           rewrite (run_replicate_add _ _ _ _ _ _ Hk); solo_step idtac;
           solo_step ltac:(rewrite Hconn); reflexivity
         | split; reflexivity ]).
Qed.

(** A caller that runs [get_connection] with nobody else around ends, after
    finitely many steps, with what the sequential [get_connection] returns,
    in the state it leaves, and with the lock free. *)
Lemma solo_get_connection cfg e s :
  ∃ k y,
    run_schedule cfg (replicate k (0%nat, e)) (solo s) = Some y ∧
    ch_lock y = None ∧
    pcs y = [Returned (fst (get_connection cfg e 0%nat s))] ∧
    shared y = snd (get_connection cfg e 0%nat s).
Proof.
  assert (Hrest : ∀ s1 k1,
    run_schedule cfg (replicate k1 (0%nat, e)) (solo s) =
      Some {| shared := s1; ch_lock := None; pcs := [L163]; reconnects := [] |} →
    check_cached e s = inr s1 →
    ∃ k y,
      run_schedule cfg (replicate k (0%nat, e)) (solo s) = Some y ∧
      ch_lock y = None ∧
      pcs y = [Returned (fst (get_connection cfg e 0%nat s))] ∧
      shared y = snd (get_connection cfg e 0%nat s)).
  { intros s1 k1 Hk1 Hcc.
    destruct (solo_from_163 cfg e s1) as (k2 & y & Hk2 & Hlk & Hres).
    exists (k1 + k2)%nat, y. rewrite (run_replicate_add _ _ _ _ _ _ Hk1).
    split; [done|]. split; [done|].
    unfold get_connection. rewrite Hcc.
    destruct (reconnect cfg e s1) as [[r s2]|s2].
    - by injection Hres as -> ->.
    - destruct (_get_sqlite_conn (db_exists e) 0%nat s2) as [[c|x] s3];
        by injection Hres as -> ->. }
  destruct (_ch_available (self s)) as [[]|] eqn:Ha.
  - destruct (_ch_client (self s)) as [c|] eqn:Hc.
    + destruct (heartbeat e) eqn:Hb.
      * exists 3%nat. eexists.
        unfold get_connection. rewrite (check_cached_alive e s c) by done.
        split;
          [ unfold solo; solo_step ltac:(rewrite Ha, Hc); solo_step ltac:(rewrite Hc, Hb);
            solo_step ltac:(rewrite Hc); reflexivity
          | split_and!; reflexivity ].
      * apply (Hrest (invalidated c s) 7%nat); [|by apply check_cached_dead].
        unfold solo.
        solo_step ltac:(rewrite Ha, Hc).
        solo_step ltac:(rewrite Hc, Hb).
        solo_step idtac.
        solo_step ltac:(rewrite Ha).
        solo_step idtac.
        solo_step idtac.
        solo_step idtac. done.
    + apply (Hrest s 1%nat).
      * unfold solo. solo_step ltac:(rewrite Ha, Hc). done.
      * unfold check_cached. by rewrite Ha, Hc.
  - apply (Hrest s 1%nat).
    + unfold solo. solo_step ltac:(rewrite Ha). done.
    + unfold check_cached. by rewrite Ha.
  - apply (Hrest s 1%nat).
    + unfold solo. solo_step ltac:(rewrite Ha). done.
    + unfold check_cached. by rewrite Ha.
Qed.

(** * The callers of the manager *)

(** ** The books of the fallback pool *)

Lemma opened_conns_app l1 l2 : opened_conns (l1 ++ l2) = opened_conns l1 ++ opened_conns l2.
Proof. apply omap_app. Qed.

Lemma closed_conns_app l1 l2 : closed_conns (l1 ++ l2) = closed_conns l1 ++ closed_conns l2.
Proof. apply omap_app. Qed.

Lemma gate_events_no_pool evs :
  Forall (λ e, gate_event e = true) evs → opened_conns evs = [] ∧ closed_conns evs = [].
Proof.
  induction 1 as [|e evs He _ [IH1 IH2]]; [done|].
  destruct e; simpl in *; try done.
Qed.

Lemma untouched_refl s : untouched s s.
Proof. by split. Qed.

Lemma untouched_trans s1 s2 s3 : untouched s1 s2 → untouched s2 s3 → untouched s1 s3.
Proof. intros [] []. split; try congruence. lia. Qed.

(** A step of the primary backend gate that keeps [_initialized] leaves the
    pool alone. *)
Lemma gate_untouched s s' :
  gate_only s s' → _initialized (self s') = _initialized (self s) → untouched s s'.
Proof.
  intros [Hs Hc Hn (evs & Ht & Hev) _] Hi.
  destruct (gate_events_no_pool evs Hev) as [Ho Hcl].
  split; try done; rewrite Ht.
  - by rewrite opened_conns_app, Ho, app_nil_r.
  - by rewrite closed_conns_app, Hcl, app_nil_r.
Qed.

Lemma retry_body_initialized cfg o k delay s :
  match retry_body cfg o k delay s with
  | inl s' => _initialized (self s') = _initialized (self s)
  | inr (_, s') => _initialized (self s') = _initialized (self s)
  end.
Proof.
  unfold retry_body, on_failure. destruct o; simpl; try case_bool_decide; done.
Qed.

Lemma retry_loop_initialized cfg probe attempts : ∀ delay s,
  _initialized (self (snd (retry_loop cfg probe attempts delay s))) = _initialized (self s).
Proof.
  induction attempts as [|k rest IH]; intros delay s; simpl; [done|].
  pose proof (retry_body_initialized cfg (probe k) k delay s) as Hb.
  destruct (retry_body cfg (probe k) k delay s) as [s1|[d1 s1]]; [done|].
  by rewrite IH.
Qed.

Lemma check_cached_untouched e s :
  match check_cached e s with
  | inl (_, s') => untouched s s'
  | inr s' => untouched s s'
  end.
Proof.
  pose proof (check_cached_gate e s) as Hg. unfold check_cached in *.
  destruct (_ch_available (self s)) as [[]|] eqn:Ha; try apply untouched_refl.
  destruct (_ch_client (self s)) as [c|] eqn:Hc; try apply untouched_refl.
  destruct (heartbeat e); simpl in *.
  - destruct Hg as [Hg _]. by apply gate_untouched.
  - apply gate_untouched; [done|]. by rewrite Ha.
Qed.

Lemma reconnect_untouched cfg e s :
  match reconnect cfg e s with
  | inl (_, s') => untouched s s'
  | inr s' => untouched s s'
  end.
Proof.
  pose proof (reconnect_gate cfg e s) as Hg.
  destruct (_ch_available (self s)) as [b|] eqn:Ha.
  - unfold reconnect. rewrite Ha. apply untouched_refl.
  - rewrite reconnect_unknown in * by done. unfold _try_clickhouse_with_retry in *.
    pose proof (retry_loop_initialized cfg (probe e) (py_range 1 (CH_MAX_RETRIES cfg + 1))
                  (CH_RETRY_BASE_DELAY cfg) (emit EvLockAcquire s)) as Hi.
    destruct (retry_loop _ _ _ _ _) as [[] s1]; simpl in Hi.
    + destruct Hg as [Hg _]. by apply gate_untouched.
    + by apply gate_untouched.
Qed.

Lemma pool_effect_after t s s1 s2 :
  untouched s s1 → pool_effect t s1 s2 → pool_effect t s s2.
Proof.
  intros [Hs Hc Ho Hcl Hn Hi] [Hs' Hc' Ho' Hcl' Hn' Hi'|c Hr Hslot Hs' Hc' Ho' Hcl' Hi'].
  - apply pool_untouched; try congruence. lia.
  - apply (pool_opened t s s2 c); try congruence. lia.
Qed.

Lemma pool_effect_before t s s1 s2 :
  pool_effect t s s1 → untouched s1 s2 → pool_effect t s s2.
Proof.
  intros [Hs' Hc' Ho' Hcl' Hn' Hi'|c Hr Hslot Hs' Hc' Ho' Hcl' Hi'] [Hs Hc Ho Hcl Hn Hi].
  - apply pool_untouched; try congruence. lia.
  - apply (pool_opened t s s2 c); try congruence. lia.
Qed.

Lemma sqlite_conn_effect b t s : pool_effect t s (snd (_get_sqlite_conn b t s)).
Proof.
  destruct (_thread_local (self s) !! t) as [c|] eqn:Hslot.
  - rewrite (get_sqlite_conn_cached b t s c Hslot). by apply pool_untouched.
  - destruct b; [|rewrite (get_sqlite_conn_missing t s Hslot); by apply pool_untouched].
    destruct (get_sqlite_conn_opens t s Hslot)
      as (s' & -> & Htr & Hn & Htl & Hco & _ & _ & _ & Hi & _).
    apply (pool_opened t s s' (next_obj s)); simpl; try done; [lia| |].
    + rewrite Htr, opened_conns_app. done.
    + rewrite Htr, closed_conns_app. simpl. by rewrite app_nil_r.
Qed.

Lemma get_connection_effect cfg e t s :
  pool_effect t s (snd (get_connection cfg e t s)).
Proof.
  unfold get_connection.
  pose proof (check_cached_untouched e s) as H1.
  destruct (check_cached e s) as [[r s1]|s1]; [by destruct H1; apply pool_untouched|].
  pose proof (reconnect_untouched cfg e s1) as H2.
  destruct (reconnect cfg e s1) as [[r s2]|s2].
  { simpl. apply (pool_effect_after t s s1 s2 H1). by destruct H2; apply pool_untouched. }
  pose proof (sqlite_conn_effect (db_exists e) t s2) as H3.
  destruct (_get_sqlite_conn (db_exists e) t s2) as [[k|x] s3]; simpl in *;
    by apply (pool_effect_after t s s1 s3 H1), (pool_effect_after t s1 s2 s3 H2).
Qed.

Lemma sqlite_cursor_effect b t body s :
  pool_effect t s (snd (get_sqlite_cursor b t body s)).
Proof.
  unfold get_sqlite_cursor.
  pose proof (sqlite_conn_effect b t s) as H.
  destruct (_get_sqlite_conn b t s) as [[c|x] s1]; simpl in *; [|done].
  destruct (conn_closed c (trace s1)); [done|].
  apply (pool_effect_before t s s1); [done|].
  assert (Hu : untouched s1 (emit (EvCursorClose (next_obj s1))
                 (emit (EvBody (next_obj s1) (body (next_obj s1)))
                    (emit (EvCursorOpen c (next_obj s1)) (snd (alloc s1)))))).
  { split; simpl; try done; [| |lia].
    - rewrite !opened_conns_app. simpl. by rewrite !app_nil_r.
    - rewrite !closed_conns_app. simpl. by rewrite !app_nil_r. }
  by destruct (body (next_obj s1)).
Qed.

Lemma date_range_untouched f db sq now s :
  untouched s (snd (get_date_range_cached f db sq now s)).
Proof.
  destruct (cache_valid now s) eqn:Hc.
  - rewrite date_range_hit by done. apply untouched_refl.
  - rewrite date_range_miss by done. simpl.
    destruct (f db sq); split; simpl; try done.
    all: first [ rewrite opened_conns_app; simpl; by rewrite app_nil_r
               | rewrite closed_conns_app; simpl; by rewrite app_nil_r ].
Qed.

Lemma run_call_effect cfg t c s :
  is_close_all c = false → pool_effect t s (snd (run_call cfg t c s)).
Proof.
  intros Hc. destruct c as [e|b|b body|f db sq now|cr api]; simpl; [| | | |done].
  - pose proof (get_connection_effect cfg e t s) as H.
    by destruct (get_connection cfg e t s) as [[[[| |k] sq]|x] s'].
  - pose proof (sqlite_conn_effect b t s) as H.
    by destruct (_get_sqlite_conn b t s) as [[k|x] s'].
  - pose proof (sqlite_cursor_effect b t body s) as H.
    by destruct (_get_sqlite_conn b t s) as [[k|x] s'].
  - pose proof (date_range_untouched f db sq now s) as [].
    by apply pool_untouched.
Qed.

Lemma pool_inv_init : pool_inv init_state.
Proof.
  split; simpl.
  - by intros c Hc%elem_of_nil.
  - constructor.
  - done.
  - intros t c. by rewrite lookup_empty.
Qed.

Lemma pool_inv_effect t s s' : pool_effect t s s' → pool_inv s → pool_inv s'.
Proof.
  intros [Hs Hc Ho Hcl Hn Hi|c Hr Hslot Hs Hc Ho Hcl Hi] [Hf Hnd Hb Hsl].
  - split.
    + intros c. rewrite Ho. intros Hin. specialize (Hf c Hin). lia.
    + by rewrite Ho.
    + by rewrite Ho, Hcl, Hc.
    + intros t' c. rewrite Hs, Ho. apply Hsl.
  - split.
    + intros c'. rewrite Ho. intros [Hin| ->%list_elem_of_singleton]%elem_of_app; [|lia].
      specialize (Hf c' Hin). lia.
    + rewrite Ho. apply NoDup_app. split_and!; [done| |apply NoDup_singleton].
      intros c' Hin ->%list_elem_of_singleton. specialize (Hf c Hin). lia.
    + rewrite Ho, Hcl, Hc, Hb. by rewrite (assoc (++)).
    + intros t' c'. rewrite Hs, Ho, lookup_insert. case_decide.
      * intros [= <-]. apply elem_of_app. right. by apply list_elem_of_singleton.
      * intros Hin. apply elem_of_app. left. by eapply Hsl.
Qed.

Lemma closed_conns_closes cr l :
  closed_conns (map (λ c, EvSqliteClose c (cr c)) l) = l.
Proof. induction l as [|c l IH]; [done|]. simpl. by rewrite IH. Qed.

Lemma opened_conns_closes cr l :
  opened_conns (map (λ c, EvSqliteClose c (cr c)) l) = [].
Proof. by induction l as [|c l IH]. Qed.

Lemma close_all_pool cr api s :
  opened_conns (trace (close_all cr api s)) = opened_conns (trace s) ∧
  closed_conns (trace (close_all cr api s)) =
    closed_conns (trace s) ++ _sqlite_conns (self s).
Proof.
  rewrite close_all_trace, !opened_conns_app, !closed_conns_app.
  rewrite closed_conns_closes, opened_conns_closes.
  destruct (_ch_client (self s)) as [c|], api; simpl; by rewrite ?app_nil_r.
Qed.

Lemma pool_inv_close_all cr api s : pool_inv s → pool_inv (close_all cr api s).
Proof.
  intros [Hf Hnd Hb Hsl]. destruct (close_all_pool cr api s) as [Ho Hcl]. split.
  - intros c. rewrite Ho, close_all_next_obj. apply Hf.
  - by rewrite Ho.
  - rewrite Ho, Hcl, close_all_self. simpl. by rewrite app_nil_r.
  - intros t c. rewrite Ho, close_all_self. apply Hsl.
Qed.

Lemma run_call_close_all cfg t cr api s :
  snd (run_call cfg t (CloseAll cr api) s) = close_all cr api s.
Proof. done. Qed.

Lemma run_pool_inv cfg calls : ∀ s, pool_inv s → pool_inv (snd (run cfg calls s)).
Proof.
  induction calls as [|[t c] calls IH]; intros s Hinv; simpl; [done|].
  assert (Hinv1 : pool_inv (snd (run_call cfg t c s))).
  { destruct (is_close_all c) eqn:Hc.
    - destruct c; try done. by apply pool_inv_close_all.
    - eapply pool_inv_effect; [by apply run_call_effect | done]. }
  destruct (run_call cfg t c s) as [g s1]. simpl in Hinv1.
  specialize (IH s1 Hinv1). by destruct (run cfg calls s1) as [gs s2].
Qed.

Lemma init_state_live : live init_state.
Proof. split; [done | done |]. intros t c. simpl. by rewrite lookup_empty. Qed.

Lemma live_effect t s s' : pool_effect t s s' → live s → live s'.
Proof.
  intros [Hs Hc Ho Hcl Hn Hi|c Hr Hslot Hs Hc Ho Hcl Hi] [Hl Hno Hsl].
  - split; [congruence | congruence |]. intros t' c. rewrite Hs, Hc. apply Hsl.
  - split; [congruence | congruence |]. intros t' c'. rewrite Hs, Hc, lookup_insert.
    case_decide.
    + intros [= <-]. apply elem_of_app. right. by apply list_elem_of_singleton.
    + intros Hin. apply elem_of_app. left. by eapply Hsl.
Qed.

Lemma run_live cfg calls : ∀ s,
  Forall (λ tc : nat * call, is_close_all tc.2 = false) calls →
  live s → live (snd (run cfg calls s)).
Proof.
  induction calls as [|[t c] calls IH]; intros s Hall Hl; simpl; [done|].
  apply Forall_cons in Hall as [Hc Hall]. simpl in Hc.
  pose proof (live_effect t s _ (run_call_effect cfg t c s Hc) Hl) as Hl1.
  destruct (run_call cfg t c s) as [g s1]. simpl in Hl1.
  specialize (IH s1 Hall Hl1). by destruct (run cfg calls s1) as [gs s2].
Qed.


(** X2. As long as [close_all] was not called, calling [DatabaseManager()]
    again changes nothing: [__init__] finds [_initialized] set, so the slots,
    the tracked connections, the cached client, the availability and the
    date-range cache all survive. *)
Theorem construct_keeps_live_manager (cfg : config) (calls : list (nat * call)) :
  Forall (λ tc : nat * call, is_close_all tc.2 = false) calls →
  construct (snd (run cfg calls init_state)) = snd (run cfg calls init_state).
Proof.
  intros Hcalls.
  destruct (run_live cfg calls init_state Hcalls init_state_live) as [Hi _ _].
  apply state_eq; try done. unfold construct, update, __init__. simpl. by rewrite Hi.
Qed.

Lemma construct_keeps_live_manager_witness :
  let e := {| heartbeat := true; probe := λ _, Responds; db_exists := true |} in
  let calls := [(0%nat, GetConnection e); (1%nat, GetSqliteConn true)] in
  construct (snd (run default_config calls init_state)) =
  snd (run default_config calls init_state).
Proof.
  intros e calls. apply (construct_keeps_live_manager default_config calls).
  repeat constructor.
Defined.

(** [get_connection] when the availability is unknown: the retry routine
    decides. *)
Lemma get_connection_unknown cfg e t s :
  _ch_available (self s) = None →
  get_connection cfg e t s =
    match _try_clickhouse_with_retry cfg (probe e) (emit EvLockAcquire s) with
    | (true, s1) => (Ok (obj_of (_ch_client (self s1)), false), emit EvLockRelease s1)
    | (false, s1) =>
        match _get_sqlite_conn (db_exists e) t (emit EvLockRelease s1) with
        | (Ok c, s2) => (Ok (ConnObj c, true), s2)
        | (Raise x, s2) => (Raise x, s2)
        end
    end.
Proof.
  intros Ha. unfold get_connection.
  assert (Hcc : check_cached e s = inr s) by (unfold check_cached; by rewrite Ha).
  rewrite Hcc, reconnect_unknown by done.
  by destruct (_try_clickhouse_with_retry _ _ _) as [[] s1].
Qed.

(** What [close_all] does to a connection: a tracked one gets [close()]
    called on it and is closed unless that call raised. *)
Lemma conn_closed_closes c cr l : ∀ pre,
  conn_closed c (pre ++ map (λ c, EvSqliteClose c (cr c)) l) =
    if bool_decide (c ∈ l) && negb (cr c) then true else conn_closed c pre.
Proof.
  induction l as [|x l IH] using rev_ind; intros pre.
  - cbn [map]. rewrite app_nil_r.
    case_bool_decide as Hin; [by apply elem_of_nil in Hin | done].
  - rewrite map_app, (assoc (++)). cbn [map]. rewrite conn_closed_snoc, IH.
    destruct (decide (x = c)) as [->|Hne].
    + rewrite (bool_decide_eq_true_2 (c ∈ l ++ [c]))
        by (apply elem_of_app; right; by apply list_elem_of_singleton).
      destruct (cr c); simpl; [by rewrite andb_false_r | by rewrite bool_decide_eq_true_2].
    + assert (bool_decide (c ∈ l ++ [x]) = bool_decide (c ∈ l)) as ->.
      { apply bool_decide_ext. rewrite elem_of_app, list_elem_of_singleton.
        split; [intros [?|?]; [done | congruence] | by left]. }
      destruct (cr x); [done|]. by rewrite bool_decide_eq_false_2.
Qed.

Lemma conn_closed_close_all c cr api s :
  conn_closed c (trace (close_all cr api s)) =
    if bool_decide (c ∈ _sqlite_conns (self s)) && negb (cr c) then true
    else conn_closed c (trace s).
Proof.
  rewrite close_all_trace, (assoc (++)), conn_closed_other, conn_closed_closes; [done|].
  by destruct (_ch_client (self s)), api; repeat constructor.
Qed.

(** X3. [close_all] empties the tracked list but leaves the thread slots
    alone. A thread that holds a fallback connection is, after any
    [close_all], still handed that same connection by every later
    [_get_sqlite_conn], and by [get_connection] whenever ClickHouse does not
    answer, although [close()] has been called on it. If the connection was
    tracked at this [close_all], it is closed exactly when that [close()] did
    not raise; otherwise it is as an earlier [close_all] left it. On a closed
    connection every later [get_sqlite_cursor] of the thread raises
    [ProgrammingError] and changes nothing; on one still open it works as
    before. *)
Theorem closed_connection_survives_shutdown
    (cfg : config) (calls : list (nat * call)) (t c : nat)
    (cr : nat → bool) (api : client_api) :
  _thread_local (self (snd (run cfg calls init_state))) !! t = Some c →
  let s := snd (run cfg calls init_state) in
  let s' := close_all cr api s in
  _sqlite_conns (self s') = [] ∧
  (∀ b, _get_sqlite_conn b t s' = (Ok c, s')) ∧
  (∀ e, (∀ k, probe e k ≠ Responds) →
        fst (get_connection cfg e t s') = Ok (ConnObj c, true)) ∧
  (c ∈ closed_conns (trace s')) ∧
  (c ∈ _sqlite_conns (self s) → conn_closed c (trace s') = negb (cr c)) ∧
  (c ∉ _sqlite_conns (self s) → conn_closed c (trace s') = conn_closed c (trace s)) ∧
  (conn_closed c (trace s') = true →
   ∀ b body, get_sqlite_cursor b t body s' = (Raise ProgrammingError, s')) ∧
  (conn_closed c (trace s') = false →
   ∀ b body, snd (get_sqlite_cursor b t body s') = after_cursor c body s').
Proof.
  intros Hslot s s'.
  pose proof (run_pool_inv cfg calls init_state pool_inv_init) as Hinv. fold s in Hinv.
  pose proof (pool_inv_close_all cr api s Hinv) as Hinv'. fold s' in Hinv'.
  assert (Hconns : _sqlite_conns (self s') = []) by (subst s'; by rewrite close_all_self).
  assert (Hslot' : _thread_local (self s') !! t = Some c).
  { subst s'. by rewrite close_all_self. }
  assert (Hcached : ∀ b, _get_sqlite_conn b t s' = (Ok c, s')).
  { intros b. by apply get_sqlite_conn_cached. }
  split_and!.
  - done.
  - done.
  - intros e He.
    rewrite get_connection_unknown by (subst s'; by rewrite close_all_self).
    unfold _try_clickhouse_with_retry.
    pose proof (retry_loop_gate cfg (probe e) (py_range 1 (CH_MAX_RETRIES cfg + 1))
                  (CH_RETRY_BASE_DELAY cfg) (emit EvLockAcquire s')) as Hloop.
    destruct (retry_loop _ _ _ _ _) as [[] s1].
    + destruct Hloop as (_ & _ & _ & k & _ & Hk). by destruct (He k).
    + destruct Hloop as (Hg & _).
      rewrite (get_sqlite_conn_cached _ t _ c); [done|].
      simpl. by rewrite (go_slots _ _ Hg).
  - pose proof (pi_slots s' Hinv' t c Hslot') as Hin.
    rewrite (pi_books s' Hinv'), Hconns, app_nil_r in Hin. done.
  - intros Hin. subst s'. rewrite conn_closed_close_all.
    rewrite bool_decide_eq_true_2 by done. simpl.
    destruct (cr c); simpl; [|done].
    apply conn_closed_never. intros Hcl.
    pose proof (pi_nodup s Hinv) as Hnd. rewrite (pi_books s Hinv) in Hnd.
    apply NoDup_app in Hnd as (_ & Hdisj & _). by apply (Hdisj c).
  - intros Hin. subst s'. rewrite conn_closed_close_all.
    by rewrite bool_decide_eq_false_2.
  - intros Hcl b body. by rewrite (get_sqlite_cursor_with _ _ body _ _ _ (Hcached b)), Hcl.
  - intros Hcl b body. by rewrite (get_sqlite_cursor_with _ _ body _ _ _ (Hcached b)), Hcl.
Qed.

Lemma closed_connection_survives_shutdown_witness :
  let e := {| heartbeat := false; probe := λ _, GetClientRaises; db_exists := true |} in
  let calls := [(0%nat, GetConnection e)] in
  let cr : nat → bool := λ _, false in
  let s := snd (run default_config calls init_state) in
  let s' := close_all cr HasClose s in
  conn_closed 0%nat (trace s') = true ∧
  _sqlite_conns (self s') = [] ∧
  (∀ b, _get_sqlite_conn b 0%nat s' = (Ok 0%nat, s')) ∧
  (∀ e, (∀ k, probe e k ≠ Responds) →
        fst (get_connection default_config e 0%nat s') = Ok (ConnObj 0%nat, true)) ∧
  (0%nat ∈ closed_conns (trace s')) ∧
  (0%nat ∈ _sqlite_conns (self s) → conn_closed 0%nat (trace s') = negb (cr 0%nat)) ∧
  (0%nat ∉ _sqlite_conns (self s) → conn_closed 0%nat (trace s') = conn_closed 0%nat (trace s)) ∧
  (conn_closed 0%nat (trace s') = true →
   ∀ b body, get_sqlite_cursor b 0%nat body s' = (Raise ProgrammingError, s')) ∧
  (conn_closed 0%nat (trace s') = false →
   ∀ b body, snd (get_sqlite_cursor b 0%nat body s') = after_cursor 0%nat body s').
Proof.
  intros e calls cr s s'. split; [reflexivity|].
  apply (closed_connection_survives_shutdown default_config calls 0%nat 0%nat cr HasClose).
  reflexivity.
Defined.

(** X4. After [close_all] and a new [DatabaseManager()], the first fallback
    connection a thread asks for is a new object: it is none of the
    connections opened, or closed, before. *)
Theorem restart_opens_new_connection
    (cfg : config) (calls : list (nat * call)) (cr : nat → bool) (api : client_api)
    (t : nat) :
  let s := construct (close_all cr api (snd (run cfg calls init_state))) in
  ∃ s',
    _get_sqlite_conn true t s = (Ok (next_obj s), s') ∧
    (next_obj s ∉ opened_conns (trace s)) ∧
    (next_obj s ∉ closed_conns (trace s)) ∧
    _thread_local (self s') !! t = Some (next_obj s) ∧
    _sqlite_conns (self s') = [next_obj s].
Proof.
  intros s.
  pose proof (pool_inv_close_all cr api _ (run_pool_inv cfg calls init_state pool_inv_init))
    as [Hf _ Hb _].
  assert (Hself : self s = fresh_manager).
  { subst s. change (self (construct ?x)) with (__init__ (self x)).
    by rewrite close_all_self. }
  assert (Hslot : _thread_local (self s) !! t = None) by by rewrite Hself.
  destruct (get_sqlite_conn_opens t s Hslot) as (s' & Hrun & _ & _ & Htl & Hco & _).
  assert (Hnew : next_obj s ∉ opened_conns (trace s)).
  { intros Hin. apply Hf in Hin. simpl in Hin. lia. }
  exists s'. split_and!.
  - done.
  - done.
  - intros Hin. apply Hnew. simpl in *. rewrite Hb. apply elem_of_app. by left.
  - by rewrite Htl, lookup_insert_eq.
  - by rewrite Hco, Hself.
Qed.

(** ** Start-up *)

(** X5. [startup_event] on a manager whose availability is still unknown
    settles it: afterwards ClickHouse is marked available exactly when one of
    the attempts was answered, and unavailable otherwise, so that later calls
    skip the retry routine. With ClickHouse available the fallback pool is
    left alone. Otherwise, if the database file exists, the calling thread's
    connection has been opened, cached and tracked, and the cursor used for
    the index statements has been closed however those statements ended; if
    the file is missing the exception is swallowed and the pool is left
    alone. *)
Theorem startup_decides_backend
    (cfg : config) (e : env) (b' : bool) (t : nat) (body : nat → body_exit) (s : state) :
  _ch_available (self s) = None →
  _thread_local (self s) !! t = None →
  let s' := snd (startup_event cfg e b' t body s) in
  fst (startup_event cfg e b' t body s) = Ok () ∧
  (_ch_available (self s') = Some true ↔
     ∃ k, k ∈ py_range 1 (CH_MAX_RETRIES cfg + 1) ∧ probe e k = Responds) ∧
  (_ch_available (self s') = Some false ↔
     ∀ k, k ∈ py_range 1 (CH_MAX_RETRIES cfg + 1) → probe e k ≠ Responds) ∧
  (_ch_available (self s') = Some true → untouched s s') ∧
  (_ch_available (self s') = Some false →
     if db_exists e
     then ∃ c k pre,
       _thread_local (self s') !! t = Some c ∧
       _sqlite_conns (self s') = _sqlite_conns (self s) ++ [c] ∧
       trace s' = pre ++ [EvSqliteConnect c; EvCursorOpen c k; EvBody k (body k);
                          EvCursorClose k]
     else untouched s s' ∧ _thread_local (self s') !! t = None).
Proof.
  intros Ha Hslot s'. subst s'. unfold startup_event.
  rewrite get_connection_unknown by done. unfold _try_clickhouse_with_retry.
  pose proof (retry_loop_gate cfg (probe e) (py_range 1 (CH_MAX_RETRIES cfg + 1))
                (CH_RETRY_BASE_DELAY cfg) (emit EvLockAcquire s)) as Hloop.
  pose proof (retry_loop_initialized cfg (probe e) (py_range 1 (CH_MAX_RETRIES cfg + 1))
                (CH_RETRY_BASE_DELAY cfg) (emit EvLockAcquire s)) as Hinit.
  destruct (retry_loop _ _ _ _ _) as [[] s1]; simpl in Hinit.
  - (* an attempt was answered *)
    destruct Hloop as (Hg & Ha1 & _ & Hk). simpl. rewrite Ha1.
    split_and!; [done | done | | | done].
    + split; [done|]. intros Hno. destruct Hk as (k & Hin & Hk). by destruct (Hno k).
    + intros _. apply gate_untouched; [|done].
      eapply gate_only_trans; [by apply (gate_only_emit EvLockAcquire)|].
      eapply gate_only_trans; [exact Hg|]. by apply gate_only_emit.
  - (* no attempt was answered *)
    destruct Hloop as (Hg & Ha1 & _ & Hno).
    set (s2 := emit EvLockRelease s1).
    assert (Hg2 : gate_only s s2).
    { eapply gate_only_trans; [by apply (gate_only_emit EvLockAcquire)|].
      eapply gate_only_trans; [exact Hg|]. by apply gate_only_emit. }
    assert (Hslot2 : _thread_local (self s2) !! t = None).
    { by rewrite (go_slots _ _ Hg2). }
    destruct (db_exists e) eqn:Hdb.
    + destruct (get_sqlite_conn_opens t s2 Hslot2)
        as (s3 & -> & Htr & Hn & Htl & Hco & _ & _ & Ha3 & _).
      assert (Hcached : _thread_local (self s3) !! t = Some (next_obj s2)).
      { by rewrite Htl, lookup_insert_eq. }
      assert (Hopen : conn_closed (next_obj s2) (trace s3) = false)
        by by rewrite Htr, conn_closed_snoc, bool_decide_eq_true_2.
      unfold get_sqlite_cursor. rewrite (get_sqlite_conn_cached _ t s3 _ Hcached), Hopen.
      assert (Hend : ∀ x : result body_exit,
        let s4 := emit (EvCursorClose (next_obj s3))
                    (emit (EvBody (next_obj s3) (body (next_obj s3)))
                       (emit (EvCursorOpen (next_obj s2) (next_obj s3)) (snd (alloc s3)))) in
        (_ch_available (self s4) = Some true ↔
           ∃ k, k ∈ py_range 1 (CH_MAX_RETRIES cfg + 1) ∧ probe e k = Responds) ∧
        (_ch_available (self s4) = Some false ↔
           ∀ k, k ∈ py_range 1 (CH_MAX_RETRIES cfg + 1) → probe e k ≠ Responds) ∧
        (_ch_available (self s4) = Some true → untouched s s4) ∧
        (_ch_available (self s4) = Some false →
           ∃ c k pre,
             _thread_local (self s4) !! t = Some c ∧
             _sqlite_conns (self s4) = _sqlite_conns (self s) ++ [c] ∧
             trace s4 = pre ++ [EvSqliteConnect c; EvCursorOpen c k; EvBody k (body k);
                                EvCursorClose k])).
      { intros _. simpl. rewrite Ha3. simpl. rewrite Ha1. split_and!.
        - split; [done|]. intros (k & Hin & Hk). by destruct (Hno k).
        - done.
        - done.
        - intros _. exists (next_obj s2), (next_obj s3), (trace s2).
          split_and!; [done | by rewrite Hco, (go_conns _ _ Hg2) |].
          rewrite Htr. by rewrite <- !app_assoc. }
      simpl. destruct (body (next_obj s3)); simpl; (split; [done|]);
        apply (Hend (Ok BodyCompletes)).
    + rewrite (get_sqlite_conn_missing t s2 Hslot2). simpl. rewrite Ha1.
      split_and!; try done.
      * split; [done|]. intros (k & Hin & Hk). by destruct (Hno k).
      * intros _. split; [|done]. by apply gate_untouched.
Qed.

Lemma startup_decides_backend_witness :
  let e := {| heartbeat := false; probe := λ _, QueryRaises; db_exists := true |} in
  let body : nat → body_exit := λ _, BodyRaises 1 in
  let s' := snd (startup_event default_config e true 0%nat body init_state) in
  fst (startup_event default_config e true 0%nat body init_state) = Ok () ∧
  (_ch_available (self s') = Some true ↔
     ∃ k, k ∈ py_range 1 (CH_MAX_RETRIES default_config + 1) ∧ probe e k = Responds) ∧
  (_ch_available (self s') = Some false ↔
     ∀ k, k ∈ py_range 1 (CH_MAX_RETRIES default_config + 1) → probe e k ≠ Responds) ∧
  (_ch_available (self s') = Some true → untouched init_state s') ∧
  (_ch_available (self s') = Some false →
     if db_exists e
     then ∃ c k pre,
       _thread_local (self s') !! 0%nat = Some c ∧
       _sqlite_conns (self s') = _sqlite_conns (self init_state) ++ [c] ∧
       trace s' = pre ++ [EvSqliteConnect c; EvCursorOpen c k; EvBody k (body k);
                          EvCursorClose k]
     else untouched init_state s' ∧ _thread_local (self s') !! 0%nat = None).
Proof.
  intros e body.
  apply (startup_decides_backend default_config e true 0%nat body init_state);
    reflexivity.
Defined.

Example startup_trace :
  let e := {| heartbeat := false; probe := λ _, QueryRaises; db_exists := true |} in
  trace (snd (startup_event default_config e true 0%nat (λ _, BodyCompletes) init_state)) =
  [EvLockAcquire; EvGetClient 1; EvQuery 0%nat; EvSleep 1%Qc;
   EvGetClient 2; EvQuery 1%nat; EvSleep (1 * 2)%Qc; EvGetClient 3; EvQuery 2%nat;
   EvLockRelease; EvSqliteConnect 3%nat; EvCursorOpen 3%nat 4%nat;
   EvBody 4%nat BodyCompletes; EvCursorClose 4%nat].
Proof. reflexivity. Qed.

(** ** The date range *)

(** With a fetch function that does not touch the manager, the two
    renderings of [get_date_range_cached] agree. *)
Lemma get_date_range_cached_st_pure f db sq now s :
  get_date_range_cached_st (λ db sq s, (fetched (f db sq), s)) db sq now s =
  get_date_range_cached f db sq now s.
Proof.
  unfold get_date_range_cached_st, get_date_range_cached.
  destruct (_ && _); [done|]. by destruct (f db sq).
Qed.

Lemma or_today_nonempty today v : today ≠ EmptyString → or_today today v ≠ EmptyString.
Proof. intros Ht. by destruct v as [[|]|]. Qed.

(** X6. Whenever [fetch_date_range_impl] returns, on either backend and
    whatever the query gave (no row, NULLs, empty strings), it returns a
    pair; a pair is truthy, so the value it returns is one the cache will
    serve. On the SQLite path both components are non-empty strings, a NULL
    or empty aggregate being replaced by today's date. *)
Theorem fetch_date_range_impl_pair
    (t : nat) (w : date_source) (db : connection) (is_sqlite : bool)
    (s s' : state) (v : pyval) :
  fetch_date_range_impl t w db is_sqlite s = (Ok v, s') →
  (∃ a b, v = PyTuple [a; b]) ∧
  truthy v = true ∧
  (is_sqlite = true → today_str w ≠ EmptyString →
   ∃ a b, v = PyTuple [a; b] ∧ a ≠ EmptyString ∧ b ≠ EmptyString) ∧
  (is_sqlite = false → s' = s).
Proof.
  unfold fetch_date_range_impl. destruct is_sqlite.
  - destruct (get_sqlite_cursor _ _ _ _) as [[x|x] s1]; [|done].
    destruct (fetchone w) as [[[a b]|]|tag]; intros [= <- <-];
      (split_and!; [by eexists _, _ | done | | done]); intros _ Ht;
      eexists _, _; (split_and!; [done | |]); by first [apply or_today_nonempty | idtac].
  - destruct (result_rows w db) as [[|[a b] rows]|tag]; intros [= <- <-];
      by (split_and!; [by eexists _, _ | done | done | done]).
Qed.

Lemma fetch_date_range_impl_pair_witness :
  let w := {| today_str := "2024-01-01"; db_file := true;
              fetchone := Rows (Some (None, Some ""%string));
              result_rows := λ _, QueryFails 0 |} in
  let v := PyTuple ["2024-01-01"; "2024-01-01"]%string in
  let s' := snd (fetch_date_range_impl 0%nat w NoneObj true init_state) in
  (∃ a b, v = PyTuple [a; b]) ∧
  truthy v = true ∧
  (true = true → today_str w ≠ EmptyString →
   ∃ a b, v = PyTuple [a; b] ∧ a ≠ EmptyString ∧ b ≠ EmptyString) ∧
  (true = false → s' = init_state).
Proof.
  intros w v s'.
  apply (fetch_date_range_impl_pair 0%nat w NoneObj true init_state s' v).
  reflexivity.
Defined.

(** [get_sqlite_cursor], case by case: the file is missing, the thread's
    connection is closed, or a cursor is opened and closed. *)
Lemma sqlite_cursor_cases b t body s :
  (get_sqlite_cursor b t body s = (Raise BackendUnavailable, s) ∧
   _thread_local (self s) !! t = None ∧ b = false) ∨
  (∃ c,
     get_sqlite_cursor b t body s = (Raise ProgrammingError, s) ∧
     _thread_local (self s) !! t = Some c ∧ conn_closed c (trace s) = true) ∨
  (∃ c s1,
     _get_sqlite_conn b t s = (Ok c, s1) ∧
     _thread_local (self s1) !! t = Some c ∧
     conn_closed c (trace s1) = false ∧
     get_sqlite_cursor b t body s =
       (match body (next_obj s1) with
        | BodyRaises tag => Raise (BodyError tag)
        | x => Ok x
        end, after_cursor c body s1)).
Proof.
  destruct (_thread_local (self s) !! t) as [c|] eqn:Hslot.
  - pose proof (get_sqlite_conn_cached b t s c Hslot) as Hconn.
    rewrite (get_sqlite_cursor_with _ _ body _ _ _ Hconn).
    destruct (conn_closed c (trace s)) eqn:Hcl.
    + right. left. by exists c.
    + right. right. exists c, s. by rewrite Hcl.
  - destruct b.
    + right. right.
      destruct (get_sqlite_conn_opens t s Hslot) as (s1 & Hs1 & _ & _ & Htl & _).
      pose proof (get_sqlite_conn_closed _ _ _ _ _ Hs1) as Hcl. rewrite Hslot in Hcl.
      exists (next_obj s), s1. rewrite (get_sqlite_cursor_with _ _ body _ _ _ Hs1), Hcl.
      split_and!; try done. by rewrite Htl, lookup_insert_eq.
    + left. unfold get_sqlite_cursor. by rewrite (get_sqlite_conn_missing t s Hslot).
Qed.

Lemma opened_cursors_app l1 l2 :
  opened_cursors (l1 ++ l2) = opened_cursors l1 ++ opened_cursors l2.
Proof. apply omap_app. Qed.

Lemma closed_cursors_app l1 l2 :
  closed_cursors (l1 ++ l2) = closed_cursors l1 ++ closed_cursors l2.
Proof. apply omap_app. Qed.

Lemma cursors_settled_refl s : cursors_settled s s.
Proof. exists []. by rewrite !app_nil_r. Qed.

Lemma cursors_settled_trans s1 s2 s3 :
  cursors_settled s1 s2 → cursors_settled s2 s3 → cursors_settled s1 s3.
Proof.
  intros (k1 & Ho1 & Hc1) (k2 & Ho2 & Hc2). exists (k1 ++ k2).
  by rewrite Ho2, Hc2, Ho1, Hc1, !app_assoc.
Qed.

(** A step that adds no cursor event. *)
Lemma cursors_settled_quiet s s' evs :
  trace s' = trace s ++ evs →
  opened_cursors evs = [] → closed_cursors evs = [] →
  cursors_settled s s'.
Proof.
  intros Ht Ho Hc. exists [].
  by rewrite Ht, opened_cursors_app, closed_cursors_app, Ho, Hc.
Qed.

Lemma sqlite_conn_settled b t s : cursors_settled s (snd (_get_sqlite_conn b t s)).
Proof.
  destruct (_thread_local (self s) !! t) as [c|] eqn:Hslot.
  - rewrite (get_sqlite_conn_cached b t s c Hslot). apply cursors_settled_refl.
  - destruct b.
    + destruct (get_sqlite_conn_opens t s Hslot) as (s1 & -> & Htr & _).
      by eapply cursors_settled_quiet.
    + rewrite (get_sqlite_conn_missing t s Hslot). apply cursors_settled_refl.
Qed.

Lemma after_cursor_settled c body s : cursors_settled s (after_cursor c body s).
Proof.
  exists [next_obj s]. unfold after_cursor. simpl.
  rewrite !opened_cursors_app, !closed_cursors_app. simpl.
  by rewrite !app_nil_r.
Qed.

Lemma sqlite_cursor_settled b t body s :
  cursors_settled s (snd (get_sqlite_cursor b t body s)).
Proof.
  destruct (sqlite_cursor_cases b t body s)
    as [(-> & _)|[(c & -> & _)|(c & s1 & Hconn & _ & _ & ->)]].
  - apply cursors_settled_refl.
  - apply cursors_settled_refl.
  - simpl. eapply cursors_settled_trans; [|apply after_cursor_settled].
    pose proof (sqlite_conn_settled b t s) as H. by rewrite Hconn in H.
Qed.

(** The value [fetch_date_range_impl] returns is a pair. *)
Lemma fetch_date_range_impl_shape t w db sq s s' v :
  fetch_date_range_impl t w db sq s = (Ok v, s') → ∃ a b, v = PyTuple [a; b].
Proof.
  unfold fetch_date_range_impl. destruct sq.
  - destruct (get_sqlite_cursor _ _ _ _) as [[x|x] s1]; [|done].
    destruct (fetchone w) as [[[a b]|]|tag]; intros [= <- <-]; by eexists _, _.
  - destruct (result_rows w db) as [[|[a b] rows]|tag]; intros [= <- <-]; by eexists _, _.
Qed.

(** [fetch_date_range_impl] leaves the cache entry alone and closes the
    cursor it opens. *)
Lemma fetch_date_range_impl_frame t w db sq s :
  _date_range_cache (self (snd (fetch_date_range_impl t w db sq s))) = _date_range_cache (self s) ∧
  _date_range_ts (self (snd (fetch_date_range_impl t w db sq s))) = _date_range_ts (self s) ∧
  _date_range_ttl (self (snd (fetch_date_range_impl t w db sq s))) = _date_range_ttl (self s) ∧
  cursors_settled s (snd (fetch_date_range_impl t w db sq s)).
Proof.
  unfold fetch_date_range_impl. destruct sq.
  - set (body := λ _ : nat, match fetchone w with
                            | Rows _ => BodyCompletes
                            | QueryFails tag => BodyRaises tag
                            end).
    pose proof (sqlite_cursor_settled (db_file w) t body s) as Hset.
    destruct (sqlite_cursor_cases (db_file w) t body s)
      as [(Hc & _)|[(c & Hc & _)|(c & s1 & Hconn & _ & _ & Hc)]]; rewrite Hc in *;
      [done | done |].
    assert (Hs1 : _date_range_cache (self s1) = _date_range_cache (self s) ∧
                  _date_range_ts (self s1) = _date_range_ts (self s) ∧
                  _date_range_ttl (self s1) = _date_range_ttl (self s)).
    { destruct (_thread_local (self s) !! t) as [c0|] eqn:Hslot.
      - rewrite (get_sqlite_conn_cached _ t s c0 Hslot) in Hconn. by injection Hconn as _ <-.
      - destruct (db_file w).
        + destruct (get_sqlite_conn_opens t s Hslot)
            as (s0 & Hs0 & _ & _ & _ & _ & _ & _ & _ & _ & ? & ? & ?).
          rewrite Hs0 in Hconn. by injection Hconn as _ <-.
        + by rewrite (get_sqlite_conn_missing t s Hslot) in Hconn. }
    simpl in Hset. destruct Hs1 as (Hs1 & Hs2 & Hs3). clearbody body.
    destruct (body (next_obj s1)); destruct (fetchone w) as [[[a b]|]|tag']; simpl;
      by split_and!.
  - destruct (result_rows w db) as [[|[a b] rows]|tag]; simpl;
      (split_and!; [done | done | done | apply cursors_settled_refl]).
Qed.

Lemma fetch_date_range_hit t w now db sq s :
  cache_valid now s = true →
  fetch_date_range t w now db sq s = (Ok (_date_range_cache (self s)), s).
Proof.
  unfold cache_valid, fetch_date_range, get_date_range_cached_st. by intros ->.
Qed.

Lemma fetch_date_range_miss t w now db sq s :
  cache_valid now s = false →
  fetch_date_range t w now db sq s =
    match fetch_date_range_impl t w db sq (emit (EvFetch db sq) s) with
    | (Raise x, s1) => (Raise x, s1)
    | (Ok v, s1) => (Ok v, update (set_date_range v now) s1)
    end.
Proof.
  unfold cache_valid, fetch_date_range, get_date_range_cached_st. by intros ->.
Qed.

(** X7. With the fetch function the application uses, the cache always
    works: whenever [fetch_date_range] returns a value, that value is truthy
    and is the cache entry, and every call made less than the TTL after the
    entry's timestamp, by any thread, on any backend and whatever the
    databases answer, returns it and leaves the state as it is (no query, no
    cursor, no connection). When the call had to fetch, the timestamp is the
    time of the call. *)
Theorem fetch_date_range_served_from_cache
    (t : nat) (w : date_source) (now : Qc) (db : connection) (sq : bool)
    (s s1 : state) (v : pyval) :
  fetch_date_range t w now db sq s = (Ok v, s1) →
  truthy v = true ∧
  _date_range_cache (self s1) = v ∧
  (trace s1 ≠ trace s → _date_range_ts (self s1) = now) ∧
  (∀ t2 w2 now2 db2 sq2,
     (now2 - _date_range_ts (self s1) < _date_range_ttl (self s1))%Qc →
     fetch_date_range t2 w2 now2 db2 sq2 s1 = (Ok v, s1)).
Proof.
  intros Hcall.
  assert (Hv : truthy v = true ∧ _date_range_cache (self s1) = v ∧
               (trace s1 ≠ trace s → _date_range_ts (self s1) = now)).
  { destruct (cache_valid now s) eqn:Hc.
    - rewrite fetch_date_range_hit in Hcall by done. injection Hcall as <- <-.
      apply andb_true_iff in Hc as [Hc _]. done.
    - rewrite fetch_date_range_miss in Hcall by done.
      destruct (fetch_date_range_impl t w db sq (emit (EvFetch db sq) s))
        as [[v'|x] s'] eqn:Himpl; [|done].
      injection Hcall as <- <-.
      destruct (fetch_date_range_impl_shape _ _ _ _ _ _ _ Himpl) as (a & b & ->).
      done. }
  destruct Hv as (Hv & Hcache & Hts). split_and!; try done.
  intros t2 w2 now2 db2 sq2 Hnear.
  rewrite fetch_date_range_hit; [by rewrite Hcache|].
  unfold cache_valid. rewrite Hcache, Hv. simpl. by apply bool_decide_eq_true.
Qed.

Lemma fetch_date_range_served_from_cache_witness :
  let w := {| today_str := "2024-01-01"; db_file := true;
              fetchone := Rows (Some (Some "2017-11-01", Some "2017-12-10"))%string;
              result_rows := λ _, QueryFails 0 |} in
  let v := PyTuple ["2017-11-01"; "2017-12-10"]%string in
  let s1 := snd (fetch_date_range 0%nat w 0%Qc (ConnObj 0%nat) true init_state) in
  truthy v = true ∧
  _date_range_cache (self s1) = v ∧
  (trace s1 ≠ trace init_state → _date_range_ts (self s1) = 0%Qc) ∧
  (∀ t2 w2 now2 db2 sq2,
     (now2 - _date_range_ts (self s1) < _date_range_ttl (self s1))%Qc →
     fetch_date_range t2 w2 now2 db2 sq2 s1 = (Ok v, s1)).
Proof.
  intros w v s1.
  apply (fetch_date_range_served_from_cache 0%nat w 0%Qc (ConnObj 0%nat) true
           init_state s1 v).
  reflexivity.
Defined.



Lemma gate_events_no_cursor evs :
  Forall (λ e, gate_event e = true) evs →
  opened_cursors evs = [] ∧ closed_cursors evs = [].
Proof.
  induction 1 as [|e evs He _ [IH1 IH2]]; [done|].
  destruct e; simpl in *; try done.
Qed.

Lemma gate_settled s s' : gate_only s s' → cursors_settled s s'.
Proof.
  intros [_ _ _ (evs & Ht & Hg) _].
  destruct (gate_events_no_cursor evs Hg). by eapply cursors_settled_quiet.
Qed.

Lemma get_connection_settled cfg e t s :
  cursors_settled s (snd (get_connection cfg e t s)).
Proof.
  unfold get_connection.
  pose proof (check_cached_gate e s) as H1.
  destruct (check_cached e s) as [[r s1]|s1]; [by apply gate_settled; destruct H1|].
  apply gate_settled in H1.
  pose proof (reconnect_gate cfg e s1) as H2.
  destruct (reconnect cfg e s1) as [[r s2]|s2].
  { simpl. eapply cursors_settled_trans; [exact H1|]. by apply gate_settled; destruct H2. }
  apply gate_settled in H2.
  pose proof (sqlite_conn_settled (db_exists e) t s2) as H3.
  destruct (_get_sqlite_conn (db_exists e) t s2) as [[k|x] s3]; simpl in *;
    by eapply cursors_settled_trans; [eapply cursors_settled_trans|].
Qed.

Lemma close_all_settled cr api s : cursors_settled s (close_all cr api s).
Proof.
  eapply cursors_settled_quiet; [apply close_all_trace| |].
  - rewrite opened_cursors_app.
    assert (opened_cursors (map (λ c, EvSqliteClose c (cr c)) (_sqlite_conns (self s))) = [])
      as -> by by induction (_sqlite_conns (self s)).
    by destruct (_ch_client (self s)), api.
  - rewrite closed_cursors_app.
    assert (closed_cursors (map (λ c, EvSqliteClose c (cr c)) (_sqlite_conns (self s))) = [])
      as -> by by induction (_sqlite_conns (self s)).
    by destruct (_ch_client (self s)), api.
Qed.

Lemma date_range_settled f db sq now s :
  cursors_settled s (snd (get_date_range_cached f db sq now s)).
Proof.
  destruct (cache_valid now s) eqn:Hc.
  - rewrite date_range_hit by done. apply cursors_settled_refl.
  - rewrite date_range_miss by done. simpl.
    destruct (f db sq); by eapply (cursors_settled_quiet _ _ [EvFetch db sq]).
Qed.

Lemma run_call_settled cfg t c s : cursors_settled s (snd (run_call cfg t c s)).
Proof.
  destruct c as [e|b|b body|f db sq now|cr api]; simpl.
  - pose proof (get_connection_settled cfg e t s) as H.
    by destruct (get_connection cfg e t s) as [[[[| |k] ?]|x] s1].
  - pose proof (sqlite_conn_settled b t s) as H.
    by destruct (_get_sqlite_conn b t s) as [[k|x] s1].
  - pose proof (sqlite_cursor_settled b t body s) as H.
    by destruct (_get_sqlite_conn b t s) as [[k|x] s1].
  - pose proof (date_range_settled f db sq now s) as H.
    by destruct (get_date_range_cached f db sq now s) as [r s1].
  - apply close_all_settled.
Qed.

Lemma run_settled cfg calls : ∀ s, cursors_settled s (snd (run cfg calls s)).
Proof.
  induction calls as [|[t c] calls IH]; intros s; simpl; [apply cursors_settled_refl|].
  pose proof (run_call_settled cfg t c s) as H1.
  destruct (run_call cfg t c s) as [g s1]. simpl in H1.
  specialize (IH s1). destruct (run cfg calls s1) as [gs s2].
  by eapply cursors_settled_trans.
Qed.

Lemma startup_settled cfg e b t body s :
  cursors_settled s (snd (startup_event cfg e b t body s)).
Proof.
  unfold startup_event.
  pose proof (get_connection_settled cfg e t s) as H1.
  destruct (get_connection cfg e t s) as [[[o []]|x] s1]; simpl in *; try done.
  pose proof (sqlite_cursor_settled b t body s1) as H2.
  destruct (get_sqlite_cursor b t body s1) as [[r|x] s2]; simpl in *;
    by eapply cursors_settled_trans.
Qed.

(** X9. No cursor is left open. After startup, any sequence of manager calls
    by any threads (shutdowns and failing [with] blocks included) and any
    number of date-range fetches through the cache, the cursors closed are
    exactly the cursors opened, in the order they were opened. *)
Theorem no_cursor_left_open
    (cfg : config) (e : env) (b : bool) (t0 : nat) (body : nat → body_exit)
    (calls : list (nat * call))
    (fetches : list (nat * date_source * Qc * connection * bool)) :
  let s1 := snd (startup_event cfg e b t0 body init_state) in
  let s2 := snd (run cfg calls s1) in
  let s3 := foldl (λ s '(t, w, now, db, sq), snd (fetch_date_range t w now db sq s))
                  s2 fetches in
  closed_cursors (trace s3) = opened_cursors (trace s3).
Proof.
  intros s1 s2 s3.
  assert (H2 : cursors_settled init_state s2).
  { eapply cursors_settled_trans; [apply startup_settled | apply run_settled]. }
  assert (H3 : cursors_settled init_state s3).
  { subst s3. clearbody s2. clear s1.
    revert s2 H2. induction fetches as [|[[[[t w] now] db] sq] fs IH]; intros s2 H2; [done|].
    simpl. apply IH. eapply cursors_settled_trans; [exact H2|].
    pose proof (fetch_date_range_impl_frame t w db sq (emit (EvFetch db sq) s2))
      as (_ & _ & _ & Hset).
    destruct (cache_valid now s2) eqn:Hc.
    - rewrite fetch_date_range_hit by done. apply cursors_settled_refl.
    - rewrite fetch_date_range_miss by done.
      apply (cursors_settled_trans _ (emit (EvFetch db sq) s2));
        [by eapply (cursors_settled_quiet _ _ [EvFetch db sq])|].
      by destruct (fetch_date_range_impl t w db sq (emit (EvFetch db sq) s2)) as [[v|x] s']. }
  destruct H3 as (ks & -> & ->). done.
Qed.

(** ** Access control *)

Lemma strip_prefix_Some l s s' : strip_prefix l s = Some s' ↔ s = l ++ s'.
Proof.
  revert s. induction l as [|a l IH]; intros [|b s]; simpl.
  - split; [by intros [= <-] | by intros <-].
  - split; [by intros [= <-] | by intros <-].
  - split; intros; discriminate.
  - case_bool_decide as Hab.
    + subst b. rewrite IH. split; [by intros -> | by intros [= ->]].
    + split; [done | by intros [= -> _]].
Qed.

Lemma startswith_true s l : startswith s l = true ↔ ∃ s', s = l ++ s'.
Proof.
  unfold startswith. destruct (strip_prefix l s) as [s'|] eqn:H.
  - apply strip_prefix_Some in H. split; [by exists s' | done].
  - split; [done|]. intros [s' Hs]. apply strip_prefix_Some in Hs. congruence.
Qed.

Lemma re_lit l i s k :
  re_at (Lit l) i s k = true ↔ ∃ s', s = l ++ s' ∧ k (i + length l)%nat s' = true.
Proof.
  simpl. destruct (strip_prefix l s) as [s'|] eqn:H.
  - apply strip_prefix_Some in H. split; [by exists s'|].
    intros (s'' & Hs & Hk). subst s. by apply app_inv_head in Hs as <-.
  - split; [done|]. intros (s' & Hs & _). apply strip_prefix_Some in Hs. congruence.
Qed.

Lemma re_eol i s : re_at Eol i s (λ _ _, true) = true ↔ s = [] ∨ s = [newline].
Proof. simpl. by rewrite andb_true_r, bool_decide_eq_true. Qed.

(** [.*] takes a stretch without a newline. *)
Lemma re_star_dot k : ∀ n i s,
  (length s ≤ n)%nat →
  star_loop (re_at Dot) k n i s = true ↔
  ∃ a b, s = a ++ b ∧ (newline ∉ a) ∧ k (i + length a)%nat b = true.
Proof.
  assert (Hnil : ∀ i s, k i s = true →
            ∃ a b, s = a ++ b ∧ (newline ∉ a) ∧ k (i + length a)%nat b = true).
  { intros i s Hk. exists [], s. simpl. rewrite Nat.add_0_r.
    split_and!; [done | apply not_elem_of_nil | done]. }
  induction n as [|n IH]; intros i s Hlen; simpl.
  - destruct s; [|simpl in Hlen; lia]. split; [apply Hnil|].
    intros (a & b & Hs & _ & Hk). symmetry in Hs. apply app_eq_nil in Hs as [-> ->].
    simpl in Hk. by rewrite Nat.add_0_r in Hk.
  - rewrite orb_true_iff. split.
    + intros [Hstep|Hk]; [|by apply Hnil].
      destruct s as [|c s]; [done|]. apply andb_true_iff in Hstep as [Hc Hrest].
      apply negb_true_iff, bool_decide_eq_false in Hc.
      apply IH in Hrest as (a & b & -> & Ha & Hk); [|simpl in Hlen; lia].
      exists (c :: a), b. split_and!; [done | |].
      * apply not_elem_of_cons. by split; [intros <-|].
      * simpl. by rewrite Nat.add_succ_r.
    + intros ([|c a] & b & -> & Ha & Hk).
      * right. simpl in Hk. by rewrite Nat.add_0_r in Hk.
      * left. apply not_elem_of_cons in Ha as [Hc Ha]. simpl.
        apply andb_true_iff. split.
        { apply negb_true_iff, bool_decide_eq_false. by intros ->. }
        apply IH; [simpl in Hlen; lia|]. exists a, b. split_and!; [done | done |].
        simpl in Hk. by rewrite Nat.add_succ_r in Hk.
Qed.

(** [l], anchored. *)
Lemma match_exact l p :
  re_match (Cat Bol (Cat (Lit l) Eol)) p = true ↔ up_to_newline p l.
Proof.
  unfold re_match, up_to_newline.
  change (re_at (Cat Bol (Cat (Lit l) Eol)) 0 p (λ _ _, true))
    with (bool_decide (0 = 0)%nat && re_at (Lit l) 0 p (λ j s', re_at Eol j s' (λ _ _, true))).
  rewrite bool_decide_eq_true_2 by done. rewrite andb_true_l, re_lit. split.
  - intros (s' & -> & [->| ->]%re_eol); [left; by rewrite app_nil_r | by right].
  - intros [->| ->]; [exists []; rewrite app_nil_r | exists [newline]];
      (split; [done|]); apply re_eol; auto.
Qed.

(** [l] with an optional sub-path, anchored. *)
Lemma match_tree l p :
  re_match (Cat Bol (Cat (Lit l) (Cat (Opt (Cat (Lit (codes "/")) (Star Dot))) Eol))) p = true ↔
  up_to_newline p l ∨ ∃ r, (newline ∉ r) ∧ up_to_newline p (l ++ codes "/" ++ r).
Proof.
  unfold re_match, up_to_newline.
  change (re_at (Cat Bol (Cat (Lit l) (Cat (Opt (Cat (Lit (codes "/")) (Star Dot))) Eol)))
            0 p (λ _ _, true))
    with (bool_decide (0 = 0)%nat &&
          re_at (Lit l) 0 p (λ j s',
            re_at (Lit (codes "/")) j s' (λ j' s'',
              star_loop (re_at Dot) (λ j s, re_at Eol j s (λ _ _, true)) (length s'') j' s'')
            || re_at Eol j s' (λ _ _, true))).
  rewrite bool_decide_eq_true_2 by done. rewrite andb_true_l, re_lit. split.
  - intros (s' & -> & [Hsub|[->| ->]%re_eol]%orb_true_iff).
    + apply re_lit in Hsub as (s'' & -> & Hstar).
      apply re_star_dot in Hstar; [|lia].
      destruct Hstar as (a & b & -> & Ha & [->| ->]%re_eol).
      * right. exists a. split; [done|]. left. by rewrite app_nil_r.
      * right. exists a. split; [done|]. right. by rewrite <- !app_assoc.
    + left. left. by rewrite app_nil_r.
    + left. by right.
  - intros [[->| ->]|(r & Hr & [->| ->])].
    + exists []. rewrite app_nil_r. split; [done|]. apply orb_true_iff. right.
      apply re_eol. auto.
    + exists [newline]. split; [done|]. apply orb_true_iff. right. apply re_eol. auto.
    + exists (codes "/" ++ r). split; [done|]. apply orb_true_iff. left.
      apply re_lit. exists r. split; [done|]. apply re_star_dot; [simpl; lia|].
      exists r, []. rewrite app_nil_r. split_and!; [done | done |]. apply re_eol. auto.
    + exists (codes "/" ++ r ++ [newline]). split; [by rewrite <- !app_assoc|].
      apply orb_true_iff. left. apply re_lit. exists (r ++ [newline]). split; [done|].
      apply re_star_dot; [simpl; lia|]. exists r, [newline]. split_and!; [done | done |].
      apply re_eol. auto.
Qed.

Lemma whitelisted_cases path :
  is_jwt_whitelisted path = true ↔
  (up_to_newline path (codes "/docs") ∨
   ∃ r, (newline ∉ r) ∧ up_to_newline path (codes "/docs" ++ codes "/" ++ r)) ∨
  (up_to_newline path (codes "/redoc") ∨
   ∃ r, (newline ∉ r) ∧ up_to_newline path (codes "/redoc" ++ codes "/" ++ r)) ∨
  up_to_newline path (codes "/openapi.json") ∨
  up_to_newline path (codes "/api/auth/login").
Proof.
  unfold is_jwt_whitelisted, JWT_WHITELIST_PATTERNS. cbn [existsb].
  rewrite orb_false_r, !orb_true_iff, !match_tree, !match_exact. tauto.
Qed.

(** X10. The paths that pass without a token. [is_jwt_whitelisted] accepts
    exactly [/docs], [/redoc], [/openapi.json], [/api/auth/login], and any
    path below [/docs/] or [/redoc/] that holds no newline; and, because [$]
    also holds before a final newline, each of these with one newline at its
    end. Nothing else is accepted: not [/docsx], not [/api/auth/login/]. *)
Theorem is_jwt_whitelisted_paths (path : str) :
  is_jwt_whitelisted path = true ↔
  ∃ q, up_to_newline path q ∧
       (q = codes "/docs" ∨ q = codes "/redoc" ∨ q = codes "/openapi.json" ∨
        q = codes "/api/auth/login" ∨
        ∃ r, (newline ∉ r) ∧ (q = codes "/docs/" ++ r ∨ q = codes "/redoc/" ++ r)).
Proof.
  rewrite whitelisted_cases. split.
  - intros [[H|(r & Hr & H)]|[[H|(r & Hr & H)]|[H|H]]].
    + exists (codes "/docs"). auto.
    + exists (codes "/docs/" ++ r). split; [exact H|]. do 4 right. exists r. auto.
    + exists (codes "/redoc"). auto.
    + exists (codes "/redoc/" ++ r). split; [exact H|]. do 4 right. exists r. auto.
    + exists (codes "/openapi.json"). auto.
    + exists (codes "/api/auth/login"). auto 6.
  - intros (q & Hq & [->|[->|[->|[->|(r & Hr & [->| ->])]]]]).
    + auto.
    + auto.
    + auto.
    + auto 6.
    + left. right. by exists r.
    + right. left. right. by exists r.
Qed.

Lemma split_on_first sep tok rest :
  sep ∉ tok → (rest = [] ∨ ∃ r, rest = sep :: r) →
  ∃ ws, split_on sep (tok ++ rest) = tok :: ws.
Proof.
  intros Htok Hrest. induction tok as [|c tok IH]; simpl.
  - destruct Hrest as [->|(r & ->)]; simpl; [by eexists|].
    rewrite bool_decide_eq_true_2 by done. by eexists.
  - apply not_elem_of_cons in Htok as [Hc Htok].
    rewrite bool_decide_eq_false_2 by done.
    destruct (IH Htok) as (ws & ->). by eexists.
Qed.

Lemma split_first_piece (sep : N) (s : str) :
  ∃ tok rest : str, s = tok ++ rest ∧ (sep ∉ tok) ∧ (rest = [] ∨ ∃ r, rest = sep :: r).
Proof.
  induction s as [|c s (tok & rest & -> & Htok & Hrest)].
  - exists [], []. split_and!; [done | apply not_elem_of_nil | by left].
  - destruct (decide (c = sep)) as [->|Hc].
    + exists [], (sep :: tok ++ rest). split_and!; [done | apply not_elem_of_nil |].
      right. by eexists.
    + exists (c :: tok), rest. split_and!; [done | | done].
      apply not_elem_of_cons. by split; [intros ->|].
Qed.

(** [split(" ")[1]] of a header that starts with [Bearer ]: what stands
    between the first blank and the next one. *)
Lemma bearer_token tok rest :
  space ∉ tok → (rest = [] ∨ ∃ r, rest = space :: r) →
  split_on space (codes "Bearer " ++ tok ++ rest) !! 1%nat = Some tok.
Proof.
  intros Htok Hrest. destruct (split_on_first space tok rest Htok Hrest) as (ws & Hws).
  change (codes "Bearer " ++ tok ++ rest)
    with (66 :: 101 :: 97 :: 114 :: 101 :: 114 :: 32 :: tok ++ rest)%N.
  simpl. by rewrite Hws.
Qed.

Lemma verify_jwt_token_bearer {P : Type} (jwt_decode : str → jwt_outcome P) req tok rest :
  method req ≠ codes "OPTIONS" → is_jwt_whitelisted (url_path req) = false →
  authorization req = Some (codes "Bearer " ++ tok ++ rest) →
  space ∉ tok → (rest = [] ∨ ∃ r, rest = space :: r) →
  verify_jwt_token jwt_decode req =
    match jwt_decode tok with
    | Decoded payload => CallNext (Some payload)
    | ExpiredSignatureError => Unauthorized TokenExpired
    | InvalidTokenError => Unauthorized TokenInvalid
    end.
Proof.
  intros Hm Hw Hh Htok Hrest. unfold verify_jwt_token.
  rewrite bool_decide_eq_false_2 by done. rewrite Hw, Hh.
  rewrite (bearer_token tok rest Htok Hrest).
  assert (startswith (codes "Bearer " ++ tok ++ rest) (codes "Bearer ") = true) as ->
    by (apply startswith_true; by eexists).
  by rewrite bool_decide_eq_false_2 by done.
Qed.

Lemma verify_jwt_token_no_bearer {P : Type} (jwt_decode : str → jwt_outcome P) req :
  method req ≠ codes "OPTIONS" → is_jwt_whitelisted (url_path req) = false →
  (∀ x, authorization req ≠ Some (codes "Bearer " ++ x)) →
  verify_jwt_token jwt_decode req = Unauthorized MissingToken.
Proof.
  intros Hm Hw Hh. unfold verify_jwt_token.
  rewrite bool_decide_eq_false_2 by done. rewrite Hw.
  destruct (authorization req) as [h|]; [|done].
  destruct (startswith h (codes "Bearer ")) eqn:Hs.
  - apply startswith_true in Hs as (x & ->). by destruct (Hh x).
  - by rewrite orb_true_r.
Qed.

(** X11. Who gets past the middleware. [verify_jwt_token] hands a request on
    in two cases only: it is an [OPTIONS] request or its path is whitelisted
    (no user is attached), or its [Authorization] header is [Bearer ], a
    token without a blank and then nothing or a blank and anything, and
    [jwt.decode] accepts that token (its payload is attached). Every other
    request is answered with 401; the index [1] into the split header is
    never out of range. *)
Theorem verify_jwt_token_forwards {P : Type}
    (jwt_decode : str → jwt_outcome P) (req : request) :
  (∀ u, verify_jwt_token jwt_decode req = CallNext u ↔
     (u = None ∧
      (method req = codes "OPTIONS" ∨ is_jwt_whitelisted (url_path req) = true)) ∨
     (method req ≠ codes "OPTIONS" ∧ is_jwt_whitelisted (url_path req) = false ∧
      ∃ token rest payload,
        authorization req = Some (codes "Bearer " ++ token ++ rest) ∧
        (space ∉ token) ∧ (rest = [] ∨ ∃ r, rest = space :: r) ∧
        jwt_decode token = Decoded payload ∧ u = Some payload)) ∧
  ((∃ u, verify_jwt_token jwt_decode req = CallNext u) ∨
   (∃ why, verify_jwt_token jwt_decode req = Unauthorized why)).
Proof.
  destruct (decide (method req = codes "OPTIONS")) as [Hm|Hm].
  { assert (Hv : verify_jwt_token jwt_decode req = CallNext None).
    { unfold verify_jwt_token. by rewrite bool_decide_eq_true_2. }
    rewrite Hv. split; [|left; by eexists].
    intros u. split; [intros [= <-]; auto|]. by intros [[-> _]|(? & _)]. }
  destruct (is_jwt_whitelisted (url_path req)) eqn:Hw.
  { assert (Hv : verify_jwt_token jwt_decode req = CallNext None).
    { unfold verify_jwt_token. rewrite bool_decide_eq_false_2 by done. by rewrite Hw. }
    rewrite Hv. split; [|left; by eexists].
    intros u. split; [intros [= <-]; auto|]. by intros [[-> _]|(_ & ? & _)]. }
  destruct (authorization req) as [h|] eqn:Hh.
  2: { rewrite verify_jwt_token_no_bearer by (try done; by rewrite Hh).
       split; [|right; by eexists]. intros u. split; [done|].
       by intros [[_ [?|?]]|(_ & _ & tok & rest & p & ? & _)]. }
  destruct (startswith h (codes "Bearer ")) eqn:Hs.
  2: { rewrite verify_jwt_token_no_bearer; try done.
       - split; [|right; by eexists]. intros u. split; [done|].
         intros [[_ [?|?]]|(_ & _ & tok & rest & p & Hh' & _)]; try done.
         assert (h = codes "Bearer " ++ tok ++ rest) as -> by congruence.
         assert (startswith (codes "Bearer " ++ tok ++ rest) (codes "Bearer ") = true)
           by (apply startswith_true; by eexists).
         congruence.
       - intros x. rewrite Hh. intros Hx.
         assert (h = codes "Bearer " ++ x) as -> by congruence.
         assert (startswith (codes "Bearer " ++ x) (codes "Bearer ") = true)
           by (apply startswith_true; by eexists).
         congruence. }
  apply startswith_true in Hs as (x & ->).
  destruct (split_first_piece space x) as (tok & rest & -> & Htok & Hrest).
  rewrite (verify_jwt_token_bearer jwt_decode req tok rest Hm Hw Hh Htok Hrest).
  assert (Huniq : ∀ tok' rest', Some (codes "Bearer " ++ tok ++ rest) =
                                Some (codes "Bearer " ++ tok' ++ rest') →
            (space ∉ tok') → (rest' = [] ∨ ∃ r, rest' = space :: r) → tok' = tok).
  { intros tok' rest' Heq Htok' Hrest'.
    assert (Heq' : codes "Bearer " ++ tok ++ rest = codes "Bearer " ++ tok' ++ rest')
      by congruence.
    pose proof (bearer_token tok rest Htok Hrest) as H1.
    pose proof (bearer_token tok' rest' Htok' Hrest') as H2.
    rewrite Heq' in H1. congruence. }
  destruct (jwt_decode tok) as [p| |] eqn:Hd.
  - split; [|left; by eexists]. intros u. split.
    + intros [= <-]. right. split_and!; [done | done |]. by exists tok, rest, p.
    + intros [[_ [?|?]]|(_ & _ & tok' & rest' & p' & Heq & Htok' & Hrest' & Hd' & ->)];
        try done.
      rewrite (Huniq tok' rest' Heq Htok' Hrest') in Hd'. congruence.
  - split; [|right; by eexists]. intros u. split; [done|].
    intros [[_ [?|?]]|(_ & _ & tok' & rest' & p' & Heq & Htok' & Hrest' & Hd' & ->)];
      try done.
    rewrite (Huniq tok' rest' Heq Htok' Hrest') in Hd'. congruence.
  - split; [|right; by eexists]. intros u. split; [done|].
    intros [[_ [?|?]]|(_ & _ & tok' & rest' & p' & Heq & Htok' & Hrest' & Hd' & ->)];
      try done.
    rewrite (Huniq tok' rest' Heq Htok' Hrest') in Hd'. congruence.
Qed.

(** X12. The API is behind the token check. A request that is not [OPTIONS],
    for a path that starts with [/api/] and is not the login path (with or
    without a final newline), reaches its route only with a [Bearer] token
    that [jwt.decode] accepts, and then with the payload of that token
    attached; without an [Authorization] header it is answered with 401. *)
Theorem api_requires_valid_token {P : Type}
    (jwt_decode : str → jwt_outcome P) (req : request) (r : str) :
  method req ≠ codes "OPTIONS" →
  url_path req = codes "/api/" ++ r →
  ¬ up_to_newline (url_path req) (codes "/api/auth/login") →
  (authorization req = None →
   verify_jwt_token jwt_decode req = Unauthorized MissingToken) ∧
  ∀ u, verify_jwt_token jwt_decode req = CallNext u →
    ∃ token rest payload,
      authorization req = Some (codes "Bearer " ++ token ++ rest) ∧
      (space ∉ token) ∧ (rest = [] ∨ ∃ r', rest = space :: r') ∧
      jwt_decode token = Decoded payload ∧ u = Some payload.
Proof.
  intros Hm Hpath Hlogin.
  assert (Hw : is_jwt_whitelisted (url_path req) = false).
  { apply not_true_is_false. rewrite whitelisted_cases, Hpath.
    rewrite Hpath in Hlogin. unfold up_to_newline in *.
    intros [[[H|H]|(r' & _ & [H|H])]|[[[H|H]|(r' & _ & [H|H])]|[[H|H]|H]]];
      try done; by (vm_compute in H; discriminate H). }
  split.
  - intros Hnone. apply verify_jwt_token_no_bearer; try done. by rewrite Hnone.
  - intros u Hv.
    destruct (authorization req) as [h|] eqn:Hh.
    2: { rewrite verify_jwt_token_no_bearer in Hv; try done. by rewrite Hh. }
    destruct (startswith h (codes "Bearer ")) eqn:Hs.
    2: { rewrite verify_jwt_token_no_bearer in Hv; try done.
         intros x. rewrite Hh. intros Hx.
         assert (h = codes "Bearer " ++ x) as -> by congruence.
         assert (startswith (codes "Bearer " ++ x) (codes "Bearer ") = true)
           by (apply startswith_true; by eexists).
         congruence. }
    apply startswith_true in Hs as (x & ->).
    destruct (split_first_piece space x) as (tok & rest & -> & Htok & Hrest).
    rewrite (verify_jwt_token_bearer jwt_decode req tok rest Hm Hw Hh Htok Hrest) in Hv.
    destruct (jwt_decode tok) as [p| |] eqn:Hd; try done.
    injection Hv as <-. by exists tok, rest, p.
Qed.

Lemma api_requires_valid_token_witness :
  let jwt_decode := λ token : str,
    if bool_decide (token = codes "abc") then Decoded 7%nat else InvalidTokenError in
  let req := {| method := codes "GET"; url_path := codes "/api/dashboard/all";
                authorization := Some (codes "Bearer abc") |} in
  verify_jwt_token jwt_decode req = CallNext (Some 7%nat) ∧
  ∃ token rest payload,
    authorization req = Some (codes "Bearer " ++ token ++ rest) ∧
    (space ∉ token) ∧ (rest = [] ∨ ∃ r', rest = space :: r') ∧
    jwt_decode token = Decoded payload ∧ Some 7%nat = Some payload.
Proof.
  intros jwt_decode req.
  assert (Hv : verify_jwt_token jwt_decode req = CallNext (Some 7%nat))
    by (vm_compute; reflexivity).
  split; [exact Hv|].
  refine (proj2 (api_requires_valid_token jwt_decode req (codes "dashboard/all") _ _ _)
            (Some 7%nat) Hv).
  - vm_compute. discriminate.
  - reflexivity.
  - intros [H|H]; vm_compute in H; discriminate H.
Defined.
